(** * cl: lowering of Go SSA packages to the llgo SSA builder

    A shallow embedding of [cl/compile.go]: the function classifier
    [funcKind], the value resolver [compileValue], the instruction lowerer
    [compileInstr] / [compileInstrAndValue], the block and function builders
    and the package driver [NewPackage], followed by the properties of the
    translator that the specification states.

    The source works on two pointer graphs it does not own: the input
    (golang.org/x/tools/go/ssa) and the output (github.com/goplus/llgo/ssa).
    Module [ssa] holds the part of the input the translator reads, Module
    [llssa] a recording model of the output builder.  The translator itself
    is a state-and-panic computation over [context].

    Three things stand outside compile.go and enter as parameters of the
    development: the reserved parameter name [NameValist], the naming
    functions [funcName] and [fullName], and [sort.Slice], of which only
    the contract is assumed (it returns a rearrangement sorted by the
    comparison; it is not stable).

    Left out: the logging that [debugInstr] and [debugGoSSA] switch on, the
    call of [initFiles], which is defined in another file and fills the
    link-name table before the first member is compiled, and the fields of
    [context] that compile.go never writes after it ([prog], [fset],
    [goTyps], [goPkg], [link], [loaded]). *)

From stdpp Require Import base option list gmap strings sorting.
From Stdlib Require Import ZArith Lia.

(** An address stands for the identity of a Go pointer. *)
Definition addr := nat.

(** ** The input: go/ssa, as far as compile.go reads it *)
Module ssa.

(** go/types descriptors are opaque to the translator; it only passes
    them on. *)
Definition GoType := string.

(** go/constant values: [None] below is the nil [constant.Value]. *)
Inductive constant := CBool (b : bool) | CInt (z : Z) | CString (s : string).

(** types.Var: a parameter or receiver declaration. *)
Record Var := { VarName : string; VarType : GoType }.

(** types.Signature *)
Record Signature := { Recv : option Var; Params : list Var }.

(** What is read of a [*ssa.Function] through a reference to it:
    [fn.Name()], [fn.Pkg.Pkg.Path()] and [fn.Signature]. *)
Record Func := { Name : string; PkgPath : string; Sig : Signature }.

(** [*ssa.Global] *)
Record Global := {
  GName : string; GPkgPath : string; GType : GoType; GPos : Z }.

(** Dynamic types that are both [ssa.Instruction] and [ssa.Value] and
    have no case in [compileInstrAndValue]. *)
Inductive OtherInstrAndValue :=
| ChangeInterface | ChangeType | Convert | Extract_ | Field | FieldAddr
| Index_ | Lookup | MakeChan | MakeClosure | MakeInterface | MakeMap
| MakeSlice | MultiConvert | Next | Phi | Range | Select | Slice
| SliceToArrayPointer | TypeAssert.

(** Values that are not instructions and have no case in [compileValue]. *)
Inductive OtherValue := Builtin | FreeVar.

(** Instructions that are not values and have no case in [compileInstr]. *)
Inductive OtherInstr :=
| DebugRef | Defer | Go | MapUpdate | Panic_ | RunDefers | Send.

(** [ssa.Value], split as the source's type tests split it: the dynamic
    types that also implement [ssa.Instruction] ([InstrAndValue], the
    interface [instrAndValue] of compile.go) and the rest.  Every
    instruction carries its address: [bvals] is keyed by pointer
    identity. *)
Inductive Value :=
| VInstr (iv : InstrAndValue)
| Parameter_ (self : addr) (parentParams : list addr)
    (* v.Parent().Params, as addresses *)
| Function_ (fn : Func)
| Global_ (g : Global)
| Const (val : option constant) (typ : GoType)
| VOther (k : OtherValue)
with InstrAndValue :=
| Call (self : addr) (callee : Value) (Args : list Value)
| BinOp (self : addr) (Op : Z) (X Y : Value)
| UnOp (self : addr) (Op : Z) (X : Value)
| IndexAddr (self : addr) (X Index : Value)
| Alloc (self : addr) (typ : GoType) (Heap : bool)
| IVOther (self : addr) (k : OtherInstrAndValue).

Definition addrOf (iv : InstrAndValue) : addr :=
  match iv with
  | Call a _ _ | BinOp a _ _ _ | UnOp a _ _ | IndexAddr a _ _
  | Alloc a _ _ | IVOther a _ => a
  end.

(** [ssa.Instruction].  [Jump] and [If] carry what the source reads of
    them, [v.Block().Succs[k].Index]. *)
Inductive Instruction :=
| IValue (iv : InstrAndValue)
| Store (Addr Val : Value)
| Jump (Succs : list nat)
| Return (Results : list Value)
| If_ (Cond : Value) (Succs : list nat)
| IOther (k : OtherInstr).

(** [*ssa.BasicBlock] *)
Record BasicBlock := { Index : nat; Instrs : list Instruction }.

(** [*ssa.Function] as a package member. *)
Record Function := {
  Header : Func;
  TypeParams : list string;     (* nil iff not generic *)
  Pos : Z;
  Blocks : list BasicBlock }.

(** [*ssa.Type] and [*ssa.NamedConst] members: only their position is
    read. *)
Record TypeMember := { TName : string; TPos : Z }.
Record NamedConst := { CName : string; CPos : Z }.

(** [ssa.Member] *)
Inductive Member :=
| MFunction (f : Function)
| MType (t : TypeMember)
| MGlobal (g : Global)
| MNamedConst (c : NamedConst).

Definition MemberPos (m : Member) : Z :=
  match m with
  | MFunction f => Pos f
  | MType t => TPos t
  | MGlobal g => GPos g
  | MNamedConst c => CPos c
  end.

(** [*ssa.Package].  [Members] is a Go map; the list gives its entries in
    the order in which [range] happens to deliver them in one run. *)
Record Package := {
  PkgName : string;
  PkgPkgPath : string;
  Members : list (string * Member) }.

End ssa.

(** ** The output: llgo/ssa, as a recording of the calls made to it

    Modelled from the spec: package llssa (Program, Package, Function,
    Builder, Expr) is not part of the sources at hand.  Section 6 of the
    specification describes it as a builder whose return values are opaque,
    immutable handles; the model records every declaration and every
    emitted operation and hands out handles that name them. *)
Module llssa.

Inductive Type_ := TypeOf (t : ssa.GoType).      (* prog.Type(t) *)

Inductive Expr :=
| Nil                                  (* the zero Expr *)
| FuncExpr (h : nat)                   (* fn.Expr *)
| VarExpr (h : nat)                    (* g.Expr *)
| Param (fn : nat) (idx : nat)         (* fn.Param(idx) *)
| ConstExpr (v : option ssa.constant) (t : Type_)   (* b.Const *)
| Null (t : Type_)                     (* prog.Null *)
| Reg (fn blk pos : nat).              (* result of an emitted operation *)

Inductive Op :=
| OCall (fn : Expr) (args : list Expr)
| OBinOp (op : Z) (x y : Expr)
| OUnOp (op : Z) (x : Expr)
| OIndexAddr (x idx : Expr)
| OAlloc (t : Type_) (heap : bool)
| OStore (ptr val : Expr)
| OJump (blk : nat)
| OReturn (results : list Expr)
| OIf (cond : Expr) (thenb elseb : nat).

Record Function := {
  fname : string; fsig : ssa.Signature; blocks : list (list Op) }.

Record Global := {
  gname : string; gtyp : Type_; ginit : option Expr }.

Record Package := {
  name : string; path : string;
  funcs : list Function; vars : list Global }.

Definition Builder := nat.   (* the function the builder writes into *)

(** prog.NewPackage(name, path): a package without declarations. *)
Definition NewPackage (nm pth : string) : Package :=
  {| name := nm; path := pth; funcs := []; vars := [] |}.

Definition withFuncs (fs : list Function) (p : Package) : Package :=
  {| name := name p; path := path p; funcs := fs; vars := vars p |}.

Definition withVars (vs : list Global) (p : Package) : Package :=
  {| name := name p; path := path p; funcs := funcs p; vars := vs |}.

Definition withBlocks (bs : list (list Op)) (f : Function) : Function :=
  {| fname := fname f; fsig := fsig f; blocks := bs |}.

(** pkg.FuncOf / pkg.VarOf: lookup by name. *)
Definition FuncOf (nm : string) (p : Package) : option nat :=
  fst <$> list_find (λ f, fname f = nm) (funcs p).

Definition VarOf (nm : string) (p : Package) : option nat :=
  fst <$> list_find (λ g, gname g = nm) (vars p).

(** The operations emitted so far into block [i] of function [h]. *)
Definition opsOf (h i : nat) (p : Package) : option (list Op) :=
  funcs p !! h ≫= λ f, blocks f !! i.

Definition appendOp (h i : nat) (o : Op) (p : Package) : Package :=
  withFuncs
    (alter (λ f, withBlocks (alter (λ ops, ops ++ [o]) i (blocks f)) f)
           h (funcs p)) p.

End llssa.

(** ** Panics and the translator's state *)

(** Go run-time errors the translator can run into. *)
Inductive runtimeError :=
| NilDereference          (* invalid memory address or nil pointer dereference *)
| IndexOutOfRange         (* index out of range *)
| MakesliceLen.           (* makeslice: len out of range *)

(** The value of a panic.  Nothing in the package recovers, so a panic
    ends [NewPackage] without a result. *)
Inductive panicValue :=
| Todo                                               (* panic("todo") *)
| UnknownInstrAndValue (k : ssa.OtherInstrAndValue)
    (* "compileInstrAndValue: unknown instr - %T" *)
| UnknownInstr (k : ssa.OtherInstr)
    (* "compileInstr: unknown instr - %T" *)
| UnknownValue (k : option ssa.OtherValue)
    (* "compileValue: unknown value - %T"; [None] is *ssa.Parameter *)
| NotDeclared (nm : string)
    (* a registry lookup of a function or global that was never declared *)
| RuntimeError (e : runtimeError).

(** The closure that [compileFunc] appends to [inits]: it captures the
    declared function [fn], its name and the source function [f]. *)
Record deferred := {
  d_fn : nat; d_name : string; d_f : ssa.Function }.

(** [context], restricted to the fields compile.go writes after
    [initFiles]: [pkg] is the package object the field points to, [fn] a
    function handle or nil.  [cursor] is not a field of the Go struct: it is
    the insertion block of the one [llssa.Builder] alive at a time. *)
Record context := {
  pkg : llssa.Package;
  fn : option nat;
  bvals : gmap addr llssa.Expr;
  inits : list deferred;
  cursor : option nat }.

Definition setPkg (P : llssa.Package) (p : context) : context :=
  {| pkg := P; fn := fn p; bvals := bvals p; inits := inits p;
     cursor := cursor p |}.
Definition setFn (f : option nat) (p : context) : context :=
  {| pkg := pkg p; fn := f; bvals := bvals p; inits := inits p;
     cursor := cursor p |}.
Definition setBvals (m : gmap addr llssa.Expr) (p : context) : context :=
  {| pkg := pkg p; fn := fn p; bvals := m; inits := inits p;
     cursor := cursor p |}.
Definition setInits (l : list deferred) (p : context) : context :=
  {| pkg := pkg p; fn := fn p; bvals := bvals p; inits := l;
     cursor := cursor p |}.
Definition setCursor (c : option nat) (p : context) : context :=
  {| pkg := pkg p; fn := fn p; bvals := bvals p; inits := inits p;
     cursor := c |}.

Inductive result (A : Type) :=
| Ok (a : A) (p : context)
| Panic (e : panicValue).
Arguments Ok {A} a p.
Arguments Panic {A} e.

(** A method of [*context]: it reads and writes the context and either
    returns or panics. *)
Definition M (A : Type) := context → result A.

Definition ret {A} (a : A) : M A := λ p, Ok a p.
Definition panic {A} (e : panicValue) : M A := λ _, Panic e.
Definition bind {A B} (m : M A) (k : A → M B) : M B :=
  λ p, match m p with Ok a p' => k a p' | Panic e => Panic e end.
Definition get : M context := λ p, Ok p p.
Definition modify (f : context → context) : M unit := λ p, Ok tt (f p).

Notation "'let*' x ':=' m 'in' k" := (bind m (λ x, k))
  (at level 10, x name, m at level 100, k at level 200,
   format "'[v' 'let*'  x  ':='  m  'in' '/' k ']'").
Notation "m '>>' k" := (bind m (λ _, k))
  (at level 65, right associativity).

(** [for ... range l { f x }]: run [f] on the elements in order and
    collect the results. *)
Fixpoint forRange {A B} (f : A → M B) (l : list A) : M (list B) :=
  match l with
  | [] => ret []
  | x :: l' => let* y := f x in let* ys := forRange f l' in ret (y :: ys)
  end.

(** ** llssa calls, as context computations *)

(** Every emitting Builder method: append to the insertion block and
    return the handle of the new operation. *)
Definition emit (b : llssa.Builder) (o : llssa.Op) : M llssa.Expr :=
  λ p, match cursor p with
       | None => Panic (RuntimeError NilDereference)
       | Some i =>
           match llssa.opsOf b i (pkg p) with
           | None => Panic (RuntimeError NilDereference)
           | Some ops =>
               Ok (llssa.Reg b i (length ops))
                  (setPkg (llssa.appendOp b i o (pkg p)) p)
           end
       end.

(** [p.fn.Block(idx)] *)
Definition fnBlock (idx : nat) : M nat :=
  λ p, match fn p with
       | None => Panic (RuntimeError NilDereference)
       | Some h =>
           match llssa.opsOf h idx (pkg p) with
           | None => Panic (RuntimeError IndexOutOfRange)
           | Some _ => Ok idx p
           end
       end.

(** [b.SetBlock(blk)] *)
Definition SetBlock (b : llssa.Builder) (blk : nat) : M unit :=
  modify (setCursor (Some blk)).

(** [p.fn.Param(idx)] *)
Definition fnParam (idx : nat) : M llssa.Expr :=
  λ p, match fn p with
       | None => Panic (RuntimeError NilDereference)
       | Some h => Ok (llssa.Param h idx) p
       end.

(** [pkg.NewFunc(name, sig)]: a function without blocks. *)
Definition NewFunc (nm : string) (sig : ssa.Signature) : M nat :=
  λ p, let P := pkg p in
       Ok (length (llssa.funcs P))
          (setPkg (llssa.withFuncs
                     (llssa.funcs P ++
                      [{| llssa.fname := nm; llssa.fsig := sig;
                          llssa.blocks := [] |}]) P) p).

(** [pkg.NewVar(name, typ)] *)
Definition NewVar (nm : string) (typ : ssa.GoType) : M nat :=
  λ p, let P := pkg p in
       Ok (length (llssa.vars P))
          (setPkg (llssa.withVars
                     (llssa.vars P ++
                      [{| llssa.gname := nm; llssa.gtyp := llssa.TypeOf typ;
                          llssa.ginit := None |}]) P) p).

(** [g.Init(v)] *)
Definition InitVar (g : nat) (v : llssa.Expr) : M unit :=
  modify (λ p, setPkg (llssa.withVars
     (alter (λ x, {| llssa.gname := llssa.gname x; llssa.gtyp := llssa.gtyp x;
                     llssa.ginit := Some v |}) g (llssa.vars (pkg p)))
     (pkg p)) p).

(** [fn.MakeBlocks(nblk)] *)
Definition MakeBlocks (h : nat) (nblk : nat) : M unit :=
  modify (λ p, setPkg (llssa.withFuncs
     (alter (λ f, llssa.withBlocks (llssa.blocks f ++ replicate nblk []) f)
            h (llssa.funcs (pkg p)))
     (pkg p)) p).

(** ** compile.go *)

(** [dbgFlags] is Go's [int]; on it [&] and [|] are the two's-complement
    operations that [Z.land] and [Z.lor] are on [Z]. *)
Definition DbgFlagInstruction : Z := Z.shiftl 1 0.
Definition DbgFlagGoSSA : Z := Z.shiftl 1 1.
Definition DbgFlagAll : Z := Z.lor DbgFlagInstruction DbgFlagGoSSA.

(** The package variables [debugInstr] and [debugGoSSA]. *)
Record debugVars := { debugInstr : bool; debugGoSSA : bool }.

(** [SetDebug] assigns both variables, whatever they held. *)
Definition SetDebug (dbgFlags : Z) : debugVars :=
  {| debugInstr := negb (Z.land dbgFlags DbgFlagInstruction =? 0)%Z;
     debugGoSSA := negb (Z.land dbgFlags DbgFlagGoSSA =? 0)%Z |}.

Definition fnNormal : Z := 0.
Definition fnHasVArg : Z := 1.
Definition fnUnsafeInit : Z := 2.

Section cl.

(** [llssa.NameValist], the reserved name of a variadic-marker
    parameter; declared in package llssa. *)
Variable NameValist : string.

(** [p.funcName(fn.Pkg.Pkg, fn)] and [fullName(pkg, name)] are defined in
    another file of package cl.  [funcName] reads the link-name table,
    which [initFiles] fills before the first member is compiled and which
    compile.go never writes. *)
Variable funcName : ssa.Func → string.
Variable fullName : string → string → string.

Definition funcKind (vfn : ssa.Value) : Z :=
  match vfn with
  | ssa.Function_ fn =>
      match ssa.Recv (ssa.Sig fn) with
      | None =>
          let params := ssa.Params (ssa.Sig fn) in
          let n := length params in
          if Nat.eqb n 0 then
            if String.eqb (ssa.Name fn) "init"
               && String.eqb (ssa.PkgPath fn) "unsafe"
            then fnUnsafeInit else fnNormal
          else
            match params !! (n - 1)%nat with
            | Some last =>
                if String.eqb (ssa.VarName last) NameValist
                then fnHasVArg else fnNormal
            | None => fnNormal
            end
      | Some _ => fnNormal
      end
  | _ => fnNormal
  end.

(** Modelled from the spec: [p.funcOf] and [p.varOf] are defined in
    another file of package cl.  Section 4.2: a reference to a declared
    function or global is resolved through the declaration registry of
    the package and fails if it was not declared. *)
Definition funcOf (v : ssa.Func) : M nat :=
  λ p, match llssa.FuncOf (funcName v) (pkg p) with
       | Some h => Ok h p
       | None => Panic (NotDeclared (funcName v))
       end.

Definition varOf (v : ssa.Global) : M nat :=
  let nm := fullName (ssa.GPkgPath v) (ssa.GName v) in
  λ p, match llssa.VarOf nm (pkg p) with
       | Some h => Ok h p
       | None => Panic (NotDeclared nm)
       end.

Definition compileType (pkg : llssa.Package) (member : ssa.TypeMember)
  : M unit :=
  panic Todo.

Definition compileGlobal (gbl : ssa.Global) : M unit :=
  let typ := ssa.GType gbl in
  let name := fullName (ssa.GPkgPath gbl) (ssa.GName gbl) in
  let* g := NewVar name typ in
  InitVar g (llssa.Null (llssa.TypeOf typ)).

Definition compileVArg (ret_ : list llssa.Expr) (b : llssa.Builder)
    (v : ssa.Value) : M (list llssa.Expr) :=
  match v with
  | ssa.Const None _ => ret ret_
  | _ => panic Todo
  end.

(** The loop of [compileValues]: [ret[i] = compileValue(b, vals[i])] for
    [i < n]; reading past the end of [vals] is a run-time error. *)
Fixpoint lowerPrefix (cv : ssa.Value → M llssa.Expr)
    (vals : list ssa.Value) (n : nat) {struct vals} : M (list llssa.Expr) :=
  match n with
  | O => ret []
  | S n' =>
      match vals with
      | [] => panic (RuntimeError IndexOutOfRange)
      | v :: vals' =>
          let* x := cv v in
          let* xs := lowerPrefix cv vals' n' in
          ret (x :: xs)
      end
  end.

(** [compileValues], with the resolver it calls as an argument so that
    [compileInstrAndValue] below can use it on the arguments of a call. *)
Definition compileValuesWith (cv : ssa.Value → M llssa.Expr)
    (b : llssa.Builder) (vals : list ssa.Value) (hasVArg : Z)
  : M (list llssa.Expr) :=
  let n := (Z.of_nat (length vals) - hasVArg)%Z in
  if (n <? 0)%Z then panic (RuntimeError MakesliceLen)
  else
    let* ret_ := lowerPrefix cv vals (Z.to_nat n) in
    if (0 <? hasVArg)%Z then
      match vals !! Z.to_nat n with
      | Some v => compileVArg ret_ b v
      | None => panic (RuntimeError IndexOutOfRange)
      end
    else ret ret_.

(** [p.bvals[iv] = ret; return ret] *)
Definition remember (a : addr) (e : llssa.Expr) : M llssa.Expr :=
  modify (λ p, setBvals (<[a := e]> (bvals p)) p) >> ret e.

Fixpoint compileInstrAndValue (b : llssa.Builder) (iv : ssa.InstrAndValue)
    {struct iv} : M llssa.Expr :=
  λ p,
  match bvals p !! ssa.addrOf iv with
  | Some v => Ok v p
  | None =>
      match iv with
      | ssa.Call self callee args =>
          let kind := funcKind callee in
          if (kind =? fnUnsafeInit)%Z then ret llssa.Nil
          else
            let* fn := compileValue b callee in
            let* args := compileValuesWith (compileValue b) b args kind in
            let* r := emit b (llssa.OCall fn args) in
            remember self r
      | ssa.BinOp self op X Y =>
          let* x := compileValue b X in
          let* y := compileValue b Y in
          let* r := emit b (llssa.OBinOp op x y) in
          remember self r
      | ssa.UnOp self op X =>
          let* x := compileValue b X in
          let* r := emit b (llssa.OUnOp op x) in
          remember self r
      | ssa.IndexAddr self X Index =>
          let* x := compileValue b X in
          let* idx := compileValue b Index in
          let* r := emit b (llssa.OIndexAddr x idx) in
          remember self r
      | ssa.Alloc self t heap =>
          let* r := emit b (llssa.OAlloc (llssa.TypeOf t) heap) in
          remember self r
      | ssa.IVOther _ k => panic (UnknownInstrAndValue k)
      end p
  end
with compileValue (b : llssa.Builder) (v : ssa.Value) {struct v}
  : M llssa.Expr :=
  match v with
  | ssa.VInstr iv => compileInstrAndValue b iv
  | ssa.Parameter_ self params =>
      match list_find (λ param, param = self) params with
      | Some (idx, _) => fnParam idx
      | None => panic (UnknownValue None)
      end
  | ssa.Function_ f => let* h := funcOf f in ret (llssa.FuncExpr h)
  | ssa.Global_ g => let* h := varOf g in ret (llssa.VarExpr h)
  | ssa.Const val typ => ret (llssa.ConstExpr val (llssa.TypeOf typ))
  | ssa.VOther k => panic (UnknownValue (Some k))
  end.

Definition compileValues (b : llssa.Builder) (vals : list ssa.Value)
    (hasVArg : Z) : M (list llssa.Expr) :=
  compileValuesWith (compileValue b) b vals hasVArg.

Definition compileInstr (b : llssa.Builder) (instr : ssa.Instruction)
  : M unit :=
  match instr with
  | ssa.IValue iv => compileInstrAndValue b iv >> ret tt
  | ssa.Store Addr Val =>
      let* ptr := compileValue b Addr in
      let* val := compileValue b Val in
      emit b (llssa.OStore ptr val) >> ret tt
  | ssa.Jump succs =>
      match succs !! 0%nat with
      | None => panic (RuntimeError IndexOutOfRange)
      | Some s0 =>
          let* jmpb := fnBlock s0 in
          emit b (llssa.OJump jmpb) >> ret tt
      end
  | ssa.Return Results =>
      let* results := forRange (compileValue b) Results in
      emit b (llssa.OReturn results) >> ret tt
  | ssa.If_ Cond succs =>
      let* cond := compileValue b Cond in
      match succs !! 0%nat with
      | None => panic (RuntimeError IndexOutOfRange)
      | Some s0 =>
          let* thenb := fnBlock s0 in
          match succs !! 1%nat with
          | None => panic (RuntimeError IndexOutOfRange)
          | Some s1 =>
              let* elseb := fnBlock s1 in
              emit b (llssa.OIf cond thenb elseb) >> ret tt
          end
      end
  | ssa.IOther k => panic (UnknownInstr k)
  end.

(** [for _, instr := range block.Instrs { p.compileInstr(b, instr) }] *)
Definition compileInstrs (b : llssa.Builder) (l : list ssa.Instruction)
  : M unit :=
  forRange (compileInstr b) l >> ret tt.

(** [fn := p.pkg.FuncOf("main.init"); b.Call(fn.Expr)] *)
Definition callMainInit (b : llssa.Builder) : M unit :=
  let* p := get in
  match llssa.FuncOf "main.init" (pkg p) with
  | None => panic (RuntimeError NilDereference)
  | Some h => emit b (llssa.OCall (llssa.FuncExpr h) []) >> ret tt
  end.

Definition compileBlock (b : llssa.Builder) (block : ssa.BasicBlock)
    (doInit : bool) : M nat :=
  let* ret_ := fnBlock (ssa.Index block) in
  SetBlock b ret_ >>
  modify (setBvals ∅) >>
  (if doInit then callMainInit b else ret tt) >>
  compileInstrs b (ssa.Instrs block) >>
  ret ret_.

(** [for i, block := range f.Blocks { p.compileBlock(b, block, i == 0 &&
    name == "main") }], from position [i] on. *)
Fixpoint compileBlocks (b : llssa.Builder) (name : string) (i : nat)
    (blocks : list ssa.BasicBlock) : M unit :=
  match blocks with
  | [] => ret tt
  | block :: rest =>
      compileBlock b block (Nat.eqb i 0 && String.eqb name "main") >>
      compileBlocks b name (S i) rest
  end.

(** The body of the closure registered by [compileFunc].  The deferred
    [p.fn = nil] runs on both return paths; on a panic its effect is lost
    with the context, since nothing recovers. *)
Definition runInit (d : deferred) : M unit :=
  modify (setFn (Some (d_fn d))) >>
  let nblk := length (ssa.Blocks (d_f d)) in
  if Nat.eqb nblk 0 then modify (setFn None)
  else
    MakeBlocks (d_fn d) nblk >>
    let b : llssa.Builder := d_fn d in
    compileBlocks b (d_name d) 0 (ssa.Blocks (d_f d)) >>
    modify (setFn None).

Definition compileFunc (f : ssa.Function) : M unit :=
  let name := funcName (ssa.Header f) in
  let* fn := NewFunc name (ssa.Sig (ssa.Header f)) in
  modify (λ p, setInits
    (inits p ++ [{| d_fn := fn; d_name := name; d_f := f |}]) p).

(** One turn of the member loop of [NewPackage]. *)
Definition compileMember (ret_ : llssa.Package) (member : ssa.Member)
  : M unit :=
  match member with
  | ssa.MFunction member =>
      match ssa.TypeParams member with
      | _ :: _ => ret tt          (* generic: continue *)
      | [] => compileFunc member
      end
  | ssa.MType member => compileType ret_ member
  | ssa.MGlobal member => compileGlobal member
  | ssa.MNamedConst _ => ret tt
  end.

(** The comparison handed to [sort.Slice]: [iPos < jPos]. *)
Definition less (x y : string * ssa.Member) : bool :=
  (ssa.MemberPos x.2 <? ssa.MemberPos y.2)%Z.

(** [sort.Slice(members, less)].  sort.Slice belongs to the Go library, and
    it is not stable: members with equal positions can come out in any
    order (beyond 12 elements it is a pattern-defeating quicksort).  The
    translator is verified for every procedure with the contract of
    sort.Slice: the result is a rearrangement of the slice in which no
    element is less than one that stands before it. *)
Variable sortSlice :
  list (string * ssa.Member) → list (string * ssa.Member).
Hypothesis sortSlice_perm : ∀ ms, sortSlice ms ≡ₚ ms.
Hypothesis sortSlice_less :
  ∀ ms, StronglySorted (λ x y, less y x = false) (sortSlice ms).

Definition newContext (ret_ : llssa.Package) : context :=
  {| pkg := ret_; fn := None; bvals := ∅; inits := []; cursor := None |}.

(** The two loops of [NewPackage] over an already sorted member list. *)
Definition declareMembers (ret_ : llssa.Package)
    (members : list (string * ssa.Member)) : M unit :=
  forRange (λ m, compileMember ret_ m.2) members >> ret tt.

Definition runInits : M unit :=
  let* p := get in
  forRange runInit (inits p) >> ret tt.

Definition NewPackage (pkg_ : ssa.Package) : panicValue + llssa.Package :=
  let members := sortSlice (ssa.Members pkg_) in
  let ret_ := llssa.NewPackage (ssa.PkgName pkg_) (ssa.PkgPkgPath pkg_) in
  match (declareMembers ret_ members >> runInits) (newContext ret_) with
  | Ok _ p => inr (pkg p)
  | Panic e => inl e
  end.

(** ** The vocabulary of the properties *)

(** The declaration a function handle stands for. *)
Definition decl (f : llssa.Function) : string * ssa.Signature :=
  (llssa.fname f, llssa.fsig f).

(** [grows P P']: [P'] has the declarations of [P], and every block of [P]
    with, possibly, more operations at its end. *)
Definition grows (P P' : llssa.Package) : Prop :=
  llssa.name P' = llssa.name P ∧ llssa.path P' = llssa.path P ∧
  llssa.vars P' = llssa.vars P ∧
  decl <$> llssa.funcs P' = decl <$> llssa.funcs P ∧
  ∀ h i ops, llssa.opsOf h i P = Some ops →
             ∃ more, llssa.opsOf h i P' = Some (ops ++ more).

(** [lowers p p']: what holds between the contexts before and after the
    lowering of a value or of an instruction. *)
Definition lowers (p p' : context) : Prop :=
  grows (pkg p) (pkg p') ∧ bvals p ⊆ bvals p' ∧
  cursor p' = cursor p ∧ fn p' = fn p ∧ inits p' = inits p.

(** [builds p p']: what holds across the construction of blocks and
    bodies. *)
Definition builds (p p' : context) : Prop :=
  grows (pkg p) (pkg p') ∧ inits p' = inits p.

(** A call that the classifier marks as the no-op initializer of package
    unsafe: the one instruction whose lowering stores nothing. *)
Definition isNoOpCall (iv : ssa.InstrAndValue) : bool :=
  match iv with
  | ssa.Call _ callee _ => (funcKind callee =? fnUnsafeInit)%Z
  | _ => false
  end.

(** The context in which the sweep over the instructions of a block
    starts when no initializer call is asked for. *)
Definition atBlock (block : ssa.BasicBlock) (p : context) : context :=
  setBvals ∅ (setCursor (Some (ssa.Index block)) p).

(** The order of the sorted member list. *)
Definition posLe (x y : string * ssa.Member) : Prop :=
  (ssa.MemberPos x.2 ≤ ssa.MemberPos y.2)%Z.

Definition isType (m : ssa.Member) : Prop :=
  match m with ssa.MType _ => True | _ => False end.

#[local] Instance isType_dec m : Decision (isType m).
Proof. destruct m; apply _. Defined.

(** A function member with type parameters. *)
Definition generic (m : ssa.Member) : Prop :=
  match m with ssa.MFunction f => ssa.TypeParams f ≠ [] | _ => False end.

#[local] Instance generic_dec m : Decision (generic m).
Proof. destruct m; apply _. Defined.

(** The function members that are compiled, and the global members. *)
Definition funcsOf (ms : list (string * ssa.Member)) : list ssa.Function :=
  omap (λ m, match m.2 with
             | ssa.MFunction f =>
                 match ssa.TypeParams f with [] => Some f | _ => None end
             | _ => None
             end) ms.

Definition globalsOf (ms : list (string * ssa.Member)) : list ssa.Global :=
  omap (λ m, match m.2 with ssa.MGlobal g => Some g | _ => None end) ms.

(** What [compileFunc] and [compileGlobal] declare and register. *)
Definition declFunc (f : ssa.Function) : llssa.Function :=
  {| llssa.fname := funcName (ssa.Header f);
     llssa.fsig := ssa.Sig (ssa.Header f); llssa.blocks := [] |}.

Definition declVar (g : ssa.Global) : llssa.Global :=
  {| llssa.gname := fullName (ssa.GPkgPath g) (ssa.GName g);
     llssa.gtyp := llssa.TypeOf (ssa.GType g);
     llssa.ginit := Some (llssa.Null (llssa.TypeOf (ssa.GType g))) |}.

Definition closure (h : nat) (f : ssa.Function) : deferred :=
  {| d_fn := h; d_name := funcName (ssa.Header f); d_f := f |}.

(** The context after the declare loop has gone over [ms], none of which
    is a type, starting in [p]. *)
Definition declared (ms : list (string * ssa.Member)) (p : context)
  : context :=
  {| pkg :=
       {| llssa.name := llssa.name (pkg p); llssa.path := llssa.path (pkg p);
          llssa.funcs := llssa.funcs (pkg p) ++ (declFunc <$> funcsOf ms);
          llssa.vars := llssa.vars (pkg p) ++ (declVar <$> globalsOf ms) |};
     fn := fn p; bvals := bvals p;
     inits := inits p ++
              imap (λ k, closure (length (llssa.funcs (pkg p)) + k))
                   (funcsOf ms);
     cursor := cursor p |}.

(** The context in which the declare loop of [NewPackage] starts. *)
Definition startContext (pkg_ : ssa.Package) : context :=
  newContext (llssa.NewPackage (ssa.PkgName pkg_) (ssa.PkgPkgPath pkg_)).

(** A function member that is compiled, a global member. *)
Definition compiled (x : string * ssa.Member) : Prop :=
  match x.2 with ssa.MFunction f => ssa.TypeParams f = [] | _ => False end.

Definition isGlobal (x : string * ssa.Member) : Prop :=
  match x.2 with ssa.MGlobal _ => True | _ => False end.

#[local] Instance compiled_dec x : Decision (compiled x).
Proof. destruct x as [? []]; apply _. Defined.

#[local] Instance isGlobal_dec x : Decision (isGlobal x).
Proof. destruct x as [? []]; apply _. Defined.

(** The package without its generic function members. *)
Definition dropGenerics (pkg_ : ssa.Package) : ssa.Package :=
  {| ssa.PkgName := ssa.PkgName pkg_; ssa.PkgPkgPath := ssa.PkgPkgPath pkg_;
     ssa.Members := filter (λ m, ¬ generic m.2) (ssa.Members pkg_) |}.

(** The addresses under which the lowering of a value can store a result:
    those of the instructions in it that have a lowering rule. *)
Fixpoint storedByValue (v : ssa.Value) : gset addr :=
  match v with
  | ssa.VInstr iv => storedBy iv
  | _ => ∅
  end
with storedBy (iv : ssa.InstrAndValue) : gset addr :=
  match iv with
  | ssa.Call a callee args =>
      {[a]} ∪ storedByValue callee ∪ ⋃ (storedByValue <$> args)
  | ssa.BinOp a _ X Y => {[a]} ∪ storedByValue X ∪ storedByValue Y
  | ssa.UnOp a _ X => {[a]} ∪ storedByValue X
  | ssa.IndexAddr a X J => {[a]} ∪ storedByValue X ∪ storedByValue J
  | ssa.Alloc a _ _ => {[a]}
  | ssa.IVOther _ _ => ∅
  end.

Definition storedByInstr (instr : ssa.Instruction) : gset addr :=
  match instr with
  | ssa.IValue iv => storedBy iv
  | ssa.Store A V => storedByValue A ∪ storedByValue V
  | ssa.Return Rs => ⋃ (storedByValue <$> Rs)
  | ssa.If_ C _ => storedByValue C
  | ssa.Jump _ | ssa.IOther _ => ∅
  end.

(** The same for a block: the addresses of the instructions with a rule
    that stand in the block or among the operands of its instructions, in
    whatever block these operands stand themselves. *)
Definition storedInBlock (block : ssa.BasicBlock) : gset addr :=
  ⋃ (storedByInstr <$> ssa.Instrs block).

(** An instruction without lowering rule, standing in [block] under an
    address of its own. *)
Definition unsupportedIn (block : ssa.BasicBlock) (instr : ssa.Instruction)
  : Prop :=
  match instr with
  | ssa.IOther _ => True
  | ssa.IValue (ssa.IVOther a _) => a ∉ storedInBlock block
  | _ => False
  end.

(** [within S p p']: the cache has grown by addresses of [S] only. *)
Definition within (S : gset addr) (p p' : context) : Prop :=
  dom (bvals p') ⊆ dom (bvals p) ∪ S.

(** The number of blocks of every declared function. *)
Definition shape (P : llssa.Package) : list nat :=
  (λ f, length (llssa.blocks f)) <$> llssa.funcs P.

(** [appendsAt b p p']: from [p] to [p'] operations were appended to the
    insertion block of builder [b]; the declarations, the number of blocks
    of every function and the operations of every other block are the
    same, as are [fn], [inits] and the insertion block. *)
Definition appendsAt (b : llssa.Builder) (p p' : context) : Prop :=
  cursor p' = cursor p ∧ fn p' = fn p ∧ inits p' = inits p ∧
  llssa.name (pkg p') = llssa.name (pkg p) ∧
  llssa.path (pkg p') = llssa.path (pkg p) ∧
  llssa.vars (pkg p') = llssa.vars (pkg p) ∧
  decl <$> llssa.funcs (pkg p') = decl <$> llssa.funcs (pkg p) ∧
  shape (pkg p') = shape (pkg p) ∧
  ∀ h i, h ≠ b ∨ cursor p ≠ Some i →
         llssa.opsOf h i (pkg p') = llssa.opsOf h i (pkg p).

(** The operation that the lowering rule of an instruction emits for the
    instruction itself. *)
Definition lowersTo (iv : ssa.InstrAndValue) (o : llssa.Op) : Prop :=
  match iv, o with
  | ssa.Call _ _ _, llssa.OCall _ _ => True
  | ssa.BinOp _ op _ _, llssa.OBinOp op' _ _ => op' = op
  | ssa.UnOp _ op _, llssa.OUnOp op' _ => op' = op
  | ssa.IndexAddr _ _ _, llssa.OIndexAddr _ _ => True
  | ssa.Alloc _ t heap, llssa.OAlloc t' heap' =>
      t' = llssa.TypeOf t ∧ heap' = heap
  | _, _ => False
  end.

(** The same for the instructions that are not values: a store, a jump to
    the first successor, a return of as many results as the source has, a
    branch to the first two successors. *)
Definition emitsFor (instr : ssa.Instruction) (o : llssa.Op) : Prop :=
  match instr, o with
  | ssa.Store _ _, llssa.OStore _ _ => True
  | ssa.Jump succs, llssa.OJump blk => succs !! 0%nat = Some blk
  | ssa.Return Rs, llssa.OReturn es => length es = length Rs
  | ssa.If_ _ succs, llssa.OIf _ thenb elseb =>
      succs !! 0%nat = Some thenb ∧ succs !! 1%nat = Some elseb
  | _, _ => False
  end.

(** A member that is a named constant. *)
Definition isConst (m : ssa.Member) : Prop :=
  match m with ssa.MNamedConst _ => True | _ => False end.

#[local] Instance isConst_dec m : Decision (isConst m).
Proof. destruct m; apply _. Defined.

(** The package without its named constants. *)
Definition dropConsts (pkg_ : ssa.Package) : ssa.Package :=
  {| ssa.PkgName := ssa.PkgName pkg_; ssa.PkgPkgPath := ssa.PkgPkgPath pkg_;
     ssa.Members := filter (λ m, ¬ isConst m.2) (ssa.Members pkg_) |}.

(** The blocks an operation transfers control to. *)
Definition branchTargets (o : llssa.Op) : list nat :=
  match o with
  | llssa.OJump blk => [blk]
  | llssa.OIf _ thenb elseb => [thenb; elseb]
  | _ => []
  end.

(** [keeps Inv p p']: [Inv] holds in [p'] when it held in [p]. *)
Definition keeps (Inv : context → Prop) : relation context :=
  λ p p', Inv p → Inv p'.

(** Every expression in the cache is the handle of an operation that
    stands in the insertion block of builder [b]. *)
Definition cacheValid (b : llssa.Builder) (p : context) : Prop :=
  ∀ a e, bvals p !! a = Some e →
    ∃ i k ops, cursor p = Some i ∧ e = llssa.Reg b i k ∧
               llssa.opsOf b i (pkg p) = Some ops ∧ (k < length ops)%nat.

(** [buildsIn h p p']: from [p] to [p'] operations were written to blocks
    of function [h] only, and no block was added. *)
Definition buildsIn (h : nat) (p p' : context) : Prop :=
  fn p' = fn p ∧ inits p' = inits p ∧
  llssa.name (pkg p') = llssa.name (pkg p) ∧
  llssa.path (pkg p') = llssa.path (pkg p) ∧
  llssa.vars (pkg p') = llssa.vars (pkg p) ∧
  decl <$> llssa.funcs (pkg p') = decl <$> llssa.funcs (pkg p) ∧
  shape (pkg p') = shape (pkg p) ∧
  ∀ h' i, h' ≠ h → llssa.opsOf h' i (pkg p') = llssa.opsOf h' i (pkg p).

(** A value without lowering rule: a value that is no instruction, or an
    instruction that is a value, of a kind outside the type switches. *)
Definition unsupported (v : ssa.Value) : Prop :=
  match v with
  | ssa.VOther _ | ssa.VInstr (ssa.IVOther _ _) => True
  | _ => False
  end.

(** The values that the lowering of [v] comes to when nothing is cached:
    [v] itself and, for an instruction with a rule, what its operands come
    to, in the order of the rule.  A call of the no-op initializer comes
    to none of its operands; the last argument of a variadic call, which
    goes to variadic packing, is counted in. *)
Fixpoint reached (v : ssa.Value) : list ssa.Value :=
  v :: match v with
       | ssa.VInstr iv => reachedBy iv
       | _ => []
       end
with reachedBy (iv : ssa.InstrAndValue) : list ssa.Value :=
  match iv with
  | ssa.Call _ callee args =>
      if (funcKind callee =? fnUnsafeInit)%Z then []
      else reached callee ++ (args ≫= reached)
  | ssa.BinOp _ _ X Y => reached X ++ reached Y
  | ssa.UnOp _ _ X => reached X
  | ssa.IndexAddr _ X J => reached X ++ reached J
  | ssa.Alloc _ _ _ | ssa.IVOther _ _ => []
  end.

Definition reachedByInstr (instr : ssa.Instruction) : list ssa.Value :=
  match instr with
  | ssa.IValue iv => reached (ssa.VInstr iv)
  | ssa.Store A V => reached A ++ reached V
  | ssa.Return Rs => Rs ≫= reached
  | ssa.If_ C _ => reached C
  | ssa.Jump _ | ssa.IOther _ => []
  end.

Definition reachedInBlock (block : ssa.BasicBlock) : list ssa.Value :=
  ssa.Instrs block ≫= reachedByInstr.

(** An instruction without lowering rule, or one whose lowering comes to
    a value without lowering rule. *)
Definition usesUnsupported (instr : ssa.Instruction) : Prop :=
  match instr with
  | ssa.IOther _ => True
  | _ => Exists unsupported (reachedByInstr instr)
  end.

(** Addresses identify instructions, as pointers do in Go: among the
    values of [l], two instructions with the same address are the same
    instruction. *)
Definition identified (l : list ssa.Value) : Prop :=
  ∀ iv1 iv2, ssa.VInstr iv1 ∈ l → ssa.VInstr iv2 ∈ l →
             ssa.addrOf iv1 = ssa.addrOf iv2 → iv1 = iv2.

(** The lowering of [v] comes to no value without lowering rule. *)
Definition clean (v : ssa.Value) : Prop :=
  Forall (λ u, ¬ unsupported u) (reached v).

Definition cleanInstr (instr : ssa.Instruction) : Prop :=
  (∀ k, instr ≠ ssa.IOther k) ∧
  Forall (λ u, ¬ unsupported u) (reachedByInstr instr).

(** Every address in the cache is the address of a [clean] instruction
    of [l]. *)
Definition cacheClean (l : list ssa.Value) (p : context) : Prop :=
  ∀ a, is_Some (bvals p !! a) →
       ∃ iv, ssa.VInstr iv ∈ l ∧ ssa.addrOf iv = a ∧ clean (ssa.VInstr iv).

(** What a panic value that names a kind says of the values [l] that
    lowering came to: a value of that kind is among them.  No value makes
    the panic of an instruction that is no value. *)
Definition reportedIn (e : panicValue) (l : list ssa.Value) : Prop :=
  match e with
  | UnknownValue (Some k) => ssa.VOther k ∈ l
  | UnknownInstrAndValue k => ∃ a, ssa.VInstr (ssa.IVOther a k) ∈ l
  | UnknownInstr _ => False
  | _ => True
  end.

(** The same of an instruction and of a block: the kind named is the kind
    of the instruction, or of a value its lowering comes to. *)
Definition reportedInInstr (e : panicValue) (instr : ssa.Instruction)
  : Prop :=
  match e with
  | UnknownInstr k => instr = ssa.IOther k
  | _ => reportedIn e (reachedByInstr instr)
  end.

Definition reportedInBlock (e : panicValue) (block : ssa.BasicBlock)
  : Prop :=
  match e with
  | UnknownInstr k => ssa.IOther k ∈ ssa.Instrs block
  | _ => reportedIn e (reachedInBlock block)
  end.

(** * Properties *)

(** ** Reasoning about context computations *)

Lemma bind_Ok {A B} (m : M A) (k : A → M B) p b p' :
  bind m k p = Ok b p' ↔ ∃ a p1, m p = Ok a p1 ∧ k a p1 = Ok b p'.
Proof.
  unfold bind. destruct (m p) as [a p1|e]; split.
  - eauto.
  - by intros (? & ? & [= -> ->] & ?).
  - done.
  - by intros (? & ? & ? & ?).
Qed.

Lemma bind_of_Ok {A B} (m : M A) (k : A → M B) p a p1 :
  m p = Ok a p1 → bind m k p = k a p1.
Proof. unfold bind. by intros ->. Qed.

Lemma bind_of_Panic {A B} (m : M A) (k : A → M B) p e :
  m p = Panic e → bind m k p = Panic e.
Proof. unfold bind. by intros ->. Qed.

Lemma bind_Panic {A B} (m : M A) (k : A → M B) p e :
  bind m k p = Panic e ↔
  m p = Panic e ∨ ∃ a p1, m p = Ok a p1 ∧ k a p1 = Panic e.
Proof.
  unfold bind. destruct (m p) as [a p1|e']; split.
  - intros H. right. eauto.
  - intros [?|(? & ? & ? & ?)]; [done|]. by simplify_eq.
  - intros [= ->]. by left.
  - intros [[= ->]|(? & ? & ? & ?)]; [done|]. by simplify_eq.
Qed.

(** Take a successful run apart into the runs of its parts. *)
Ltac inv_M :=
  repeat match goal with
    | H : bind _ _ _ = Ok _ _ |- _ =>
        apply bind_Ok in H; destruct H as (? & ? & ? & H)
    | H : ret _ _ = Ok _ _ |- _ => unfold ret in H; simplify_eq
    | H : get _ = Ok _ _ |- _ => unfold get in H; simplify_eq
    | H : modify _ _ = Ok _ _ |- _ => unfold modify in H; simplify_eq
    | H : SetBlock _ _ _ = Ok _ _ |- _ => unfold SetBlock in H
    | H : MakeBlocks _ _ _ = Ok _ _ |- _ => unfold MakeBlocks in H
    | H : panic _ _ = Ok _ _ |- _ => discriminate H
    | H : Panic _ = Ok _ _ |- _ => discriminate H
    | H : Ok _ _ = Ok _ _ |- _ => simplify_eq
    end.

Lemma forRange_app {A B} (f : A → M B) l1 l2 p :
  forRange f (l1 ++ l2) p =
  (let* ys1 := forRange f l1 in
   let* ys2 := forRange f l2 in ret (ys1 ++ ys2)) p.
Proof.
  revert p. induction l1 as [|x l1 IH]; intros p; simpl.
  - unfold bind, ret. by destruct (forRange f l2 p).
  - unfold bind, ret in *. destruct (f x p) as [y p1|e]; [|done].
    rewrite IH. destruct (forRange f l1 p1) as [ys1 p2|]; [|done].
    by destruct (forRange f l2 p2).
Qed.

Lemma forRange_length {A B} (f : A → M B) l p ys p' :
  forRange f l p = Ok ys p' → length ys = length l.
Proof.
  revert p ys. induction l as [|x l IH]; intros p ys H; simpl in H; inv_M.
  - done.
  - simpl. f_equal. eauto.
Qed.

(** A run of a loop that returns has run its body on every element, each
    time in a context reached through the earlier turns. *)
Lemma forRange_Ok_elem {A B} (Inv : context → Prop) (f : A → M B) l :
  (∀ x p y p', x ∈ l → Inv p → f x p = Ok y p' → Inv p') →
  ∀ p ys p' x, Inv p → forRange f l p = Ok ys p' → x ∈ l →
  ∃ p1 y p2, Inv p1 ∧ f x p1 = Ok y p2.
Proof.
  induction l as [|x0 l IH]; intros Hstep p ys p' x HI H Hx.
  - by apply elem_of_nil in Hx.
  - simpl in H. inv_M. apply elem_of_cons in Hx as [->|Hx].
    + eauto.
    + eapply IH; [| |done..].
      * intros ??????. eapply Hstep; [by right|done..].
      * eapply Hstep; [by left|done..].
Qed.

(** A relation between contexts that holds across every turn holds across
    the loop. *)
Lemma forRange_preserves {A B} (R : relation context) `{!PreOrder R}
    (f : A → M B) l :
  (∀ x p y p', x ∈ l → f x p = Ok y p' → R p p') →
  ∀ p ys p', forRange f l p = Ok ys p' → R p p'.
Proof.
  induction l as [|x0 l IH]; intros Hstep p ys p' H; simpl in H; inv_M.
  - done.
  - match goal with
    | H1 : f _ _ = Ok _ _, H2 : forRange _ _ _ = Ok _ _ |- _ =>
        apply Hstep in H1; [|by left];
        apply IH in H2; [by etrans|]
    end.
    intros ?????. apply Hstep. by right.
Qed.

(** A loop panics with the panic of the first turn that panics. *)
Lemma forRange_Panic {A B} (f : A → M B) l p e :
  forRange f l p = Panic e ↔
  ∃ l1 x l2 ys p1, l = l1 ++ x :: l2 ∧ forRange f l1 p = Ok ys p1 ∧
                   f x p1 = Panic e.
Proof.
  split.
  - revert p. induction l as [|x l IH]; intros p; simpl; [done|].
    unfold bind, ret. destruct (f x p) as [y p1|e'] eqn:Hx.
    + destruct (forRange f l p1) as [ys p2|e''] eqn:Hl; [done|].
      intros [= ->].
      destruct (IH _ Hl) as (l1 & x0 & l2 & ys & p0 & -> & Hrun & Hf).
      exists (x :: l1), x0, l2, (y :: ys), p0.
      split_and!; [done| |done]. simpl. unfold bind, ret.
      by rewrite Hx, Hrun.
    + intros [= ->]. by exists [], x, l, [], p.
  - intros (l1 & x & l2 & ys & p1 & -> & Hrun & Hf).
    rewrite forRange_app, (bind_of_Ok _ _ _ _ _ Hrun).
    apply bind_of_Panic. simpl. by apply bind_of_Panic.
Qed.

(** ** Induction over values, through the arguments of calls *)
Section value_ind.
Variable P : ssa.Value → Prop.
Variable Q : ssa.InstrAndValue → Prop.
Hypothesis HInstr : ∀ iv, Q iv → P (ssa.VInstr iv).
Hypothesis HParameter : ∀ a ps, P (ssa.Parameter_ a ps).
Hypothesis HFunction : ∀ f, P (ssa.Function_ f).
Hypothesis HGlobal : ∀ g, P (ssa.Global_ g).
Hypothesis HConst : ∀ v t, P (ssa.Const v t).
Hypothesis HOther : ∀ k, P (ssa.VOther k).
Hypothesis HCall : ∀ a callee args,
  P callee → Forall P args → Q (ssa.Call a callee args).
Hypothesis HBinOp : ∀ a op X Y, P X → P Y → Q (ssa.BinOp a op X Y).
Hypothesis HUnOp : ∀ a op X, P X → Q (ssa.UnOp a op X).
Hypothesis HIndexAddr : ∀ a X J, P X → P J → Q (ssa.IndexAddr a X J).
Hypothesis HAlloc : ∀ a t h, Q (ssa.Alloc a t h).
Hypothesis HIVOther : ∀ a k, Q (ssa.IVOther a k).

Fixpoint Value_nested_ind (v : ssa.Value) : P v :=
  match v with
  | ssa.VInstr iv => HInstr iv (InstrAndValue_nested_ind iv)
  | ssa.Parameter_ a ps => HParameter a ps
  | ssa.Function_ f => HFunction f
  | ssa.Global_ g => HGlobal g
  | ssa.Const v t => HConst v t
  | ssa.VOther k => HOther k
  end
with InstrAndValue_nested_ind (iv : ssa.InstrAndValue) : Q iv :=
  match iv with
  | ssa.Call a callee args =>
      HCall a callee args (Value_nested_ind callee)
        ((fix go (l : list ssa.Value) : Forall P l :=
            match l with
            | [] => Forall_nil_2 P
            | x :: l' => Forall_cons_2 P x l' (Value_nested_ind x) (go l')
            end) args)
  | ssa.BinOp a op X Y =>
      HBinOp a op X Y (Value_nested_ind X) (Value_nested_ind Y)
  | ssa.UnOp a op X => HUnOp a op X (Value_nested_ind X)
  | ssa.IndexAddr a X J =>
      HIndexAddr a X J (Value_nested_ind X) (Value_nested_ind J)
  | ssa.Alloc a t h => HAlloc a t h
  | ssa.IVOther a k => HIVOther a k
  end.

Lemma Value_InstrAndValue_ind : (∀ v, P v) ∧ (∀ iv, Q iv).
Proof. split; [apply Value_nested_ind | apply InstrAndValue_nested_ind]. Qed.
End value_ind.

(** ** The function classifier *)

Lemma fnKinds_distinct :
  fnNormal ≠ fnHasVArg ∧ fnNormal ≠ fnUnsafeInit ∧ fnHasVArg ≠ fnUnsafeInit.
Proof. by repeat split. Qed.

Lemma funcKind_Function fn :
  funcKind (ssa.Function_ fn) =
  match ssa.Recv (ssa.Sig fn), last (ssa.Params (ssa.Sig fn)) with
  | Some _, _ => fnNormal
  | None, None =>
      if String.eqb (ssa.Name fn) "init" && String.eqb (ssa.PkgPath fn) "unsafe"
      then fnUnsafeInit else fnNormal
  | None, Some l =>
      if String.eqb (ssa.VarName l) NameValist then fnHasVArg else fnNormal
  end.
Proof.
  unfold funcKind. destruct (ssa.Recv _); [done|].
  rewrite last_lookup.
  destruct (ssa.Params (ssa.Sig fn)) as [|x l] eqn:E; [done|].
  replace (Init.Nat.pred (length (x :: l))) with (length (x :: l) - 1)%nat
    by (simpl; lia).
  change (length (x :: l) =? 0)%nat with false. cbv iota.
  destruct ((x :: l) !! _) eqn:E'; [done|].
  apply lookup_ge_None in E'. simpl in E'. lia.
Qed.

(** C5.  The classifier returns one of the three kinds; it returns
    UnsafeNoOpInit exactly for a receiver-less function without parameters
    named init of package unsafe, HasTrailingVariadic exactly for a
    receiver-less function whose last parameter bears the reserved name, and
    Normal for methods and for every value that is not a function. *)
Theorem funcKind_classifies (vfn : ssa.Value) :
  let k := funcKind vfn in
  (k = fnNormal ∨ k = fnHasVArg ∨ k = fnUnsafeInit) ∧
  (k = fnUnsafeInit ↔
     ∃ fn, vfn = ssa.Function_ fn ∧ ssa.Recv (ssa.Sig fn) = None ∧
           ssa.Params (ssa.Sig fn) = [] ∧
           ssa.Name fn = "init"%string ∧ ssa.PkgPath fn = "unsafe"%string) ∧
  (k = fnHasVArg ↔
     ∃ fn l, vfn = ssa.Function_ fn ∧ ssa.Recv (ssa.Sig fn) = None ∧
             last (ssa.Params (ssa.Sig fn)) = Some l ∧
             ssa.VarName l = NameValist) ∧
  ((∀ fn, vfn ≠ ssa.Function_ fn) → k = fnNormal) ∧
  (∀ fn, vfn = ssa.Function_ fn → ssa.Recv (ssa.Sig fn) ≠ None →
         k = fnNormal).
Proof.
  intros k. subst k.
  destruct vfn as [iv|a ps|fn|g|v t|o];
    try (cbn [funcKind]; split_and!;
         [by left | by split; [|intros (? & ? & ?)]
         | by split; [|intros (? & ? & ? & ?)] | done | done ]).
  rewrite funcKind_Function.
  destruct (ssa.Recv (ssa.Sig fn)) as [r|] eqn:Er.
  { split_and!; [by left | split; [done|] | split; [done|] | done | done].
    - intros (fn' & [= <-] & E & _). congruence.
    - intros (fn' & l & [= <-] & E & _). congruence. }
  destruct (last (ssa.Params (ssa.Sig fn))) as [l|] eqn:El.
  - destruct (String.eqb_spec (ssa.VarName l) NameValist) as [En|En].
    + split_and!; [by right; left | split; [done|] | split | | ].
      * intros (fn' & [= <-] & _ & E & _). rewrite E in El. done.
      * intros _. by exists fn, l.
      * done.
      * intros H. by destruct (H fn).
      * intros fn' [= <-] H. done.
    + split_and!; [by left | split; [done|] | split; [done|] | done | done].
      * intros (fn' & [= <-] & _ & E & _). rewrite E in El. done.
      * intros (fn' & l' & [= <-] & _ & E & E'). congruence.
  - apply last_None in El.
    destruct (String.eqb_spec (ssa.Name fn) "init") as [En|En];
      [destruct (String.eqb_spec (ssa.PkgPath fn) "unsafe") as [Ep|Ep]|];
      cbn [andb].
    + split_and!; [by right; right | split | split; [done|] | | ].
      * intros _. by exists fn.
      * done.
      * intros (fn' & l' & [= <-] & _ & E & _). rewrite El in E. done.
      * intros H. by destruct (H fn).
      * intros fn' [= <-] H. done.
    + split_and!; [by left | split; [done|] | split; [done|] | done | done].
      * intros (fn' & [= <-] & _ & _ & _ & E). done.
      * intros (fn' & l' & [= <-] & _ & E & _). rewrite El in E. done.
    + split_and!; [by left | split; [done|] | split; [done|] | done | done].
      * intros (fn' & [= <-] & _ & _ & E & _). done.
      * intros (fn' & l' & [= <-] & _ & E & _). rewrite El in E. done.
Qed.

(** *** The equations of [compileInstrAndValue] *)

Lemma compileInstrAndValue_cached b iv p e :
    bvals p !! ssa.addrOf iv = Some e → compileInstrAndValue b iv p = Ok e p.
Proof. intros H. destruct iv; simpl in *; by rewrite H. Qed.

Lemma compileInstrAndValue_Call b self callee args p :
    bvals p !! self = None →
    compileInstrAndValue b (ssa.Call self callee args) p =
    (if (funcKind callee =? fnUnsafeInit)%Z then ret llssa.Nil
     else
       let* fn := compileValue b callee in
       let* args := compileValues b args (funcKind callee) in
       let* r := emit b (llssa.OCall fn args) in
       remember self r) p.
Proof. intros H. simpl. by rewrite H. Qed.

Lemma compileInstrAndValue_BinOp b self op X Y p :
    bvals p !! self = None →
    compileInstrAndValue b (ssa.BinOp self op X Y) p =
    (let* x := compileValue b X in
     let* y := compileValue b Y in
     let* r := emit b (llssa.OBinOp op x y) in
     remember self r) p.
Proof. intros H. simpl. by rewrite H. Qed.

Lemma compileInstrAndValue_UnOp b self op X p :
    bvals p !! self = None →
    compileInstrAndValue b (ssa.UnOp self op X) p =
    (let* x := compileValue b X in
     let* r := emit b (llssa.OUnOp op x) in
     remember self r) p.
Proof. intros H. simpl. by rewrite H. Qed.

Lemma compileInstrAndValue_IndexAddr b self X J p :
    bvals p !! self = None →
    compileInstrAndValue b (ssa.IndexAddr self X J) p =
    (let* x := compileValue b X in
     let* idx := compileValue b J in
     let* r := emit b (llssa.OIndexAddr x idx) in
     remember self r) p.
Proof. intros H. simpl. by rewrite H. Qed.

Lemma compileInstrAndValue_Alloc b self t heap p :
    bvals p !! self = None →
    compileInstrAndValue b (ssa.Alloc self t heap) p =
    (let* r := emit b (llssa.OAlloc (llssa.TypeOf t) heap) in
     remember self r) p.
Proof. intros H. simpl. by rewrite H. Qed.

Lemma compileInstrAndValue_IVOther b self k p :
    bvals p !! self = None →
    compileInstrAndValue b (ssa.IVOther self k) p =
    Panic (UnknownInstrAndValue k).
Proof. intros H. simpl. by rewrite H. Qed.

(** *** Argument lists *)

Lemma lowerPrefix_app cv (prefix rest : list ssa.Value) p :
    lowerPrefix cv (prefix ++ rest) (length prefix) p = forRange cv prefix p.
Proof.
    revert p. induction prefix as [|v prefix IH]; intros p;
      [by destruct rest|].
    simpl. unfold bind. destruct (cv v p); [|done]. by rewrite IH.
Qed.

Lemma compileValues_snoc b (prefix : list ssa.Value) last p :
    compileValues b (prefix ++ [last]) fnHasVArg p =
    (let* ret_ := forRange (compileValue b) prefix in
     compileVArg ret_ b last) p.
Proof.
    unfold compileValues, compileValuesWith, fnHasVArg.
    rewrite length_app.
    replace (Z.of_nat (length prefix + length [last]) - 1)%Z
      with (Z.of_nat (length prefix)) by (simpl; lia).
    destruct (Z.ltb_spec (Z.of_nat (length prefix)) 0); [lia|].
    rewrite Nat2Z.id. change (0 <? 1)%Z with true. cbv iota.
    unfold bind. rewrite lowerPrefix_app.
    destruct (forRange _ prefix p); [|done].
    by rewrite list_lookup_middle.
Qed.

Lemma compileValues_normal b (vals : list ssa.Value) p :
  compileValues b vals fnNormal p = forRange (compileValue b) vals p.
Proof.
  unfold compileValues, compileValuesWith, fnNormal.
  rewrite Z.sub_0_r.
  destruct (Z.ltb_spec (Z.of_nat (length vals)) 0); [lia|].
  rewrite Nat2Z.id. change (0 <? 0)%Z with false. cbv iota.
  unfold bind, ret. rewrite <-(app_nil_r vals) at 1. rewrite lowerPrefix_app.
  by destruct (forRange _ vals p).
Qed.

(** C10.  For a callee classified HasTrailingVariadic the prefix length
      is the argument count minus the tag value 1: the arguments before the
      last are lowered in order and the last one alone goes to variadic
      packing; on an empty argument list the allocation of the result
      slice fails with a negative length. *)
Theorem compileValues_trailing_variadic (b : llssa.Builder) :
    fnHasVArg = 1%Z ∧
    (∀ p, compileValues b [] fnHasVArg p = Panic (RuntimeError MakesliceLen)) ∧
    (∀ (prefix : list ssa.Value) last p,
       compileValues b (prefix ++ [last]) fnHasVArg p =
       (let* ret_ := forRange (compileValue b) prefix in
        compileVArg ret_ b last) p).
Proof.
    split_and!; [reflexivity | intros p; reflexivity | apply compileValues_snoc].
Qed.
(** *** The recording builder *)

Lemma opsOf_appendOp h i o P h' i' :
  llssa.opsOf h' i' (llssa.appendOp h i o P) =
  (if decide (h = h' ∧ i = i') then (λ ops, ops ++ [o]) else id)
    <$> llssa.opsOf h' i' P.
Proof.
  unfold llssa.opsOf, llssa.appendOp. cbn [llssa.funcs llssa.withFuncs].
  rewrite list_lookup_alter.
  destruct (decide (h = h')) as [->|Hh].
  - destruct (llssa.funcs P !! h') as [f|]; [|by case_decide].
    cbn. rewrite list_lookup_alter.
    destruct (decide (i = i')) as [->|Hi].
    + rewrite decide_True by done. done.
    + rewrite decide_False by (intros [_ ?]; done).
      by destruct (llssa.blocks f !! i').
  - rewrite decide_False by (intros [? _]; done).
    by destruct (llssa.funcs P !! h' ≫= _).
Qed.

Lemma opsOf_appendOp_eq h i o P ops :
  llssa.opsOf h i P = Some ops →
  llssa.opsOf h i (llssa.appendOp h i o P) = Some (ops ++ [o]).
Proof. intros H. rewrite opsOf_appendOp, H. by rewrite decide_True. Qed.

Lemma emit_Ok b o p r p' :
  emit b o p = Ok r p' ↔
  ∃ i ops, cursor p = Some i ∧ llssa.opsOf b i (pkg p) = Some ops ∧
           r = llssa.Reg b i (length ops) ∧
           p' = setPkg (llssa.appendOp b i o (pkg p)) p.
Proof.
  unfold emit. destruct (cursor p) as [i|]; [|split; [done|]].
  - destruct (llssa.opsOf b i (pkg p)) as [ops|] eqn:E; split.
    + intros [= <- <-]. by exists i, ops.
    + intros (? & ? & [= <-] & ? & -> & ->). rewrite E in *.
      by simplify_eq.
    + done.
    + intros (? & ? & [= <-] & ? & _). congruence.
  - by intros (? & ? & ? & _).
Qed.

(** What [emit] adds is the last operation of the insertion block. *)
Lemma emit_appends b o p r p' :
  emit b o p = Ok r p' →
  ∃ i ops, cursor p = Some i ∧ llssa.opsOf b i (pkg p) = Some ops ∧
           llssa.opsOf b i (pkg p') = Some (ops ++ [o]) ∧
           bvals p' = bvals p ∧ cursor p' = cursor p ∧ fn p' = fn p ∧
           inits p' = inits p.
Proof.
  intros (i & ops & Hc & Hops & -> & ->)%emit_Ok. exists i, ops.
  split_and!; try done. cbn. by apply opsOf_appendOp_eq.
Qed.

(** *** Variadic packing *)

Lemma compileVArg_absent ret_ b t p :
  compileVArg ret_ b (ssa.Const None t) p = Ok ret_ p.
Proof. done. Qed.

Lemma compileVArg_todo ret_ b v p :
  (∀ t, v ≠ ssa.Const None t) → compileVArg ret_ b v p = Panic Todo.
Proof.
  intros H. destruct v as [| | | |[c|] t|]; try done. by destruct (H t).
Qed.

(** C4.  A call to a callee classified HasTrailingVariadic whose last
    argument is a constant without value emits a call whose arguments are
    exactly the lowered arguments before the last, as many as there are;
    with any other last argument the lowering panics, and with "todo" once
    callee and prefix have been lowered. *)
Theorem call_trailing_variadic b self callee (prefix : list ssa.Value)
    last p :
  funcKind callee = fnHasVArg →
  bvals p !! self = None →
  (∀ t fe p1 es p2 i ops,
     last = ssa.Const None t →
     compileValue b callee p = Ok fe p1 →
     forRange (compileValue b) prefix p1 = Ok es p2 →
     cursor p2 = Some i → llssa.opsOf b i (pkg p2) = Some ops →
     length es = length prefix ∧
     ∃ p3,
       compileInstrAndValue b (ssa.Call self callee (prefix ++ [last])) p =
         Ok (llssa.Reg b i (length ops)) p3 ∧
       llssa.opsOf b i (pkg p3) = Some (ops ++ [llssa.OCall fe es])) ∧
  ((∀ t, last ≠ ssa.Const None t) →
   ∃ e,
     compileInstrAndValue b (ssa.Call self callee (prefix ++ [last])) p =
       Panic e ∧
     (∀ fe p1 es p2,
        compileValue b callee p = Ok fe p1 →
        forRange (compileValue b) prefix p1 = Ok es p2 → e = Todo)).
Proof.
  intros Hk Hmiss. rewrite compileInstrAndValue_Call by done. rewrite Hk.
  change (fnHasVArg =? fnUnsafeInit)%Z with false. cbv iota. split.
  - intros t fe p1 es p2 i ops -> Hfe Hes Hc Hops.
    split; [by eapply forRange_length|].
    rewrite (bind_of_Ok _ _ _ _ _ Hfe).
    erewrite bind_of_Ok; last first.
    { rewrite compileValues_snoc. by rewrite (bind_of_Ok _ _ _ _ _ Hes). }
    eexists. unfold bind, emit. rewrite Hc, Hops. cbn. split; [done|].
    by apply opsOf_appendOp_eq.
  - intros Hlast. unfold bind at 1.
    destruct (compileValue b callee p) as [fe p1|e] eqn:Hfe.
    2:{ exists e. split; [done|]. intros; simplify_eq. }
    unfold bind at 1. rewrite compileValues_snoc. unfold bind at 1.
    destruct (forRange (compileValue b) prefix p1) as [es p2|e] eqn:Hes.
    2:{ exists e. split; [done|]. intros ???? [= <- <-] ?. congruence. }
    rewrite compileVArg_todo by done. by exists Todo.
Qed.

(** *** What lowering leaves alone *)

#[local] Instance grows_preorder : PreOrder grows.
Proof.
  split.
  - intros P. split_and!; try done. intros h i ops H. exists [].
    by rewrite app_nil_r.
  - intros P1 P2 P3 (?&?&?&?&H12) (?&?&?&?&H23).
    split_and!; try congruence.
    intros h i ops (m1 & Ha)%H12. apply H23 in Ha as (m2 & Hb).
    exists (m1 ++ m2). by rewrite app_assoc.
Qed.

#[local] Instance lowers_preorder : PreOrder lowers.
Proof.
  split.
  - intros p. by split_and!.
  - intros p1 p2 p3 (?&?&?&?&?) (?&?&?&?&?).
    split_and!; try congruence; by etrans.
Qed.

#[local] Instance builds_preorder : PreOrder builds.
Proof.
  split.
  - intros p. by split.
  - intros p1 p2 p3 [??] [??]. split; [by etrans|congruence].
Qed.

Lemma builds_refl p : builds p p.
Proof. done. Qed.

Lemma lowers_builds p p' : lowers p p' → builds p p'.
Proof. by intros (?&?&?&?&?). Qed.

Lemma decl_alter_blocks g h (l : list llssa.Function) :
  decl <$> alter (λ f, llssa.withBlocks (g f) f) h l = decl <$> l.
Proof.
  apply list_eq. intros j. rewrite !list_lookup_fmap, list_lookup_alter.
  case_decide; [subst j|done]. by destruct (l !! h).
Qed.

Lemma grows_appendOp h i o P : grows P (llssa.appendOp h i o P).
Proof.
  split_and!; try done.
  - apply decl_alter_blocks.
  - intros h' i' ops H. rewrite opsOf_appendOp, H. cbn.
    case_decide; [by eexists|]. exists []. by rewrite app_nil_r.
Qed.

Lemma grows_MakeBlocks h n P :
  grows P (llssa.withFuncs
     (alter (λ f, llssa.withBlocks (llssa.blocks f ++ replicate n []) f)
            h (llssa.funcs P)) P).
Proof.
  split_and!; try done.
  - apply (decl_alter_blocks (λ f, llssa.blocks f ++ replicate n [])).
  - intros h' i ops H. exists []. rewrite app_nil_r.
    unfold llssa.opsOf in *. cbn. rewrite list_lookup_alter.
    case_decide as E; [subst h'|done].
    destruct (llssa.funcs P !! h) as [f|]; [|done]. cbn in *.
    by apply lookup_app_l_Some.
Qed.

Lemma list_find_fname nm (l l' : list llssa.Function) :
  decl <$> l = decl <$> l' →
  fst <$> list_find (λ f, llssa.fname f = nm) l =
  fst <$> list_find (λ f, llssa.fname f = nm) l'.
Proof.
  revert l'. induction l as [|f l IH]; intros [|f' l'] H; try done.
  rewrite !fmap_cons in H. injection H as Hn _ Hl. cbn.
  rewrite Hn. case_decide; [done|].
  specialize (IH _ Hl).
  destruct (list_find _ l) as [[??]|], (list_find _ l') as [[??]|];
    by simplify_eq/=.
Qed.

Lemma FuncOf_grows nm P P' :
  grows P P' → llssa.FuncOf nm P' = llssa.FuncOf nm P.
Proof. intros (_&_&_&H&_). by apply list_find_fname. Qed.

Lemma VarOf_grows nm P P' :
  grows P P' → llssa.VarOf nm P' = llssa.VarOf nm P.
Proof. intros (_&_&H&_). unfold llssa.VarOf. by rewrite H. Qed.

Lemma emit_lowers b o p r p' : emit b o p = Ok r p' → lowers p p'.
Proof.
  intros (i & ops & _ & _ & _ & ->)%emit_Ok.
  split_and!; try done. apply grows_appendOp.
Qed.

Lemma remember_Ok a e p r p' :
  remember a e p = Ok r p' ↔ r = e ∧ p' = setBvals (<[a:=e]> (bvals p)) p.
Proof. unfold remember, bind, modify, ret. split; [by intros [= <- <-]|].
  by intros [-> ->]. Qed.

(** Storing the result of an instruction that was not in the cache when
    its lowering began keeps everything the cache held then. *)
Lemma lowers_remember p p2 a e :
  bvals p !! a = None → lowers p p2 →
  lowers p (setBvals (<[a:=e]> (bvals p2)) p2).
Proof.
  intros Hmiss (?&?&?&?&?). split_and!; try done.
  cbn. by apply insert_subseteq_r.
Qed.

Lemma lowerPrefix_preserves (R : relation context) `{!PreOrder R} cv
    (vals : list ssa.Value) :
  Forall (λ v, ∀ p r p', cv v p = Ok r p' → R p p') vals →
  ∀ n p r p', lowerPrefix cv vals n p = Ok r p' → R p p'.
Proof.
  induction 1 as [|v vals Hv _ IH]; intros [|n] p r p' H;
    simpl in H; inv_M; try done.
  match goal with
  | H1 : cv _ _ = Ok _ _, H2 : lowerPrefix _ _ _ _ = Ok _ _ |- _ =>
      apply Hv in H1; apply IH in H2; by etrans
  end.
Qed.

Lemma compileVArg_Ok ret_ b v p r p' :
  compileVArg ret_ b v p = Ok r p' → r = ret_ ∧ p' = p.
Proof. destruct v as [| | | |[c|] t|]; try done. by intros [= <- <-]. Qed.

Lemma compileValuesWith_preserves (R : relation context) `{!PreOrder R} cv b
    (vals : list ssa.Value) hasVArg :
  Forall (λ v, ∀ p r p', cv v p = Ok r p' → R p p') vals →
  ∀ p r p', compileValuesWith cv b vals hasVArg p = Ok r p' → R p p'.
Proof.
  intros HF p r p' H. unfold compileValuesWith in H.
  destruct (_ <? 0)%Z; [done|]. inv_M.
  match goal with
  | H1 : lowerPrefix _ _ _ _ = Ok _ _ |- _ =>
      apply (lowerPrefix_preserves R) in H1; [|done]
  end.
  destruct (0 <? hasVArg)%Z; [|by inv_M].
  destruct (vals !! _); [|done].
  match goal with
  | H1 : compileVArg _ _ _ _ = Ok _ _ |- _ =>
      apply compileVArg_Ok in H1 as [_ ->]
  end. done.
Qed.

Lemma compileValue_lowers_both :
  (∀ v b p r p', compileValue b v p = Ok r p' → lowers p p') ∧
  (∀ iv b p r p', compileInstrAndValue b iv p = Ok r p' → lowers p p').
Proof.
  apply Value_InstrAndValue_ind.
  - intros iv IH b p r p' H. by eapply IH.
  - intros a ps b p r p' H. cbn in H. destruct (list_find _ ps) as [[??]|];
      [|done]. unfold fnParam in H. destruct (fn p); by inv_M.
  - intros f b p r p' H. cbn in H. unfold funcOf, bind, ret in H.
    destruct (llssa.FuncOf _ _); by inv_M.
  - intros g b p r p' H. cbn in H. unfold varOf, bind, ret in H.
    destruct (llssa.VarOf _ _); by inv_M.
  - intros v t b p r p' H. cbn in H. by inv_M.
  - done.
  - intros a callee args IHc IHa b p r p' H.
    destruct (bvals p !! a) as [e|] eqn:Hc.
    { rewrite (compileInstrAndValue_cached _ _ _ e) in H by done. by inv_M. }
    rewrite compileInstrAndValue_Call in H by done.
    destruct (_ =? _)%Z; [by inv_M|]. inv_M.
    repeat match goal with
    | H1 : remember _ _ _ = Ok _ _ |- _ => apply remember_Ok in H1 as [-> ->]
    | H1 : emit _ _ _ = Ok _ _ |- _ => apply emit_lowers in H1
    | H1 : compileValue _ _ _ = Ok _ _ |- _ => apply IHc in H1
    | H1 : compileValues _ _ _ _ = Ok _ _ |- _ =>
        apply (compileValuesWith_preserves lowers) in H1;
        [|by eapply Forall_impl; [exact IHa|]; intros ? Hv; apply Hv]
    end.
    apply lowers_remember; [done|]. by repeat (etrans; [eassumption|]).
  - intros a op X Y IHX IHY b p r p' H.
    destruct (bvals p !! a) as [e|] eqn:Hc.
    { rewrite (compileInstrAndValue_cached _ _ _ e) in H by done. by inv_M. }
    rewrite compileInstrAndValue_BinOp in H by done. inv_M.
    repeat match goal with
    | H1 : remember _ _ _ = Ok _ _ |- _ => apply remember_Ok in H1 as [-> ->]
    | H1 : emit _ _ _ = Ok _ _ |- _ => apply emit_lowers in H1
    | H1 : compileValue _ X _ = Ok _ _ |- _ => apply IHX in H1
    | H1 : compileValue _ Y _ = Ok _ _ |- _ => apply IHY in H1
    end.
    apply lowers_remember; [done|]. by repeat (etrans; [eassumption|]).
  - intros a op X IHX b p r p' H.
    destruct (bvals p !! a) as [e|] eqn:Hc.
    { rewrite (compileInstrAndValue_cached _ _ _ e) in H by done. by inv_M. }
    rewrite compileInstrAndValue_UnOp in H by done. inv_M.
    repeat match goal with
    | H1 : remember _ _ _ = Ok _ _ |- _ => apply remember_Ok in H1 as [-> ->]
    | H1 : emit _ _ _ = Ok _ _ |- _ => apply emit_lowers in H1
    | H1 : compileValue _ X _ = Ok _ _ |- _ => apply IHX in H1
    end.
    apply lowers_remember; [done|]. by repeat (etrans; [eassumption|]).
  - intros a X Y IHX IHY b p r p' H.
    destruct (bvals p !! a) as [e|] eqn:Hc.
    { rewrite (compileInstrAndValue_cached _ _ _ e) in H by done. by inv_M. }
    rewrite compileInstrAndValue_IndexAddr in H by done. inv_M.
    repeat match goal with
    | H1 : remember _ _ _ = Ok _ _ |- _ => apply remember_Ok in H1 as [-> ->]
    | H1 : emit _ _ _ = Ok _ _ |- _ => apply emit_lowers in H1
    | H1 : compileValue _ X _ = Ok _ _ |- _ => apply IHX in H1
    | H1 : compileValue _ Y _ = Ok _ _ |- _ => apply IHY in H1
    end.
    apply lowers_remember; [done|]. by repeat (etrans; [eassumption|]).
  - intros a t h b p r p' H.
    destruct (bvals p !! a) as [e|] eqn:Hc.
    { rewrite (compileInstrAndValue_cached _ _ _ e) in H by done. by inv_M. }
    rewrite compileInstrAndValue_Alloc in H by done. inv_M.
    repeat match goal with
    | H1 : remember _ _ _ = Ok _ _ |- _ => apply remember_Ok in H1 as [-> ->]
    | H1 : emit _ _ _ = Ok _ _ |- _ => apply emit_lowers in H1
    end.
    by apply lowers_remember.
  - intros a k b p r p' H.
    destruct (bvals p !! a) as [e|] eqn:Hc.
    { rewrite (compileInstrAndValue_cached _ _ _ e) in H by done. by inv_M. }
    by rewrite compileInstrAndValue_IVOther in H.
Qed.

Lemma compileValue_lowers b v p r p' :
  compileValue b v p = Ok r p' → lowers p p'.
Proof. apply compileValue_lowers_both. Qed.

Lemma compileInstrAndValue_lowers b iv p r p' :
  compileInstrAndValue b iv p = Ok r p' → lowers p p'.
Proof. apply compileValue_lowers_both. Qed.

Lemma fnBlock_Ok idx p r p' :
  fnBlock idx p = Ok r p' →
  r = idx ∧ p' = p ∧
  ∃ h ops, fn p = Some h ∧ llssa.opsOf h idx (pkg p) = Some ops.
Proof.
  unfold fnBlock. destruct (fn p) as [h|]; [|done].
  destruct (llssa.opsOf h idx (pkg p)) as [ops|] eqn:E; [|done].
  intros [= <- <-]. split_and!; [done..|]. by exists h, ops.
Qed.

Lemma compileInstr_lowers b instr p r p' :
  compileInstr b instr p = Ok r p' → lowers p p'.
Proof.
  destruct instr as [iv|A V|succs|Results|Cond succs|k]; cbn; intros H.
  - inv_M. by eapply compileInstrAndValue_lowers.
  - inv_M.
    repeat match goal with
    | H1 : emit _ _ _ = Ok _ _ |- _ => apply emit_lowers in H1
    | H1 : compileValue _ _ _ = Ok _ _ |- _ => apply compileValue_lowers in H1
    end. by repeat (etrans; [eassumption|]).
  - destruct (succs !! 0%nat); [|done]. inv_M.
    repeat match goal with
    | H1 : emit _ _ _ = Ok _ _ |- _ => apply emit_lowers in H1
    | H1 : fnBlock _ _ = Ok _ _ |- _ => apply fnBlock_Ok in H1 as (-> & -> & _)
    end. done.
  - inv_M.
    repeat match goal with
    | H1 : emit _ _ _ = Ok _ _ |- _ => apply emit_lowers in H1
    | H1 : forRange _ _ _ = Ok _ _ |- _ =>
        apply (forRange_preserves lowers) in H1;
        [|by intros; eapply compileValue_lowers]
    end. by etrans.
  - inv_M. destruct (succs !! 0%nat); [|done]. inv_M.
    destruct (succs !! 1%nat); [|done]. inv_M.
    repeat match goal with
    | H1 : emit _ _ _ = Ok _ _ |- _ => apply emit_lowers in H1
    | H1 : fnBlock _ _ = Ok _ _ |- _ => apply fnBlock_Ok in H1 as (-> & -> & _)
    | H1 : compileValue _ _ _ = Ok _ _ |- _ => apply compileValue_lowers in H1
    end. by etrans.
  - done.
Qed.

Lemma compileInstrs_lowers b l p r p' :
  compileInstrs b l p = Ok r p' → lowers p p'.
Proof.
  unfold compileInstrs. intros H. inv_M.
  eapply (forRange_preserves lowers); [|done].
  intros. by eapply compileInstr_lowers.
Qed.

(** *** The block-value cache *)

Lemma compileInstrAndValue_caches b iv p e p' :
  isNoOpCall iv = false →
  compileInstrAndValue b iv p = Ok e p' →
  bvals p' !! ssa.addrOf iv = Some e.
Proof.
  intros Hn H.
  destruct (bvals p !! ssa.addrOf iv) as [e'|] eqn:Hc.
  { rewrite (compileInstrAndValue_cached _ _ _ e') in H by done. by inv_M. }
  destruct iv as [a callee args|a op X Y|a op X|a X Y|a t h|a k];
    cbn [ssa.addrOf isNoOpCall] in *.
  - rewrite compileInstrAndValue_Call, Hn in H by done. inv_M.
    match goal with
    | H1 : remember _ _ _ = Ok _ _ |- _ => apply remember_Ok in H1 as [-> ->]
    end. cbn. apply lookup_insert_eq.
  - rewrite compileInstrAndValue_BinOp in H by done. inv_M.
    match goal with
    | H1 : remember _ _ _ = Ok _ _ |- _ => apply remember_Ok in H1 as [-> ->]
    end. cbn. apply lookup_insert_eq.
  - rewrite compileInstrAndValue_UnOp in H by done. inv_M.
    match goal with
    | H1 : remember _ _ _ = Ok _ _ |- _ => apply remember_Ok in H1 as [-> ->]
    end. cbn. apply lookup_insert_eq.
  - rewrite compileInstrAndValue_IndexAddr in H by done. inv_M.
    match goal with
    | H1 : remember _ _ _ = Ok _ _ |- _ => apply remember_Ok in H1 as [-> ->]
    end. cbn. apply lookup_insert_eq.
  - rewrite compileInstrAndValue_Alloc in H by done. inv_M.
    match goal with
    | H1 : remember _ _ _ = Ok _ _ |- _ => apply remember_Ok in H1 as [-> ->]
    end. cbn. apply lookup_insert_eq.
  - by rewrite compileInstrAndValue_IVOther in H.
Qed.

Lemma compileBlock_resets b block doInit m p :
  compileBlock b block doInit (setBvals m p) = compileBlock b block doInit p.
Proof.
  unfold compileBlock, bind, fnBlock, SetBlock, modify. cbn.
  destruct (fn p); [|done]. by destruct (llssa.opsOf _ _ _).
Qed.

(** C6.  Inside a block a value-producing instruction is lowered at most
    once: a cached instruction is answered from the cache without touching
    the context; the first lowering stores its result, and after any
    further instructions of the block the instruction still resolves to
    that result with nothing emitted; building a block starts from an empty
    cache whatever the cache held before. *)
Theorem block_value_lowered_once (b : llssa.Builder) :
  (∀ iv p e,
     bvals p !! ssa.addrOf iv = Some e →
     compileInstrAndValue b iv p = Ok e p) ∧
  (∀ iv p e p1,
     isNoOpCall iv = false →
     compileInstrAndValue b iv p = Ok e p1 →
     bvals p1 !! ssa.addrOf iv = Some e ∧
     ∀ rest p2,
       compileInstrs b rest p1 = Ok tt p2 →
       compileValue b (ssa.VInstr iv) p2 = Ok e p2 ∧
       compileInstr b (ssa.IValue iv) p2 = Ok tt p2) ∧
  (∀ block doInit m p,
     compileBlock b block doInit (setBvals m p) =
     compileBlock b block doInit p).
Proof.
  split_and!.
  - apply compileInstrAndValue_cached.
  - intros iv p e p1 Hn H.
    pose proof (compileInstrAndValue_caches _ _ _ _ _ Hn H) as Hc.
    split; [done|]. intros rest p2 (_ & Hsub & _)%compileInstrs_lowers.
    assert (bvals p2 !! ssa.addrOf iv = Some e) as Hc2
      by (by eapply lookup_weaken).
    cbn. unfold bind.
    by rewrite (compileInstrAndValue_cached _ _ _ _ Hc2).
  - apply compileBlock_resets.
Qed.

(** *** Blocks and bodies *)

Lemma callMainInit_Ok b p r p' :
  callMainInit b p = Ok r p' →
  ∃ h i ops, llssa.FuncOf "main.init" (pkg p) = Some h ∧
    cursor p = Some i ∧ llssa.opsOf b i (pkg p) = Some ops ∧
    llssa.opsOf b i (pkg p') =
      Some (ops ++ [llssa.OCall (llssa.FuncExpr h) []]) ∧
    bvals p' = bvals p ∧ lowers p p'.
Proof.
  unfold callMainInit. intros H. inv_M.
  destruct (llssa.FuncOf _ _) as [h|]; [|done]. inv_M.
  match goal with
  | H1 : emit _ _ _ = Ok _ _ |- _ =>
      pose proof (emit_lowers _ _ _ _ _ H1);
      apply emit_appends in H1 as (i & ops & ? & ? & ? & ? & _)
  end.
  by exists h, i, ops.
Qed.

Lemma compileBlock_plain_Ok b block p r p' :
  compileBlock b block false p = Ok r p' →
  r = ssa.Index block ∧
  compileInstrs b (ssa.Instrs block) (atBlock block p) = Ok tt p'.
Proof.
  unfold compileBlock. intros H. inv_M.
  match goal with
  | H1 : fnBlock _ _ = Ok _ _ |- _ => apply fnBlock_Ok in H1 as (-> & -> & _)
  end.
  match goal with
  | H1 : compileInstrs _ _ _ = Ok ?u _ |- _ => by destruct u
  end.
Qed.

Lemma compileBlock_init_Ok b block p r p' :
  compileBlock b block true p = Ok r p' →
  ∃ h ops p0,
    llssa.FuncOf "main.init" (pkg p) = Some h ∧
    llssa.opsOf b (ssa.Index block) (pkg p) = Some ops ∧
    llssa.opsOf b (ssa.Index block) (pkg p0) =
      Some (ops ++ [llssa.OCall (llssa.FuncExpr h) []]) ∧
    bvals p0 = ∅ ∧
    compileInstrs b (ssa.Instrs block) p0 = Ok tt p'.
Proof.
  unfold compileBlock. intros H. inv_M.
  match goal with
  | H1 : fnBlock _ _ = Ok _ _ |- _ => apply fnBlock_Ok in H1 as (-> & -> & _)
  end.
  match goal with
  | H1 : callMainInit _ _ = Ok _ ?q |- _ =>
      apply callMainInit_Ok in H1
        as (h & i & ops & Hf & [= <-] & Ho & Ho' & Hb & _);
      exists h, ops, q
  end.
  split_and!; try done.
  match goal with
  | H1 : compileInstrs _ _ _ = Ok ?u _ |- _ => by destruct u
  end.
Qed.

Lemma compileBlock_builds b block doInit p r p' :
  compileBlock b block doInit p = Ok r p' → builds p p'.
Proof.
  unfold compileBlock. intros H. inv_M.
  repeat match goal with
  | H1 : fnBlock _ _ = Ok _ _ |- _ => apply fnBlock_Ok in H1 as (-> & -> & _)
  | H1 : compileInstrs _ _ _ = Ok _ _ |- _ =>
      apply compileInstrs_lowers, lowers_builds in H1
  end.
  destruct doInit; inv_M.
  - match goal with
    | H1 : callMainInit _ _ = Ok _ _ |- _ =>
        apply callMainInit_Ok in H1 as (?&?&?&_&_&_&_&_&?%lowers_builds)
    end.
    trans (atBlock block p); [done|]. by etrans.
  - by trans (atBlock block p).
Qed.

Lemma compileBlocks_builds b name blocks i p r p' :
  compileBlocks b name i blocks p = Ok r p' → builds p p'.
Proof.
  revert i p. induction blocks as [|block blocks IH]; intros i p H;
    simpl in H; inv_M; [done|].
  match goal with
  | H1 : compileBlock _ _ _ _ = Ok _ _ |- _ => apply compileBlock_builds in H1
  end.
  apply IH in H. by etrans.
Qed.

Lemma compileBlocks_plain b name blocks i p :
  i ≠ 0%nat ∨ name ≠ "main"%string →
  compileBlocks b name i blocks p =
  (forRange (λ block, compileBlock b block false) blocks >> ret tt) p.
Proof.
  revert i p. induction blocks as [|block blocks IH]; intros i p Hi; [done|].
  simpl.
  assert ((i =? 0)%nat && String.eqb name "main" = false) as ->.
  { destruct Hi as [Hi|Hi].
    - by apply Nat.eqb_neq in Hi as ->.
    - apply String.eqb_neq in Hi as ->. apply andb_false_r. }
  unfold bind, ret in *.
  destruct (compileBlock b block false p) as [y p1|]; [|done].
  rewrite IH by (left; done). by destruct (forRange _ blocks p1).
Qed.

Lemma runInit_builds d p r p' : runInit d p = Ok r p' → builds p p'.
Proof.
  unfold runInit. intros H. inv_M.
  destruct (_ =? _)%nat; inv_M; [done|].
  match goal with
  | H1 : compileBlocks _ _ _ _ _ = Ok _ _ |- _ =>
      apply compileBlocks_builds in H1 as [Hg Hi]
  end.
  split; [|done]. cbn in *. etrans; [|exact Hg]. apply grows_MakeBlocks.
Qed.

Lemma forRange_runInit_builds l p r p' :
  forRange runInit l p = Ok r p' → builds p p'.
Proof.
  apply (forRange_preserves builds). intros ?????. by eapply runInit_builds.
Qed.

(** C7.  Building the entry block of the function named main puts the call
    of main.init first: in the block it follows what the block held before
    (nothing, in a freshly declared function) and precedes everything the
    sweep over the source instructions emits.  Every other block, of main
    and of every other function, is built without that call: its sweep
    starts on the package as it was. *)
Theorem main_init_called_first (b : llssa.Builder) :
  (∀ block p r p',
     compileBlock b block true p = Ok r p' →
     ∃ h ops p0,
       llssa.FuncOf "main.init" (pkg p) = Some h ∧
       llssa.opsOf b (ssa.Index block) (pkg p) = Some ops ∧
       llssa.opsOf b (ssa.Index block) (pkg p0) =
         Some (ops ++ [llssa.OCall (llssa.FuncExpr h) []]) ∧
       compileInstrs b (ssa.Instrs block) p0 = Ok tt p') ∧
  (∀ d p p' block0 rest f,
     runInit d p = Ok tt p' →
     d_name d = "main"%string →
     ssa.Blocks (d_f d) = block0 :: rest →
     llssa.funcs (pkg p) !! d_fn d = Some f → llssa.blocks f = [] →
     ∃ h tail,
       llssa.FuncOf "main.init" (pkg p) = Some h ∧
       llssa.opsOf (d_fn d) (ssa.Index block0) (pkg p') =
         Some (llssa.OCall (llssa.FuncExpr h) [] :: tail)) ∧
  (∀ name i blocks p,
     i ≠ 0%nat ∨ name ≠ "main"%string →
     compileBlocks b name i blocks p =
     (forRange (λ block, compileBlock b block false) blocks >> ret tt) p) ∧
  (∀ block p r p',
     compileBlock b block false p = Ok r p' →
     pkg (atBlock block p) = pkg p ∧
     compileInstrs b (ssa.Instrs block) (atBlock block p) = Ok tt p').
Proof.
  split_and!.
  - intros block p r p' H.
    apply compileBlock_init_Ok in H as (h & ops & p0 & ? & ? & ? & _ & ?).
    by exists h, ops, p0.
  - intros d p p' block0 rest f H Hname Hblocks Hf Hfresh.
    unfold runInit in H. rewrite Hblocks, Hname in H. cbn in H. inv_M.
    match goal with
    | H1 : compileBlock _ _ _ ?q = Ok _ _ |- _ =>
        apply compileBlock_init_Ok in H1
          as (h & ops & p0 & Hinit & Hops & Hops0 & _ & Hsweep);
        assert (grows (pkg p) (pkg q)) as Hg
          by exact (grows_MakeBlocks (d_fn d) (S (length rest)) (pkg p))
    end.
    rewrite (FuncOf_grows _ _ _ Hg) in Hinit.
    assert (ops = []) as ->.
    { unfold llssa.opsOf in Hops. cbn in Hops.
      rewrite list_lookup_alter_eq, Hf in Hops. cbn in Hops.
      rewrite Hfresh in Hops. cbn in Hops.
      change ([] :: replicate (length rest) [])
        with (replicate (S (length rest)) (@nil llssa.Op)) in Hops.
      by apply lookup_replicate in Hops as [-> _]. }
    apply compileInstrs_lowers in Hsweep as ((_&_&_&_&Hsweep) & _).
    apply Hsweep in Hops0 as (m1 & Hops1).
    match goal with
    | H1 : compileBlocks _ _ _ _ _ = Ok _ _ |- _ =>
        apply compileBlocks_builds in H1 as ((_&_&_&_&Hrest) & _)
    end.
    apply Hrest in Hops1 as (m2 & Hops2).
    exists h, (m1 ++ m2). split; [done|]. cbn. rewrite Hops2.
    by rewrite <-!app_assoc.
  - intros name i blocks p. apply compileBlocks_plain.
  - intros block p r p' H. split; [done|].
    by apply compileBlock_plain_Ok in H as [_ H].
Qed.

(** *** Sorting the members *)

#[local] Instance posLe_trans : Transitive posLe.
Proof. unfold posLe. intros x y z ??. lia. Qed.

Lemma less_spec x y : less x y = true ↔ ¬ posLe y x.
Proof. unfold less, posLe. rewrite Z.ltb_lt. lia. Qed.

Lemma less_false x y : less x y = false ↔ posLe y x.
Proof. unfold less, posLe. rewrite Z.ltb_ge. lia. Qed.

Lemma StronglySorted_less (l : list (string * ssa.Member)) :
  StronglySorted (λ x y, less y x = false) l ↔ StronglySorted posLe l.
Proof.
  split; induction 1 as [|x l Hl IH Hx]; constructor; try done;
    (eapply Forall_impl; [exact Hx|]); intros y Hy; by apply less_false.
Qed.

Lemma sortSlice_sorted ms : StronglySorted posLe (sortSlice ms).
Proof. apply StronglySorted_less, sortSlice_less. Qed.

Lemma NoDup_fmap_elem_inj {A B} (f : A → B) (l : list A) x y :
  NoDup (f <$> l) → x ∈ l → y ∈ l → f x = f y → x = y.
Proof.
  induction l as [|z l IH]; [by intros _ ?%elem_of_nil|].
  rewrite fmap_cons, NoDup_cons.
  intros [Hz Hl] [->|Hx]%elem_of_cons [->|Hy]%elem_of_cons E; try done.
  - destruct Hz. rewrite E. by apply list_elem_of_fmap_2.
  - destruct Hz. rewrite <-E. by apply list_elem_of_fmap_2.
  - by apply IH.
Qed.

(** On members with distinct positions the sorted list is determined by
    the members alone: every sorting procedure returns it. *)
Lemma sorted_perm_unique (l1 l2 : list (string * ssa.Member)) :
  NoDup ((λ x, ssa.MemberPos x.2) <$> l1) →
  StronglySorted posLe l1 → StronglySorted posLe l2 → l1 ≡ₚ l2 → l1 = l2.
Proof.
  intros Hnd H1 H2 Hp. apply (StronglySorted_unique_strong posLe); try done.
  intros x1 x2 Hx1 Hx2 H12 H21.
  apply (NoDup_fmap_elem_inj (λ x, ssa.MemberPos x.2) l1); try done.
  - by rewrite Hp.
  - unfold posLe in *. lia.
Qed.

Lemma sortSlice_unique ms1 ms2 :
  ms1 ≡ₚ ms2 → NoDup ((λ x, ssa.MemberPos x.2) <$> ms1) →
  sortSlice ms1 = sortSlice ms2.
Proof.
  intros Hp Hnd. apply sorted_perm_unique.
  - by rewrite sortSlice_perm.
  - apply sortSlice_sorted.
  - apply sortSlice_sorted.
  - by rewrite !sortSlice_perm.
Qed.

(** *** The declare loop *)

Lemma declared_nil p : declared [] p = p.
Proof.
  destruct p as [[????]????]. unfold declared. cbn.
  by rewrite !app_nil_r.
Qed.

Lemma compileMember_Ok ret_ nm m p :
  ¬ isType m → compileMember ret_ m p = Ok tt (declared [(nm, m)] p).
Proof.
  intros Ht. destruct m as [f|t|g|c]; cbn.
  - unfold declared, funcsOf, globalsOf. cbn.
    destruct (ssa.TypeParams f) eqn:E; cbn.
    + rewrite Nat.add_0_r, app_nil_r. done.
    + unfold ret. f_equal. destruct p as [[????]????]. cbn.
      by rewrite !app_nil_r.
  - by destruct Ht.
  - unfold compileGlobal, declared, funcsOf, globalsOf, bind, NewVar, InitVar,
      modify. cbn. f_equal. destruct p as [[????]????]. cbn.
    rewrite !app_nil_r. unfold setPkg, llssa.withVars. cbn. do 2 f_equal.
    rewrite <-(Nat.add_0_r (length _)), alter_app_r. done.
  - unfold ret. f_equal. destruct p as [[????]????]. unfold declared. cbn.
    by rewrite !app_nil_r.
Qed.

Lemma declared_cons x ms p :
  declared (x :: ms) p = declared ms (declared [x] p).
Proof.
  unfold declared, funcsOf, globalsOf. cbn [omap list_omap].
  destruct x as [nm [f|t|g|c]]; cbn;
    rewrite ?app_nil_r, <-?app_assoc; try done.
  destruct (ssa.TypeParams f); cbn; rewrite ?app_nil_r, <-?app_assoc;
    [|done].
  cbn. do 2 f_equal. rewrite Nat.add_0_r. f_equal.
  apply imap_ext. intros k y _. cbn. f_equal. rewrite length_app. cbn. lia.
Qed.

Lemma forRange_compileMember_Ok ret_ ms p :
  Forall (λ m, ¬ isType m.2) ms →
  ∃ us, forRange (λ m, compileMember ret_ m.2) ms p = Ok us (declared ms p).
Proof.
  intros H. revert p. induction H as [|[nm m] ms Hm _ IH]; intros p.
  - exists []. by rewrite declared_nil.
  - destruct (IH (declared [(nm, m)] p)) as [us Hus].
    exists (tt :: us). simpl. rewrite declared_cons.
    rewrite (bind_of_Ok _ _ _ _ _ (compileMember_Ok ret_ nm m p Hm)).
    by rewrite (bind_of_Ok _ _ _ _ _ Hus).
Qed.

Lemma declareMembers_Ok ret_ ms p :
  Forall (λ m, ¬ isType m.2) ms →
  declareMembers ret_ ms p = Ok tt (declared ms p).
Proof.
  intros [us H]%(forRange_compileMember_Ok ret_ ms p).
  unfold declareMembers. by rewrite (bind_of_Ok _ _ _ _ _ H).
Qed.

Lemma declareMembers_type ret_ ms p :
  Exists (λ m, isType m.2) ms → declareMembers ret_ ms p = Panic Todo.
Proof.
  intros H. unfold declareMembers. apply bind_of_Panic.
  revert p. induction ms as [|[nm m] ms IH]; intros p; [by inv H|].
  simpl. destruct (decide (isType m)) as [Ht|Ht].
  - by destruct m.
  - rewrite (bind_of_Ok _ _ _ _ _ (compileMember_Ok ret_ nm m p Ht)).
    apply bind_of_Panic, IH. by inv H.
Qed.

(** *** The driver *)

Lemma NewPackage_phases pkg_ :
  NewPackage pkg_ =
  match declareMembers
          (llssa.NewPackage (ssa.PkgName pkg_) (ssa.PkgPkgPath pkg_))
          (sortSlice (ssa.Members pkg_)) (startContext pkg_) with
  | Panic e => inl e
  | Ok _ p =>
      match forRange runInit (inits p) p with
      | Ok _ p' => inr (pkg p')
      | Panic e => inl e
      end
  end.
Proof.
  unfold NewPackage, startContext, runInits, bind, get, ret. cbn zeta.
  destruct (declareMembers _ _ _) as [u p|]; [|done].
  by destruct (forRange _ (inits p) p).
Qed.

Lemma declareMembers_Ok_inv ret_ ms p u p' :
  declareMembers ret_ ms p = Ok u p' →
  Forall (λ m, ¬ isType m.2) ms ∧ p' = declared ms p.
Proof.
  intros H.
  assert (Forall (λ m, ¬ isType m.2) ms) as HF.
  { apply Forall_Exists_neg. intros HE.
    by rewrite (declareMembers_type _ _ _ HE) in H. }
  split; [done|]. rewrite (declareMembers_Ok _ _ _ HF) in H. by simplify_eq.
Qed.

(** C1, as the code has it.  A package with a type member is not
    translated: the declare loop reaches the member, [compileType] panics
    with "todo" and [NewPackage] returns no package. *)
Theorem type_member_aborts (pkg_ : ssa.Package) nm t :
  (nm, ssa.MType t) ∈ ssa.Members pkg_ → NewPackage pkg_ = inl Todo.
Proof.
  intros Hin. rewrite NewPackage_phases, declareMembers_type; [done|].
  apply Exists_exists. exists (nm, ssa.MType t). split; [|done].
  by rewrite sortSlice_perm.
Qed.

Lemma funcsOf_compiled ms :
  funcsOf (filter compiled ms) = funcsOf ms ∧
  (λ x, ssa.MemberPos x.2) <$> filter compiled ms = ssa.Pos <$> funcsOf ms.
Proof.
  unfold funcsOf. induction ms as [|[nm m] ms [IH1 IH2]]; [done|].
  rewrite filter_cons.
  destruct (decide (compiled (nm, m))) as [Hc|Hc]; unfold compiled in Hc;
    destruct m as [f|t|g|c]; cbn in *; try done.
  - rewrite Hc. cbn. by rewrite IH1, IH2.
  - by destruct (ssa.TypeParams f).
Qed.

Lemma globalsOf_isGlobal ms :
  globalsOf (filter isGlobal ms) = globalsOf ms ∧
  (λ x, ssa.MemberPos x.2) <$> filter isGlobal ms = ssa.GPos <$> globalsOf ms.
Proof.
  unfold globalsOf. induction ms as [|[nm m] ms [IH1 IH2]]; [done|].
  rewrite filter_cons.
  destruct (decide (isGlobal (nm, m))) as [Hc|Hc]; unfold isGlobal in Hc;
    destruct m as [f|t|g|c]; cbn in *; try done.
  by rewrite IH1, IH2.
Qed.

Lemma StronglySorted_filter (P : string * ssa.Member → Prop)
    `{!∀ x, Decision (P x)} l :
  StronglySorted posLe l → StronglySorted posLe (filter P l).
Proof.
  induction 1 as [|x l Hl IH Hx]; [constructor|].
  rewrite filter_cons. destruct (decide (P x)); [|done].
  constructor; [done|]. apply Forall_forall.
  intros y [_ Hy]%list_elem_of_filter. rewrite Forall_forall in Hx. auto.
Qed.

(** Two sorted lists with the same compiled functions hold them in the
    same order when the positions of these functions are distinct; and the
    same for the globals. *)
Lemma funcsOf_sorted_same (l1 l2 : list (string * ssa.Member)) :
  StronglySorted posLe l1 → StronglySorted posLe l2 →
  filter compiled l1 ≡ₚ filter compiled l2 →
  NoDup (ssa.Pos <$> funcsOf l1) → funcsOf l1 = funcsOf l2.
Proof.
  intros H1 H2 Hp Hnd.
  rewrite <-(proj1 (funcsOf_compiled l1)), <-(proj1 (funcsOf_compiled l2)).
  f_equal. apply sorted_perm_unique.
  - by rewrite (proj2 (funcsOf_compiled l1)).
  - by apply StronglySorted_filter.
  - by apply StronglySorted_filter.
  - done.
Qed.

Lemma globalsOf_sorted_same (l1 l2 : list (string * ssa.Member)) :
  StronglySorted posLe l1 → StronglySorted posLe l2 →
  filter isGlobal l1 ≡ₚ filter isGlobal l2 →
  NoDup (ssa.GPos <$> globalsOf l1) → globalsOf l1 = globalsOf l2.
Proof.
  intros H1 H2 Hp Hnd.
  rewrite <-(proj1 (globalsOf_isGlobal l1)),
          <-(proj1 (globalsOf_isGlobal l2)).
  f_equal. apply sorted_perm_unique.
  - by rewrite (proj2 (globalsOf_isGlobal l1)).
  - by apply StronglySorted_filter.
  - by apply StronglySorted_filter.
  - done.
Qed.

(** Whatever procedure sorts the members: two sorted arrangements of the
    same members hold the compiled functions in the same order, and the
    globals, when their positions are distinct among themselves. *)
Lemma funcsOf_sorted_unique (l1 l2 : list (string * ssa.Member)) :
  StronglySorted posLe l1 → StronglySorted posLe l2 → l1 ≡ₚ l2 →
  NoDup (ssa.Pos <$> funcsOf l1) → funcsOf l1 = funcsOf l2.
Proof.
  intros H1 H2 Hp Hnd. apply funcsOf_sorted_same; try done. by rewrite Hp.
Qed.

Lemma globalsOf_sorted_unique (l1 l2 : list (string * ssa.Member)) :
  StronglySorted posLe l1 → StronglySorted posLe l2 → l1 ≡ₚ l2 →
  NoDup (ssa.GPos <$> globalsOf l1) → globalsOf l1 = globalsOf l2.
Proof.
  intros H1 H2 Hp Hnd. apply globalsOf_sorted_same; try done. by rewrite Hp.
Qed.

(** The order in which the compiled functions, and the globals, come out
    of the sort depends on the members alone when their positions are
    distinct among themselves. *)
Lemma funcsOf_sortSlice ms1 ms2 :
  ms1 ≡ₚ ms2 → NoDup (ssa.Pos <$> funcsOf ms1) →
  funcsOf (sortSlice ms1) = funcsOf (sortSlice ms2).
Proof.
  intros Hp Hnd. apply funcsOf_sorted_unique.
  - apply sortSlice_sorted.
  - apply sortSlice_sorted.
  - by rewrite !sortSlice_perm.
  - unfold funcsOf. by rewrite sortSlice_perm.
Qed.

Lemma globalsOf_sortSlice ms1 ms2 :
  ms1 ≡ₚ ms2 → NoDup (ssa.GPos <$> globalsOf ms1) →
  globalsOf (sortSlice ms1) = globalsOf (sortSlice ms2).
Proof.
  intros Hp Hnd. apply globalsOf_sorted_unique.
  - apply sortSlice_sorted.
  - apply sortSlice_sorted.
  - by rewrite !sortSlice_perm.
  - unfold globalsOf. by rewrite sortSlice_perm.
Qed.

Lemma NoDup_pos_funcsOf ms :
  NoDup ((λ x, ssa.MemberPos x.2) <$> ms) → NoDup (ssa.Pos <$> funcsOf ms).
Proof.
  intros H. rewrite <-(proj2 (funcsOf_compiled ms)).
  eapply sublist_NoDup; [exact H|]. apply fmap_sublist, sublist_filter.
Qed.

Lemma NoDup_pos_globalsOf ms :
  NoDup ((λ x, ssa.MemberPos x.2) <$> ms) → NoDup (ssa.GPos <$> globalsOf ms).
Proof.
  intros H. rewrite <-(proj2 (globalsOf_isGlobal ms)).
  eapply sublist_NoDup; [exact H|]. apply fmap_sublist, sublist_filter.
Qed.

Lemma NewPackage_by_kind pkg1 pkg2 :
  ssa.PkgName pkg1 = ssa.PkgName pkg2 →
  ssa.PkgPkgPath pkg1 = ssa.PkgPkgPath pkg2 →
  ssa.Members pkg1 ≡ₚ ssa.Members pkg2 →
  NoDup (ssa.Pos <$> funcsOf (ssa.Members pkg1)) →
  NoDup (ssa.GPos <$> globalsOf (ssa.Members pkg1)) →
  NewPackage pkg1 = NewPackage pkg2.
Proof.
  intros Hn Hpth Hp Hf Hg. rewrite !NewPackage_phases.
  unfold startContext. rewrite <-Hn, <-Hpth.
  destruct (decide (Exists (λ m, isType m.2) (ssa.Members pkg1))) as [Ht|Ht].
  - rewrite !declareMembers_type; [done|by rewrite sortSlice_perm, <-Hp|
                                    by rewrite sortSlice_perm].
  - assert (∀ ms, ms ≡ₚ ssa.Members pkg1 →
                  Forall (λ m, ¬ isType m.2) (sortSlice ms)) as HF.
    { intros ms Hms. rewrite sortSlice_perm, Hms.
      by apply Forall_Exists_neg in Ht. }
    rewrite !declareMembers_Ok by (apply HF; done).
    unfold declared.
    by rewrite (funcsOf_sortSlice _ _ Hp Hf), (globalsOf_sortSlice _ _ Hp Hg).
Qed.


Lemma forRange_skip {A} (f : A → M unit) (P : A → Prop)
    `{!∀ x, Decision (P x)} l p :
  (∀ x q, ¬ P x → f x q = Ok tt q) →
  (forRange f (filter P l) >> ret tt) p = (forRange f l >> ret tt) p.
Proof.
  intros Hskip. revert p. induction l as [|x l IH]; intros p; [done|].
  rewrite filter_cons. destruct (decide (P x)) as [Hx|Hx]; simpl.
  - unfold bind, ret in *. destruct (f x p) as [y p1|]; [|done].
    specialize (IH p1).
    by destruct (forRange f (filter P l) p1), (forRange f l p1);
      simplify_eq.
  - rewrite IH. unfold bind, ret. rewrite (Hskip x p Hx).
    by destruct (forRange f l p).
Qed.

Lemma compileMember_generic ret_ m p :
  generic m → compileMember ret_ m p = Ok tt p.
Proof.
  destruct m as [f| | |]; try done. cbn. by destruct (ssa.TypeParams f).
Qed.

Lemma declareMembers_dropGenerics ret_ ms p :
  declareMembers ret_ (filter (λ m, ¬ generic m.2) ms) p =
  declareMembers ret_ ms p.
Proof.
  unfold declareMembers. apply forRange_skip.
  intros [nm m] q Hg. apply compileMember_generic.
  by destruct (decide (generic m)).
Qed.

(** Members that are no type, no compiled function and no global can be
    left out of a package whose compiled functions have distinct
    positions, and whose globals have: whatever the sort makes of members
    with equal positions, the functions and the globals are declared in
    the same order. *)
Lemma NewPackage_without (Q : string * ssa.Member → Prop)
    `{!∀ x, Decision (Q x)} pkg_ :
  (∀ x, ¬ Q x → ¬ isType x.2 ∧ ¬ compiled x ∧ ¬ isGlobal x) →
  NoDup (ssa.Pos <$> funcsOf (ssa.Members pkg_)) →
  NoDup (ssa.GPos <$> globalsOf (ssa.Members pkg_)) →
  NewPackage pkg_ =
  NewPackage {| ssa.PkgName := ssa.PkgName pkg_;
                ssa.PkgPkgPath := ssa.PkgPkgPath pkg_;
                ssa.Members := filter Q (ssa.Members pkg_) |}.
Proof.
  intros Hdrop Hf Hg. rewrite !NewPackage_phases. unfold startContext.
  cbn [ssa.Members ssa.PkgName ssa.PkgPkgPath].
  assert (∀ x, x ∈ ssa.Members pkg_ → isType x.2 ∨ compiled x ∨ isGlobal x →
               x ∈ filter Q (ssa.Members pkg_)) as Hkeep.
  { intros x Hx Hk. apply list_elem_of_filter. split; [|done].
    destruct (decide (Q x)) as [|Hn]; [done|].
    destruct (Hdrop x Hn) as (?&?&?). by destruct Hk as [?|[?|?]]. }
  destruct (decide (Exists (λ m, isType m.2) (ssa.Members pkg_))) as [Ht|Ht].
  - rewrite !declareMembers_type; [done| |by rewrite sortSlice_perm].
    rewrite sortSlice_perm. apply Exists_exists in Ht as (x & Hx & Hty).
    apply Exists_exists. exists x. split; [|done]. apply Hkeep; auto.
  - apply Forall_Exists_neg in Ht.
    assert (Forall (λ m, ¬ isType m.2) (sortSlice (ssa.Members pkg_)))
      as Ht1 by (by rewrite sortSlice_perm).
    assert (Forall (λ m, ¬ isType m.2)
              (sortSlice (filter Q (ssa.Members pkg_)))) as Ht2.
    { rewrite sortSlice_perm. apply Forall_forall.
      intros x [_ Hx]%list_elem_of_filter. rewrite Forall_forall in Ht. auto. }
    rewrite (declareMembers_Ok _ _ _ Ht1), (declareMembers_Ok _ _ _ Ht2).
    unfold declared.
    assert (funcsOf (sortSlice (ssa.Members pkg_)) =
            funcsOf (sortSlice (filter Q (ssa.Members pkg_)))) as ->.
    { apply funcsOf_sorted_same; [apply sortSlice_sorted..| |].
      - rewrite !sortSlice_perm, list_filter_filter_l; [done|].
        intros x Hx. destruct (decide (Q x)) as [|Hn]; [done|].
        by destruct (Hdrop x Hn) as (?&?&?).
      - unfold funcsOf. by rewrite sortSlice_perm. }
    assert (globalsOf (sortSlice (ssa.Members pkg_)) =
            globalsOf (sortSlice (filter Q (ssa.Members pkg_)))) as ->.
    { apply globalsOf_sorted_same; [apply sortSlice_sorted..| |].
      - rewrite !sortSlice_perm, list_filter_filter_l; [done|].
        intros x Hx. destruct (decide (Q x)) as [|Hn]; [done|].
        by destruct (Hdrop x Hn) as (?&?&?).
      - unfold globalsOf. by rewrite sortSlice_perm. }
    done.
Qed.

(** The functions of a translated package are the declarations of the
    function members that are compiled. *)
Lemma NewPackage_inr_funcs pkg_ P :
  NewPackage pkg_ = inr P →
  decl <$> llssa.funcs P =
    (λ f, (funcName (ssa.Header f), ssa.Sig (ssa.Header f)))
      <$> funcsOf (sortSlice (ssa.Members pkg_)).
Proof.
  intros HN. rewrite NewPackage_phases in HN.
  destruct (declareMembers _ _ _) as [[] p|] eqn:Hd; [|done].
  destruct (forRange runInit (inits p) p) as [us p'|] eqn:Hr; [|done].
  simplify_eq. apply declareMembers_Ok_inv in Hd as [_ ->].
  apply forRange_runInit_builds in Hr as [(_&_&_&Hd&_) _].
  rewrite Hd. cbn. by rewrite <-list_fmap_compose.
Qed.

(** C9.  A call whose callee is classified UnsafeNoOpInit leaves the
    context as it is: nothing is resolved, emitted or cached.  A function
    member with type parameters is passed over by the declare loop.  The
    functions of a translated package are the declarations of the
    function members without type parameters, one for each: none is
    declared, and so no body is built, for a generic one.  And a package
    whose compiled functions have distinct positions, and whose globals
    have, translates as the package without its generic members (with
    equal positions the order of the declarations is left to the sort,
    which is not stable). *)
Theorem noop_init_and_generics_skipped :
  (∀ b self callee args p,
     funcKind callee = fnUnsafeInit →
     compileInstr b (ssa.IValue (ssa.Call self callee args)) p = Ok tt p ∧
     ∃ r, compileInstrAndValue b (ssa.Call self callee args) p = Ok r p) ∧
  (∀ ret_ f p,
     ssa.TypeParams f ≠ [] →
     compileMember ret_ (ssa.MFunction f) p = Ok tt p) ∧
  (∀ pkg_ P,
     NewPackage pkg_ = inr P →
     length (llssa.funcs P) = length (funcsOf (ssa.Members pkg_)) ∧
     ∀ d, d ∈ decl <$> llssa.funcs P →
          ∃ nm f, (nm, ssa.MFunction f) ∈ ssa.Members pkg_ ∧
                  ssa.TypeParams f = [] ∧
                  d = (funcName (ssa.Header f), ssa.Sig (ssa.Header f))) ∧
  (∀ pkg_,
     NoDup (ssa.Pos <$> funcsOf (ssa.Members pkg_)) →
     NoDup (ssa.GPos <$> globalsOf (ssa.Members pkg_)) →
     NewPackage pkg_ = NewPackage (dropGenerics pkg_)) ∧
  (∀ ms, funcsOf ms = funcsOf (filter (λ m, ¬ generic m.2) ms)).
Proof.
  split_and!.
  - intros b self callee args p Hk.
    assert (∃ r, compileInstrAndValue b (ssa.Call self callee args) p = Ok r p)
      as [r Hr].
    { destruct (bvals p !! self) as [e|] eqn:Hc.
      - exists e. by apply compileInstrAndValue_cached.
      - exists llssa.Nil. rewrite compileInstrAndValue_Call by done.
        by rewrite Hk. }
    split; [|by exists r]. cbn [compileInstr]. unfold bind. by rewrite Hr.
  - intros ret_ f p Hg. by apply compileMember_generic.
  - intros pkg_ P HN. apply NewPackage_inr_funcs in HN. split.
    + rewrite <-(length_fmap decl), HN, length_fmap.
      apply Permutation_length. unfold funcsOf. by rewrite sortSlice_perm.
    + intros d Hd. rewrite HN in Hd.
      apply list_elem_of_fmap in Hd as (f & -> & Hf).
      apply list_elem_of_omap in Hf as ([nm m] & Hin & Hm).
      rewrite sortSlice_perm in Hin. cbn in Hm.
      destruct m as [f'| | |]; try done.
      destruct (ssa.TypeParams f') eqn:E; [|done]. simplify_eq.
      by exists nm, f.
  - intros pkg_ Hf Hg.
    apply (NewPackage_without (λ m, ¬ generic m.2)); [|done..].
    intros [nm [f|t|g|c]] Hn; cbn in *;
      try (by destruct Hn; intros []).
    split_and!; [by intros []| |by intros []].
    intros E. apply Hn. intros Hne. by apply Hne.
  - intros ms. unfold funcsOf. induction ms as [|[nm m] ms IH]; [done|].
    rewrite filter_cons. cbn. destruct m as [f| | |]; cbn; rewrite ?IH;
      try done.
    destruct (ssa.TypeParams f) eqn:E; cbn.
    + rewrite decide_True by (intros H; by apply H). cbn. by rewrite E.
    + rewrite decide_False; [done|]. intros H. by apply H.
Qed.

(** *** Forward references *)

Lemma FuncOf_lookup P k f :
  llssa.funcs P !! k = Some f →
  ∃ h, llssa.FuncOf (llssa.fname f) P = Some h ∧
       llssa.fname <$> llssa.funcs P !! h = Some (llssa.fname f) ∧
       (NoDup (llssa.fname <$> llssa.funcs P) → h = k).
Proof.
  intros Hk. unfold llssa.FuncOf.
  destruct (list_find_elem_of (λ x, llssa.fname x = llssa.fname f)
              (llssa.funcs P) f) as [[h x] Hfind];
    [by eapply list_elem_of_lookup_2 | done |].
  rewrite Hfind. exists h. apply list_find_Some in Hfind as (Hh & Hx & _).
  split_and!; [done | by rewrite Hh; cbn; rewrite Hx |].
  intros Hnd. eapply (NoDup_lookup _ _ _ (llssa.fname f) Hnd).
  - by rewrite list_lookup_fmap, Hh; cbn; rewrite Hx.
  - by rewrite list_lookup_fmap, Hk.
Qed.

Lemma VarOf_lookup P k g :
  llssa.vars P !! k = Some g →
  ∃ h, llssa.VarOf (llssa.gname g) P = Some h ∧
       llssa.gname <$> llssa.vars P !! h = Some (llssa.gname g) ∧
       (NoDup (llssa.gname <$> llssa.vars P) → h = k).
Proof.
  intros Hk. unfold llssa.VarOf.
  destruct (list_find_elem_of (λ x, llssa.gname x = llssa.gname g)
              (llssa.vars P) g) as [[h x] Hfind];
    [by eapply list_elem_of_lookup_2 | done |].
  rewrite Hfind. exists h. apply list_find_Some in Hfind as (Hh & Hx & _).
  split_and!; [done | by rewrite Hh; cbn; rewrite Hx |].
  intros Hnd. eapply (NoDup_lookup _ _ _ (llssa.gname g) Hnd).
  - by rewrite list_lookup_fmap, Hh; cbn; rewrite Hx.
  - by rewrite list_lookup_fmap, Hk.
Qed.

Lemma declared_start pkg_ ms :
  llssa.funcs (pkg (declared ms (startContext pkg_))) =
    declFunc <$> funcsOf ms ∧
  llssa.vars (pkg (declared ms (startContext pkg_))) =
    declVar <$> globalsOf ms ∧
  inits (declared ms (startContext pkg_)) = imap closure (funcsOf ms).
Proof. by split_and!. Qed.


(** *** Unsupported constructs *)

#[local] Instance within_preorder S : PreOrder (within S).
Proof.
  split; unfold within.
  - intros p. apply union_subseteq_l.
  - intros p1 p2 p3 H12 H23. etrans; [exact H23|].
    apply union_least; [exact H12|apply union_subseteq_r].
Qed.

Lemma within_emit S b o p r p' : emit b o p = Ok r p' → within S p p'.
Proof.
  intros (?&?&_&_&_&Hb&_)%emit_appends. unfold within. rewrite Hb.
  apply union_subseteq_l.
Qed.

Lemma within_remember S a e p :
  a ∈ S → within S p (setBvals (<[a:=e]> (bvals p)) p).
Proof.
  intros Ha. unfold within. cbn. rewrite dom_insert_L.
  apply union_least; [|apply union_subseteq_l].
  apply singleton_subseteq_l, elem_of_union_r, Ha.
Qed.

Lemma union_list_elem (X : gset addr) (Xs : list (gset addr)) :
  X ∈ Xs → X ⊆ ⋃ Xs.
Proof.
  intros H a Ha. apply elem_of_union_list. by exists X.
Qed.

Lemma compileValue_leaf_Ok b v p r p' :
  (∀ iv, v ≠ ssa.VInstr iv) → compileValue b v p = Ok r p' → p' = p.
Proof.
  intros Hv H. destruct v as [iv|a ps|f|g|c t|k]; cbn in H.
  - by destruct (Hv iv).
  - destruct (list_find _ ps) as [[??]|]; [|done].
    unfold fnParam in H. destruct (fn p); by inv_M.
  - unfold funcOf, bind, ret in H. destruct (llssa.FuncOf _ _); by inv_M.
  - unfold varOf, bind, ret in H. destruct (llssa.VarOf _ _); by inv_M.
  - by inv_M.
  - done.
Qed.

Lemma compileValue_within_both :
  (∀ v S b p r p',
     storedByValue v ⊆ S → compileValue b v p = Ok r p' → within S p p') ∧
  (∀ iv S b p r p',
     storedBy iv ⊆ S → compileInstrAndValue b iv p = Ok r p' →
     within S p p').
Proof.
  apply Value_InstrAndValue_ind;
    try (intros; match goal with
         | H : compileValue _ _ _ = Ok _ _ |- _ =>
             apply compileValue_leaf_Ok in H; [by subst|done]
         end).
  - intros iv IH S b p r p' HS H. by eapply IH.
  - intros a callee args IHc IHa S b p r p' HS H. cbn in HS.
    apply union_subseteq in HS as [[Ha HSc]%union_subseteq HSa].
    apply singleton_subseteq_l in Ha.
    assert (Forall (λ v, ∀ q r' q', compileValue b v q = Ok r' q' →
                                    within S q q') args) as HF.
    { apply Forall_forall. intros v Hv q r' q' Hq.
      rewrite Forall_forall in IHa. eapply (IHa v Hv S); [|done].
      etrans; [|exact HSa].
      apply (union_list_elem (storedByValue v)).
      by apply list_elem_of_fmap_2. }
    destruct (bvals p !! a) as [e|] eqn:Hc.
    { rewrite (compileInstrAndValue_cached _ _ _ e) in H by done. by inv_M. }
    rewrite compileInstrAndValue_Call in H by done.
    destruct (_ =? _)%Z; [by inv_M|]. inv_M.
    repeat match goal with
    | H1 : remember _ _ _ = Ok _ _ |- _ => apply remember_Ok in H1 as [-> ->]
    | H1 : emit _ _ _ = Ok _ _ |- _ => apply (within_emit S) in H1
    | H1 : compileValue _ _ _ = Ok _ _ |- _ => apply (IHc S) in H1; [|done]
    | H1 : compileValues _ _ _ _ = Ok _ _ |- _ =>
        apply (compileValuesWith_preserves (within S)) in H1; [|exact HF]
    end.
    etrans; [|by apply within_remember].
    by repeat (etrans; [eassumption|]).
  - intros a op X Y IHX IHY S b p r p' HS H. cbn in HS.
    apply union_subseteq in HS as [[Ha HSX]%union_subseteq HSY].
    apply singleton_subseteq_l in Ha.
    destruct (bvals p !! a) as [e|] eqn:Hc.
    { rewrite (compileInstrAndValue_cached _ _ _ e) in H by done. by inv_M. }
    rewrite compileInstrAndValue_BinOp in H by done. inv_M.
    repeat match goal with
    | H1 : remember _ _ _ = Ok _ _ |- _ => apply remember_Ok in H1 as [-> ->]
    | H1 : emit _ _ _ = Ok _ _ |- _ => apply (within_emit S) in H1
    | H1 : compileValue _ X _ = Ok _ _ |- _ => apply (IHX S) in H1; [|done]
    | H1 : compileValue _ Y _ = Ok _ _ |- _ => apply (IHY S) in H1; [|done]
    end.
    etrans; [|by apply within_remember].
    by repeat (etrans; [eassumption|]).
  - intros a op X IHX S b p r p' HS H. cbn in HS.
    apply union_subseteq in HS as [Ha HSX].
    apply singleton_subseteq_l in Ha.
    destruct (bvals p !! a) as [e|] eqn:Hc.
    { rewrite (compileInstrAndValue_cached _ _ _ e) in H by done. by inv_M. }
    rewrite compileInstrAndValue_UnOp in H by done. inv_M.
    repeat match goal with
    | H1 : remember _ _ _ = Ok _ _ |- _ => apply remember_Ok in H1 as [-> ->]
    | H1 : emit _ _ _ = Ok _ _ |- _ => apply (within_emit S) in H1
    | H1 : compileValue _ X _ = Ok _ _ |- _ => apply (IHX S) in H1; [|done]
    end.
    etrans; [|by apply within_remember].
    by repeat (etrans; [eassumption|]).
  - intros a X Y IHX IHY S b p r p' HS H. cbn in HS.
    apply union_subseteq in HS as [[Ha HSX]%union_subseteq HSY].
    apply singleton_subseteq_l in Ha.
    destruct (bvals p !! a) as [e|] eqn:Hc.
    { rewrite (compileInstrAndValue_cached _ _ _ e) in H by done. by inv_M. }
    rewrite compileInstrAndValue_IndexAddr in H by done. inv_M.
    repeat match goal with
    | H1 : remember _ _ _ = Ok _ _ |- _ => apply remember_Ok in H1 as [-> ->]
    | H1 : emit _ _ _ = Ok _ _ |- _ => apply (within_emit S) in H1
    | H1 : compileValue _ X _ = Ok _ _ |- _ => apply (IHX S) in H1; [|done]
    | H1 : compileValue _ Y _ = Ok _ _ |- _ => apply (IHY S) in H1; [|done]
    end.
    etrans; [|by apply within_remember].
    by repeat (etrans; [eassumption|]).
  - intros a t h S b p r p' HS H. cbn in HS.
    apply singleton_subseteq_l in HS.
    destruct (bvals p !! a) as [e|] eqn:Hc.
    { rewrite (compileInstrAndValue_cached _ _ _ e) in H by done. by inv_M. }
    rewrite compileInstrAndValue_Alloc in H by done. inv_M.
    repeat match goal with
    | H1 : remember _ _ _ = Ok _ _ |- _ => apply remember_Ok in H1 as [-> ->]
    | H1 : emit _ _ _ = Ok _ _ |- _ => apply (within_emit S) in H1
    end.
    etrans; [eassumption|]. by apply within_remember.
  - intros a k S b p r p' HS H.
    destruct (bvals p !! a) as [e|] eqn:Hc.
    { rewrite (compileInstrAndValue_cached _ _ _ e) in H by done. by inv_M. }
    by rewrite compileInstrAndValue_IVOther in H.
Qed.

Lemma compileInstr_within S b instr p r p' :
  storedByInstr instr ⊆ S → compileInstr b instr p = Ok r p' → within S p p'.
Proof.
  destruct compileValue_within_both as [HV HI].
  destruct instr as [iv|A V|succs|Results|Cond succs|k]; cbn; intros HS H.
  - inv_M. by eapply HI.
  - apply union_subseteq in HS as [HSA HSV]. inv_M.
    repeat match goal with
    | H1 : emit _ _ _ = Ok _ _ |- _ => apply (within_emit S) in H1
    | H1 : compileValue _ A _ = Ok _ _ |- _ => apply (HV _ S) in H1; [|done]
    | H1 : compileValue _ V _ = Ok _ _ |- _ => apply (HV _ S) in H1; [|done]
    end. by repeat (etrans; [eassumption|]).
  - destruct (succs !! 0%nat); [|done]. inv_M.
    repeat match goal with
    | H1 : emit _ _ _ = Ok _ _ |- _ => apply (within_emit S) in H1
    | H1 : fnBlock _ _ = Ok _ _ |- _ => apply fnBlock_Ok in H1 as (-> & -> & _)
    end. done.
  - inv_M.
    repeat match goal with
    | H1 : emit _ _ _ = Ok _ _ |- _ => apply (within_emit S) in H1
    | H1 : forRange _ _ _ = Ok _ _ |- _ =>
        apply (forRange_preserves (within S)) in H1;
        [|intros v q y q' Hv; apply HV; etrans; [|exact HS];
          apply (union_list_elem (storedByValue v));
          by apply list_elem_of_fmap_2]
    end. by etrans.
  - inv_M. destruct (succs !! 0%nat); [|done]. inv_M.
    destruct (succs !! 1%nat); [|done]. inv_M.
    repeat match goal with
    | H1 : emit _ _ _ = Ok _ _ |- _ => apply (within_emit S) in H1
    | H1 : fnBlock _ _ = Ok _ _ |- _ => apply fnBlock_Ok in H1 as (-> & -> & _)
    | H1 : compileValue _ _ _ = Ok _ _ |- _ => apply (HV _ S) in H1; [|done]
    end. by etrans.
  - done.
Qed.

(** In a sweep that returns, every instruction of the block was lowered
    in a context whose cache holds results of instructions of the block
    only. *)
Lemma compileInstrs_Ok_elem b block q0 q' instr :
  bvals q0 = ∅ →
  compileInstrs b (ssa.Instrs block) q0 = Ok tt q' →
  instr ∈ ssa.Instrs block →
  ∃ q1 r q2, dom (bvals q1) ⊆ storedInBlock block ∧
             compileInstr b instr q1 = Ok r q2.
Proof.
  intros H0 H Hin. unfold compileInstrs in H. inv_M.
  match goal with
  | H1 : forRange _ _ _ = Ok _ _ |- _ =>
      eapply (forRange_Ok_elem
                (λ q, dom (bvals q) ⊆ storedInBlock block)) in H1
        as (q1 & r & q2 & ? & ?); [by exists q1, r, q2| | |exact Hin]
  end.
  - intros ins q u q2 Hx Hq Hstep.
    apply (compileInstr_within (storedInBlock block)) in Hstep.
    + unfold within in Hstep. etrans; [exact Hstep|].
      by apply union_least.
    + apply (union_list_elem (storedByInstr ins)).
      by apply list_elem_of_fmap_2.
  - rewrite H0, dom_empty_L. apply empty_subseteq.
Qed.

Lemma compileBlock_Ok_sweep b block doInit q r q' :
  compileBlock b block doInit q = Ok r q' →
  ∃ q0, bvals q0 = ∅ ∧ compileInstrs b (ssa.Instrs block) q0 = Ok tt q'.
Proof.
  destruct doInit; intros H.
  - apply compileBlock_init_Ok in H as (?&?&q0&_&_&_&?&?). by exists q0.
  - apply compileBlock_plain_Ok in H as [_ H]. by exists (atBlock block q).
Qed.

Lemma compileBlocks_Ok_elem b name blocks i p r p' block :
  compileBlocks b name i blocks p = Ok r p' → block ∈ blocks →
  ∃ doInit q y q', compileBlock b block doInit q = Ok y q'.
Proof.
  revert i p. induction blocks as [|block0 blocks IH]; intros i p H Hin.
  - by apply elem_of_nil in Hin.
  - simpl in H. inv_M. apply elem_of_cons in Hin as [->|Hin]; [|by eauto].
    by repeat eexists.
Qed.

Lemma runInit_Ok_blocks d p r p' block :
  runInit d p = Ok r p' → block ∈ ssa.Blocks (d_f d) →
  ∃ doInit q y q', compileBlock (d_fn d) block doInit q = Ok y q'.
Proof.
  unfold runInit. intros H Hin. inv_M.
  destruct (ssa.Blocks (d_f d)) as [|block0 blocks] eqn:E.
  { by apply elem_of_nil in Hin. }
  cbn [length Nat.eqb] in H. inv_M.
  match goal with
  | H1 : compileBlocks _ _ _ _ _ = Ok _ _ |- _ =>
      by eapply compileBlocks_Ok_elem in H1
  end.
Qed.

Lemma funcsOf_elem ms nm f :
  (nm, ssa.MFunction f) ∈ ms → ssa.TypeParams f = [] → f ∈ funcsOf ms.
Proof.
  intros Hin Hg. apply list_elem_of_omap. exists (nm, ssa.MFunction f).
  split; [done|]. cbn. by rewrite Hg.
Qed.

(** *** Unsupported operands *)

Lemma funcKind_cases vfn :
  funcKind vfn = fnNormal ∨ funcKind vfn = fnHasVArg ∨
  funcKind vfn = fnUnsafeInit.
Proof.
  destruct vfn as [| |f| | |]; cbn; auto.
  destruct (ssa.Recv _); auto. destruct (_ =? _)%nat.
  - destruct (_ && _); auto.
  - destruct (_ !! _); auto. destruct (String.eqb _ _); auto.
Qed.

Lemma forRange_Forall_inv {A B} (Inv : context → Prop) (Q : A → Prop)
    (f : A → M B) l :
  (∀ x p y p', x ∈ l → Inv p → f x p = Ok y p' → Q x ∧ Inv p') →
  ∀ p ys p', Inv p → forRange f l p = Ok ys p' → Forall Q l ∧ Inv p'.
Proof.
  induction l as [|x0 l IH]; intros Hstep p ys p' HI H; simpl in H; inv_M.
  - by split.
  - match goal with
    | H1 : f x0 _ = Ok _ _ |- _ =>
        apply Hstep in H1 as [HQ HI1]; [|by left|done]
    end.
    match goal with
    | H2 : forRange f l _ = Ok _ _ |- _ =>
        apply IH in H2 as [HF HI2]; [by split; [constructor|]| |done]
    end.
    intros ???????. eapply Hstep; [by right|done..].
Qed.

Lemma reached_Call a callee args :
  (funcKind callee =? fnUnsafeInit)%Z = false →
  reached (ssa.VInstr (ssa.Call a callee args)) =
  ssa.VInstr (ssa.Call a callee args) ::
    reached callee ++ (args ≫= reached).
Proof. intros H. cbn. by rewrite H. Qed.

Section reached_clean.
Context (b : llssa.Builder) (L : list ssa.Value) (HL : identified L).

Lemma cached_clean iv p :
  ssa.VInstr iv ∈ L → cacheClean L p →
  is_Some (bvals p !! ssa.addrOf iv) → clean (ssa.VInstr iv).
Proof.
  intros Hin Hc Hs. destruct (Hc _ Hs) as (iv' & Hin' & Ha & Hcl).
  by rewrite <-(HL iv' iv Hin' Hin Ha).
Qed.

Lemma cacheClean_remember iv e p :
  ssa.VInstr iv ∈ L → clean (ssa.VInstr iv) → cacheClean L p →
  cacheClean L (setBvals (<[ssa.addrOf iv := e]> (bvals p)) p).
Proof.
  intros Hin Hcl Hc a Ha. cbn in Ha.
  destruct (decide (a = ssa.addrOf iv)) as [->|Hne]; [by exists iv|].
  rewrite lookup_insert_ne in Ha by done. by apply Hc.
Qed.

Lemma cacheClean_emit o p r p' :
  emit b o p = Ok r p' → cacheClean L p → cacheClean L p'.
Proof.
  intros (?&?&_&_&_&Hb&_)%emit_appends Hc a Ha. rewrite Hb in Ha.
  by apply Hc.
Qed.

Lemma compileValues_clean args kind p es p' :
  Forall (λ v, ∀ p r p', cacheClean L p → compileValue b v p = Ok r p' →
                         clean v ∧ cacheClean L p') args →
  kind = fnNormal ∨ kind = fnHasVArg →
  cacheClean L p → compileValues b args kind p = Ok es p' →
  Forall clean args ∧ cacheClean L p'.
Proof.
  intros HF [->| ->] Hc H.
  - rewrite compileValues_normal in H.
    eapply (forRange_Forall_inv (cacheClean L) clean); [|done..].
    intros v q y q' Hv Hq Hrun. rewrite Forall_forall in HF.
    by eapply HF.
  - destruct (decide (args = [])) as [->|Hne]; [done|].
    destruct (exists_last Hne) as (prefix & last & ->).
    rewrite compileValues_snoc in H. inv_M.
    apply Forall_app in HF as [HFp _].
    match goal with
    | H1 : forRange _ prefix _ = Ok _ _ |- _ =>
        eapply (forRange_Forall_inv (cacheClean L) clean) in H1
          as [Hcl Hc1]; [| |done]
    end.
    + destruct last as [| | | |[c|] t|]; try done.
      apply compileVArg_Ok in H as [_ ->]. split; [|done].
      apply Forall_app. split; [done|]. apply Forall_singleton.
      apply Forall_singleton. by intros [].
    + intros v q y q' Hv Hq Hrun. rewrite Forall_forall in HFp.
      by eapply HFp.
Qed.

Lemma compileValue_clean_both :
  (∀ v p r p',
     reached v ⊆ L → cacheClean L p → compileValue b v p = Ok r p' →
     clean v ∧ cacheClean L p') ∧
  (∀ iv p r p',
     reached (ssa.VInstr iv) ⊆ L → cacheClean L p →
     compileInstrAndValue b iv p = Ok r p' →
     clean (ssa.VInstr iv) ∧ cacheClean L p').
Proof.
  apply Value_InstrAndValue_ind.
  - intros iv IH p r p' Hs Hc H. by eapply IH.
  - intros a ps p r p' Hs Hc H.
    apply compileValue_leaf_Ok in H; [subst|done].
    split; [|done]. apply Forall_singleton. by intros [].
  - intros f p r p' Hs Hc H.
    apply compileValue_leaf_Ok in H; [subst|done].
    split; [|done]. apply Forall_singleton. by intros [].
  - intros g p r p' Hs Hc H.
    apply compileValue_leaf_Ok in H; [subst|done].
    split; [|done]. apply Forall_singleton. by intros [].
  - intros c t p r p' Hs Hc H.
    apply compileValue_leaf_Ok in H; [subst|done].
    split; [|done]. apply Forall_singleton. by intros [].
  - intros k p r p' Hs Hc H. done.
  - intros a callee args IHc IHa p r p' Hs Hc H.
    assert (ssa.VInstr (ssa.Call a callee args) ∈ L) as Hin
      by (apply Hs; left).
    destruct (bvals p !! a) as [e|] eqn:Hm.
    { rewrite (compileInstrAndValue_cached _ _ _ e) in H by done. inv_M.
      split; [|done]. eapply cached_clean; [done..|]. cbn. by rewrite Hm. }
    rewrite compileInstrAndValue_Call in H by done.
    destruct (funcKind callee =? fnUnsafeInit)%Z eqn:Hk.
    { inv_M. split; [|done]. unfold clean. cbn. rewrite Hk.
      apply Forall_singleton. by intros []. }
    rewrite (reached_Call _ _ _ Hk) in Hs.
    assert (reached callee ⊆ L) as Hsc.
    { intros u Hu. apply Hs. right. apply elem_of_app. by left. }
    assert (Forall (λ v, ∀ p r p', cacheClean L p →
                compileValue b v p = Ok r p' →
                clean v ∧ cacheClean L p') args) as HF.
    { apply Forall_forall. intros v Hv q y q' Hq Hrun.
      rewrite Forall_forall in IHa. eapply (IHa v Hv); [|done..].
      intros u Hu. apply Hs. right. apply elem_of_app. right.
      apply list_elem_of_bind. by exists v. }
    inv_M.
    match goal with
    | H1 : compileValue _ callee _ = Ok _ _ |- _ =>
        apply IHc in H1 as [Hcc Hc1]; [|done..]
    end.
    match goal with
    | H1 : compileValues _ _ _ _ = Ok _ _ |- _ =>
        apply compileValues_clean in H1 as [Hca Hc2]; [|done| |done]
    end.
    2:{ destruct (funcKind_cases callee) as [?|[?|Hu]]; auto.
        rewrite Hu in Hk. done. }
    match goal with
    | H1 : emit _ _ _ = Ok _ _ |- _ =>
        apply cacheClean_emit in H1; [|done]
    end.
    apply remember_Ok in H as [-> ->].
    assert (clean (ssa.VInstr (ssa.Call a callee args))) as Hcl.
    { unfold clean. rewrite (reached_Call _ _ _ Hk).
      apply Forall_cons. split; [by intros []|].
      apply Forall_app. split; [done|]. by apply Forall_bind. }
    split; [done|].
    by apply (cacheClean_remember (ssa.Call a callee args)).
  - intros a op X Y IHX IHY p r p' Hs Hc H.
    assert (ssa.VInstr (ssa.BinOp a op X Y) ∈ L) as Hin
      by (apply Hs; left).
    destruct (bvals p !! a) as [e|] eqn:Hm.
    { rewrite (compileInstrAndValue_cached _ _ _ e) in H by done. inv_M.
      split; [|done]. eapply cached_clean; [done..|]. cbn. by rewrite Hm. }
    rewrite compileInstrAndValue_BinOp in H by done. inv_M.
    assert (reached X ⊆ L ∧ reached Y ⊆ L) as [HsX HsY].
    { split; intros u Hu; apply Hs; right; apply elem_of_app; auto. }
    match goal with
    | H1 : compileValue _ X _ = Ok _ _ |- _ =>
        apply IHX in H1 as [HcX Hc1]; [|done..]
    end.
    match goal with
    | H1 : compileValue _ Y _ = Ok _ _ |- _ =>
        apply IHY in H1 as [HcY Hc2]; [|done..]
    end.
    match goal with
    | H1 : emit _ _ _ = Ok _ _ |- _ =>
        apply cacheClean_emit in H1; [|done]
    end.
    apply remember_Ok in H as [-> ->].
    assert (clean (ssa.VInstr (ssa.BinOp a op X Y))) as Hcl.
    { apply Forall_cons. split; [by intros []|]. by apply Forall_app. }
    split; [done|].
    by apply (cacheClean_remember (ssa.BinOp a op X Y)).
  - intros a op X IHX p r p' Hs Hc H.
    assert (ssa.VInstr (ssa.UnOp a op X) ∈ L) as Hin
      by (apply Hs; left).
    destruct (bvals p !! a) as [e|] eqn:Hm.
    { rewrite (compileInstrAndValue_cached _ _ _ e) in H by done. inv_M.
      split; [|done]. eapply cached_clean; [done..|]. cbn. by rewrite Hm. }
    rewrite compileInstrAndValue_UnOp in H by done. inv_M.
    assert (reached X ⊆ L) as HsX.
    { intros u Hu. apply Hs. by right. }
    match goal with
    | H1 : compileValue _ X _ = Ok _ _ |- _ =>
        apply IHX in H1 as [HcX Hc1]; [|done..]
    end.
    match goal with
    | H1 : emit _ _ _ = Ok _ _ |- _ =>
        apply cacheClean_emit in H1; [|done]
    end.
    apply remember_Ok in H as [-> ->].
    assert (clean (ssa.VInstr (ssa.UnOp a op X))) as Hcl.
    { apply Forall_cons. split; [by intros []|]. done. }
    split; [done|].
    by apply (cacheClean_remember (ssa.UnOp a op X)).
  - intros a X Y IHX IHY p r p' Hs Hc H.
    assert (ssa.VInstr (ssa.IndexAddr a X Y) ∈ L) as Hin
      by (apply Hs; left).
    destruct (bvals p !! a) as [e|] eqn:Hm.
    { rewrite (compileInstrAndValue_cached _ _ _ e) in H by done. inv_M.
      split; [|done]. eapply cached_clean; [done..|]. cbn. by rewrite Hm. }
    rewrite compileInstrAndValue_IndexAddr in H by done. inv_M.
    assert (reached X ⊆ L ∧ reached Y ⊆ L) as [HsX HsY].
    { split; intros u Hu; apply Hs; right; apply elem_of_app; auto. }
    match goal with
    | H1 : compileValue _ X _ = Ok _ _ |- _ =>
        apply IHX in H1 as [HcX Hc1]; [|done..]
    end.
    match goal with
    | H1 : compileValue _ Y _ = Ok _ _ |- _ =>
        apply IHY in H1 as [HcY Hc2]; [|done..]
    end.
    match goal with
    | H1 : emit _ _ _ = Ok _ _ |- _ =>
        apply cacheClean_emit in H1; [|done]
    end.
    apply remember_Ok in H as [-> ->].
    assert (clean (ssa.VInstr (ssa.IndexAddr a X Y))) as Hcl.
    { apply Forall_cons. split; [by intros []|]. by apply Forall_app. }
    split; [done|].
    by apply (cacheClean_remember (ssa.IndexAddr a X Y)).
  - intros a t h p r p' Hs Hc H.
    assert (ssa.VInstr (ssa.Alloc a t h) ∈ L) as Hin
      by (apply Hs; left).
    destruct (bvals p !! a) as [e|] eqn:Hm.
    { rewrite (compileInstrAndValue_cached _ _ _ e) in H by done. inv_M.
      split; [|done]. eapply cached_clean; [done..|]. cbn. by rewrite Hm. }
    rewrite compileInstrAndValue_Alloc in H by done. inv_M.
    match goal with
    | H1 : emit _ _ _ = Ok _ _ |- _ =>
        apply cacheClean_emit in H1; [|done]
    end.
    apply remember_Ok in H as [-> ->].
    assert (clean (ssa.VInstr (ssa.Alloc a t h))) as Hcl.
    { apply Forall_singleton. by intros []. }
    split; [done|].
    by apply (cacheClean_remember (ssa.Alloc a t h)).
  - intros a k p r p' Hs Hc H.
    assert (ssa.VInstr (ssa.IVOther a k) ∈ L) as Hin
      by (apply Hs; left).
    destruct (bvals p !! a) as [e|] eqn:Hm.
    { rewrite (compileInstrAndValue_cached _ _ _ e) in H by done. inv_M.
      split; [|done]. eapply cached_clean; [done..|]. cbn. by rewrite Hm. }
    by rewrite compileInstrAndValue_IVOther in H.
Qed.

Lemma compileInstr_clean instr p r p' :
  reachedByInstr instr ⊆ L → cacheClean L p →
  compileInstr b instr p = Ok r p' → cleanInstr instr ∧ cacheClean L p'.
Proof.
  destruct compileValue_clean_both as [HV HI].
  destruct instr as [iv|A V|succs|Results|Cond succs|k]; cbn;
    intros Hs Hc H.
  - inv_M.
    match goal with
    | H1 : compileInstrAndValue _ _ _ = Ok _ _ |- _ =>
        apply HI in H1 as [? ?]; [|done..]
    end.
    split; [|done]. by split.
  - inv_M.
    assert (reached A ⊆ L ∧ reached V ⊆ L) as [HsA HsV].
    { split; intros u Hu; apply Hs; apply elem_of_app; auto. }
    match goal with
    | H1 : compileValue _ A _ = Ok _ _ |- _ =>
        apply HV in H1 as [HcA Hc1]; [|done..]
    end.
    match goal with
    | H1 : compileValue _ V _ = Ok _ _ |- _ =>
        apply HV in H1 as [HcV Hc2]; [|done..]
    end.
    match goal with
    | H1 : emit _ _ _ = Ok _ _ |- _ =>
        apply cacheClean_emit in H1; [|done]
    end.
    split; [|done]. split; [done|]. by apply Forall_app.
  - destruct (succs !! 0%nat); [|done]. inv_M.
    match goal with
    | H1 : fnBlock _ _ = Ok _ _ |- _ => apply fnBlock_Ok in H1 as (-> & -> & _)
    end.
    match goal with
    | H1 : emit _ _ _ = Ok _ _ |- _ =>
        apply cacheClean_emit in H1; [|done]
    end.
    split; [|done]. split; [done|constructor].
  - inv_M.
    match goal with
    | H1 : forRange _ _ _ = Ok _ _ |- _ =>
        eapply (forRange_Forall_inv (cacheClean L) clean) in H1
          as [Hcl Hc1]; [| |done]
    end.
    + match goal with
      | H1 : emit _ _ _ = Ok _ _ |- _ =>
          apply cacheClean_emit in H1; [|done]
      end.
      split; [|done]. split; [done|]. by apply Forall_bind.
    + intros v q y q' Hv Hq Hrun. eapply HV; [|done..].
      intros u Hu. apply Hs. apply list_elem_of_bind. by exists v.
  - inv_M. destruct (succs !! 0%nat); [|done]. inv_M.
    destruct (succs !! 1%nat); [|done]. inv_M.
    match goal with
    | H1 : compileValue _ _ _ = Ok _ _ |- _ =>
        apply HV in H1 as [HcC Hc1]; [|done..]
    end.
    repeat match goal with
    | H1 : fnBlock _ _ = Ok _ _ |- _ => apply fnBlock_Ok in H1 as (-> & -> & _)
    end.
    match goal with
    | H1 : emit _ _ _ = Ok _ _ |- _ =>
        apply cacheClean_emit in H1; [|done]
    end.
    split; [|done]. by split.
  - done.
Qed.
End reached_clean.

(** A block with an instruction that has no rule, or that comes to a
    value that has none, is not built. *)
Lemma compileBlock_unsupported b block doInit p instr :
  instr ∈ ssa.Instrs block → usesUnsupported instr →
  identified (reachedInBlock block) →
  ∃ e, compileBlock b block doInit p = Panic e.
Proof.
  intros Hin Hu Hid.
  destruct (compileBlock b block doInit p) as [r p'|e] eqn:H;
    [exfalso|by exists e].
  apply compileBlock_Ok_sweep in H as (q0 & Hq0 & Hsweep).
  unfold compileInstrs in Hsweep. inv_M.
  match goal with
  | H1 : forRange _ _ _ = Ok _ _ |- _ =>
      eapply (forRange_Forall_inv (cacheClean (reachedInBlock block))
                cleanInstr) in H1 as [Hcl _]
  end.
  - rewrite Forall_forall in Hcl. destruct (Hcl instr Hin) as [Hk Hr].
    destruct instr as [iv|A V|succs|Results|Cond succs|k]; cbn in Hu;
      try (apply Exists_exists in Hu as (u & Hu1 & Hu2);
           rewrite Forall_forall in Hr; by apply (Hr u)).
    by apply (Hk k).
  - intros ins q y q' Hins Hq Hrun.
    eapply compileInstr_clean; [done| |done..].
    intros u Hu'. apply list_elem_of_bind. by exists ins.
  - intros a [e Ha]. by rewrite Hq0 in Ha.
Qed.

(** *** What a panic value reports *)

Lemma reportedIn_mono e (l l' : list ssa.Value) :
  l ⊆ l' → reportedIn e l → reportedIn e l'.
Proof.
  intros Hl. destruct e as [|k|k|[k|]|nm|r]; cbn; try done.
  - intros [a Ha]. exists a. by apply Hl.
  - apply Hl.
Qed.

Lemma emit_Panic b o p e : emit b o p = Panic e → ∃ r, e = RuntimeError r.
Proof.
  unfold emit. destruct (cursor p); [|intros [= <-]; by eexists].
  destruct (llssa.opsOf _ _ _); [done|]. intros [= <-]. by eexists.
Qed.

Lemma fnBlock_Panic idx p e : fnBlock idx p = Panic e → ∃ r, e = RuntimeError r.
Proof.
  unfold fnBlock. destruct (fn p); [|intros [= <-]; by eexists].
  destruct (llssa.opsOf _ _ _); [done|]. intros [= <-]. by eexists.
Qed.

Lemma callMainInit_Panic b p e :
  callMainInit b p = Panic e → ∃ r, e = RuntimeError r.
Proof.
  unfold callMainInit, bind, get.
  destruct (llssa.FuncOf _ _); [|intros [= <-]; by eexists].
  destruct (emit _ _ _) as [|e'] eqn:E; [done|]. intros [= <-].
  by eapply emit_Panic.
Qed.

Lemma remember_no_Panic a r p e : remember a r p = Panic e → False.
Proof. done. Qed.

Lemma forRange_reports b (vals : list ssa.Value) p e :
  Forall (λ v, ∀ p e, compileValue b v p = Panic e →
                      reportedIn e (reached v)) vals →
  forRange (compileValue b) vals p = Panic e →
  reportedIn e (vals ≫= reached).
Proof.
  intros HF (l1 & x & l2 & ys & p1 & -> & _ & Hx)%forRange_Panic.
  apply Forall_app in HF as [_ [HF _]%Forall_cons].
  eapply reportedIn_mono; [|by eapply HF].
  intros u Hu. apply list_elem_of_bind. exists x. split; [done|].
  apply elem_of_app. right. by left.
Qed.

Lemma compileValues_reports b args kind p e :
  Forall (λ v, ∀ p e, compileValue b v p = Panic e →
                      reportedIn e (reached v)) args →
  kind = fnNormal ∨ kind = fnHasVArg →
  compileValues b args kind p = Panic e →
  reportedIn e (args ≫= reached).
Proof.
  intros HF [->| ->] H.
  - rewrite compileValues_normal in H. by apply (forRange_reports b args p).
  - destruct (decide (args = [])) as [->|Hne].
    { change (compileValues b [] fnHasVArg p)
        with (@Panic (list llssa.Expr) (RuntimeError MakesliceLen)) in H.
      by simplify_eq. }
    destruct (exists_last Hne) as (prefix & last & ->).
    rewrite compileValues_snoc in H.
    apply bind_Panic in H as [H|(es & p1 & _ & H)].
    + apply Forall_app in HF as [HFp _].
      eapply reportedIn_mono; [|by apply (forRange_reports b prefix p)].
      intros u Hu. rewrite bind_app. apply elem_of_app. by left.
    + assert (e = Todo) as ->; [|done].
      destruct last as [| | | |[c|] t|]; cbn in H; unfold panic, ret in H;
        by simplify_eq.
Qed.

(** The tail of every lowering rule: emitting panics with a run-time
    error only, and storing the result does not panic. *)
Ltac tail_Panic H :=
  apply bind_Panic in H as [H|(?&?&_&H)];
  [apply emit_Panic in H as [? ->]; exact I
  |by apply remember_no_Panic in H].

Lemma compileValue_reports_both b :
  (∀ v p e, compileValue b v p = Panic e → reportedIn e (reached v)) ∧
  (∀ iv p e, compileInstrAndValue b iv p = Panic e →
             reportedIn e (reached (ssa.VInstr iv))).
Proof.
  apply Value_InstrAndValue_ind.
  - intros iv IH p e H. by eapply IH.
  - intros a ps p e H. cbn in H.
    destruct (list_find _ ps) as [[??]|];
      [|unfold panic in H; by simplify_eq].
    unfold fnParam in H. destruct (fn p); by simplify_eq.
  - intros f p e H. cbn in H. unfold bind, funcOf, ret in H.
    destruct (llssa.FuncOf _ _); by simplify_eq.
  - intros g p e H. cbn in H. unfold bind, varOf, ret in H.
    destruct (llssa.VarOf _ _); by simplify_eq.
  - intros c t p e H. done.
  - intros k p e [= <-]. cbn. by left.
  - intros a callee args IHc IHa p e H.
    destruct (bvals p !! a) as [e'|] eqn:Hm.
    { by rewrite (compileInstrAndValue_cached _ _ _ e') in H. }
    rewrite compileInstrAndValue_Call in H by done.
    destruct (funcKind callee =? fnUnsafeInit)%Z eqn:Hk; [done|].
    rewrite (reached_Call _ _ _ Hk).
    apply bind_Panic in H as [H|(fe & p1 & _ & H)].
    { eapply reportedIn_mono; [|by eapply IHc].
      intros u Hu. right. apply elem_of_app. by left. }
    apply bind_Panic in H as [H|(es & p2 & _ & H)].
    { eapply reportedIn_mono; [|eapply compileValues_reports; [| |exact H]].
      - intros u Hu. right. apply elem_of_app. by right.
      - eapply Forall_impl; [exact IHa|]. intros v Hv q e0. apply Hv.
      - destruct (funcKind_cases callee) as [?|[?|Hu]]; auto.
        rewrite Hu in Hk. done. }
    tail_Panic H.
  - intros a op X Y IHX IHY p e H.
    destruct (bvals p !! a) as [e'|] eqn:Hm.
    { by rewrite (compileInstrAndValue_cached _ _ _ e') in H. }
    rewrite compileInstrAndValue_BinOp in H by done.
    apply bind_Panic in H as [H|(x & p1 & _ & H)].
    { eapply reportedIn_mono; [|by eapply IHX].
      intros u Hu. right. apply elem_of_app. by left. }
    apply bind_Panic in H as [H|(y & p2 & _ & H)].
    { eapply reportedIn_mono; [|by eapply IHY].
      intros u Hu. right. apply elem_of_app. by right. }
    tail_Panic H.
  - intros a op X IHX p e H.
    destruct (bvals p !! a) as [e'|] eqn:Hm.
    { by rewrite (compileInstrAndValue_cached _ _ _ e') in H. }
    rewrite compileInstrAndValue_UnOp in H by done.
    apply bind_Panic in H as [H|(x & p1 & _ & H)].
    { eapply reportedIn_mono; [|by eapply IHX]. intros u Hu. by right. }
    tail_Panic H.
  - intros a X Y IHX IHY p e H.
    destruct (bvals p !! a) as [e'|] eqn:Hm.
    { by rewrite (compileInstrAndValue_cached _ _ _ e') in H. }
    rewrite compileInstrAndValue_IndexAddr in H by done.
    apply bind_Panic in H as [H|(x & p1 & _ & H)].
    { eapply reportedIn_mono; [|by eapply IHX].
      intros u Hu. right. apply elem_of_app. by left. }
    apply bind_Panic in H as [H|(y & p2 & _ & H)].
    { eapply reportedIn_mono; [|by eapply IHY].
      intros u Hu. right. apply elem_of_app. by right. }
    tail_Panic H.
  - intros a t h p e H.
    destruct (bvals p !! a) as [e'|] eqn:Hm.
    { by rewrite (compileInstrAndValue_cached _ _ _ e') in H. }
    rewrite compileInstrAndValue_Alloc in H by done.
    tail_Panic H.
  - intros a k p e H.
    destruct (bvals p !! a) as [e'|] eqn:Hm.
    { by rewrite (compileInstrAndValue_cached _ _ _ e') in H. }
    rewrite compileInstrAndValue_IVOther in H by done.
    simplify_eq. cbn. exists a. by left.
Qed.

Lemma reportedIn_Instr e instr :
  reportedIn e (reachedByInstr instr) → reportedInInstr e instr.
Proof. by destruct e. Qed.

Lemma compileInstr_reports b instr p e :
  compileInstr b instr p = Panic e → reportedInInstr e instr.
Proof.
  destruct (compileValue_reports_both b) as [HV HI].
  destruct instr as [iv|A V|succs|Results|Cond succs|k]; cbn; intros H.
  - apply bind_Panic in H as [H|(?&?&_&H)]; [|done].
    apply reportedIn_Instr. by eapply HI.
  - apply reportedIn_Instr. cbn.
    apply bind_Panic in H as [H|(x & p1 & _ & H)].
    { eapply reportedIn_mono; [|by eapply HV].
      intros u Hu. apply elem_of_app. by left. }
    apply bind_Panic in H as [H|(y & p2 & _ & H)].
    { eapply reportedIn_mono; [|by eapply HV].
      intros u Hu. apply elem_of_app. by right. }
    apply bind_Panic in H as [H|(?&?&_&H)]; [|done].
    by apply emit_Panic in H as [? ->].
  - destruct (succs !! 0%nat); [|unfold panic in H; by simplify_eq].
    apply bind_Panic in H as [H|(?&?&_&H)].
    { by apply fnBlock_Panic in H as [? ->]. }
    apply bind_Panic in H as [H|(?&?&_&H)]; [|done].
    by apply emit_Panic in H as [? ->].
  - apply reportedIn_Instr. cbn.
    apply bind_Panic in H as [H|(?&?&_&H)].
    { apply forRange_reports in H; [done|].
      apply Forall_forall. intros v _ q e0. apply HV. }
    apply bind_Panic in H as [H|(?&?&_&H)]; [|done].
    by apply emit_Panic in H as [? ->].
  - apply reportedIn_Instr. cbn.
    apply bind_Panic in H as [H|(c & p1 & _ & H)]; [by eapply HV|].
    destruct (succs !! 0%nat); [|unfold panic in H; by simplify_eq].
    apply bind_Panic in H as [H|(?&?&_&H)].
    { by apply fnBlock_Panic in H as [? ->]. }
    destruct (succs !! 1%nat); [|unfold panic in H; by simplify_eq].
    apply bind_Panic in H as [H|(?&?&_&H)].
    { by apply fnBlock_Panic in H as [? ->]. }
    apply bind_Panic in H as [H|(?&?&_&H)]; [|done].
    by apply emit_Panic in H as [? ->].
  - unfold panic in H. by simplify_eq.
Qed.

Lemma compileBlock_reports b block doInit p e :
  compileBlock b block doInit p = Panic e → reportedInBlock e block.
Proof.
  unfold compileBlock. intros H.
  apply bind_Panic in H as [H|(?&?&_&H)].
  { by apply fnBlock_Panic in H as [? ->]. }
  apply bind_Panic in H as [H|(?&?&_&H)]; [done|].
  apply bind_Panic in H as [H|(?&?&_&H)]; [done|].
  apply bind_Panic in H as [H|(?&?&_&H)].
  { destruct doInit; [|done]. by apply callMainInit_Panic in H as [? ->]. }
  apply bind_Panic in H as [H|(?&?&_&H)]; [|done].
  unfold compileInstrs in H.
  apply bind_Panic in H as [H|(?&?&_&H)]; [|done].
  apply forRange_Panic in H as (l1 & instr & l2 & ys & p1 & Hl & _ & Hi).
  apply compileInstr_reports in Hi.
  assert (instr ∈ ssa.Instrs block) as Hin.
  { rewrite Hl. apply elem_of_app. right. by left. }
  assert (reachedByInstr instr ⊆ reachedInBlock block) as Hsub.
  { intros u Hu. apply list_elem_of_bind. by exists instr. }
  destruct e as [|k|k|[k|]|nm|r]; cbn in *; try done.
  - destruct Hi as [a Ha]. exists a. by apply Hsub.
  - by subst.
  - by apply Hsub.
Qed.

Lemma compileBlocks_Panic b name blocks i p e :
  compileBlocks b name i blocks p = Panic e →
  ∃ block doInit q, block ∈ blocks ∧
                    compileBlock b block doInit q = Panic e.
Proof.
  revert i p. induction blocks as [|block blocks IH]; intros i p H;
    simpl in H; [done|].
  apply bind_Panic in H as [H|(?&?&_&H)].
  - eexists block, _, p. split; [by left|done].
  - apply IH in H as (block' & doInit & q & Hin & H).
    exists block', doInit, q. split; [by right|done].
Qed.

Lemma runInit_Panic d p e :
  runInit d p = Panic e →
  ∃ block doInit q, block ∈ ssa.Blocks (d_f d) ∧
                    compileBlock (d_fn d) block doInit q = Panic e.
Proof.
  unfold runInit. intros H.
  apply bind_Panic in H as [H|(?&?&_&H)]; [done|].
  destruct (_ =? _)%nat; [done|].
  apply bind_Panic in H as [H|(?&?&_&H)]; [done|].
  apply bind_Panic in H as [H|(?&?&_&H)]; [|done].
  by apply compileBlocks_Panic in H.
Qed.

(** A translation that fails on a package without type members fails in
    a block of a compiled function, and a panic value that names a kind
    names the kind of a construct of that block. *)
Lemma NewPackage_inl_reports pkg_ e :
  NewPackage pkg_ = inl e →
  (Exists (λ m, isType m.2) (ssa.Members pkg_) ∧ e = Todo) ∨
  ∃ nm f block,
    (nm, ssa.MFunction f) ∈ ssa.Members pkg_ ∧ ssa.TypeParams f = [] ∧
    block ∈ ssa.Blocks f ∧ reportedInBlock e block.
Proof.
  rewrite NewPackage_phases.
  destruct (decide (Exists (λ m, isType m.2) (ssa.Members pkg_))) as [Ht|Ht].
  { rewrite declareMembers_type by (by rewrite sortSlice_perm).
    intros [= <-]. by left. }
  apply Forall_Exists_neg in Ht.
  rewrite declareMembers_Ok by (by rewrite sortSlice_perm).
  destruct (forRange runInit _ _) as [us p'|e'] eqn:Hr; [done|].
  intros [= ->]. right.
  apply forRange_Panic in Hr as (l1 & d & l2 & ys & p1 & Hl & _ & Hd).
  assert (d ∈ imap closure (funcsOf (sortSlice (ssa.Members pkg_)))) as Hin.
  { change (imap closure (funcsOf (sortSlice (ssa.Members pkg_))))
      with (inits (declared (sortSlice (ssa.Members pkg_))
                     (startContext pkg_))).
    rewrite Hl. apply elem_of_app. right. by left. }
  apply elem_of_lookup_imap in Hin as (k & f & -> & Hk).
  apply list_elem_of_lookup_2, list_elem_of_omap in Hk
    as ([nm m] & Hm & Hf).
  rewrite sortSlice_perm in Hm. cbn in Hf.
  destruct m as [f'| | |]; try done.
  destruct (ssa.TypeParams f') eqn:E; [|done]. simplify_eq.
  apply runInit_Panic in Hd as (block & doInit & q & Hb & Hblk).
  exists nm, f, block. split_and!; [done..|].
  by eapply compileBlock_reports.
Qed.

Lemma NewPackage_block_fails pkg_ nm f block :
  (nm, ssa.MFunction f) ∈ ssa.Members pkg_ → ssa.TypeParams f = [] →
  block ∈ ssa.Blocks f →
  (∀ b doInit q, ∃ e, compileBlock b block doInit q = Panic e) →
  ∃ e, NewPackage pkg_ = inl e.
Proof.
  intros Hm Hg Hb Hfail.
  destruct (NewPackage pkg_) as [e|P] eqn:HN; [by exists e|]. exfalso.
  rewrite NewPackage_phases in HN.
  destruct (declareMembers _ _ _) as [[] p|] eqn:Hd; [|done].
  destruct (forRange runInit (inits p) p) as [us p'|] eqn:Hr; [|done].
  apply declareMembers_Ok_inv in Hd as [_ Hp].
  assert (inits p = imap closure (funcsOf (sortSlice (ssa.Members pkg_))))
    as Hinits by (rewrite Hp; apply declared_start).
  assert (f ∈ funcsOf (sortSlice (ssa.Members pkg_))) as Hf.
  { eapply funcsOf_elem; [|done]. by rewrite sortSlice_perm. }
  apply list_elem_of_lookup in Hf as [k Hk].
  assert (closure k f ∈ inits p) as Hcl.
  { rewrite Hinits. apply list_elem_of_lookup. exists k.
    by rewrite list_lookup_imap, Hk. }
  eapply (forRange_Ok_elem (λ _, True)) in Hr
    as (p1 & y & p2 & _ & Hrun); [|done|done|exact Hcl].
  eapply runInit_Ok_blocks in Hrun as (doInit & q & y' & q' & Hblk);
    [|exact Hb].
  destruct (Hfail (d_fn (closure k f)) doInit q) as [e He]. congruence.
Qed.


(** * Further properties of compile.go *)

(** ** Debug flags *)

Lemma land_pow2 (f k : Z) :
  (0 ≤ k)%Z →
  Z.land f (2 ^ k) = if Z.testbit f k then (2 ^ k)%Z else 0%Z.
Proof.
  intros Hk. apply Z.bits_inj'. intros n Hn.
  rewrite Z.land_spec, Z.pow2_bits_eqb by done.
  destruct (Z.eqb_spec k n) as [->|Hne].
  - destruct (Z.testbit f n) eqn:E; cbn.
    + by rewrite Z.pow2_bits_true.
    + by rewrite Z.bits_0.
  - rewrite andb_false_r. destruct (Z.testbit f k).
    + by rewrite Z.pow2_bits_false.
    + by rewrite Z.bits_0.
Qed.

Lemma SetDebug_bits f :
  SetDebug f =
  {| debugInstr := Z.testbit f 0; debugGoSSA := Z.testbit f 1 |}.
Proof.
  unfold SetDebug, DbgFlagInstruction, DbgFlagGoSSA.
  change (Z.shiftl 1 0) with (2 ^ 0)%Z. change (Z.shiftl 1 1) with (2 ^ 1)%Z.
  rewrite !land_pow2 by done.
  by destruct (Z.testbit f 0), (Z.testbit f 1).
Qed.

(** X1.  [SetDebug] reads bit 0 of its argument into [debugInstr] and bit 1
    into [debugGoSSA] and nothing else: the bits above are ignored, the
    flags of a union are the union of the flags, [DbgFlagAll] switches both
    on and 0 both off. *)
Theorem SetDebug_reads_two_bits (f g : Z) :
  debugInstr (SetDebug f) = Z.testbit f 0 ∧
  debugGoSSA (SetDebug f) = Z.testbit f 1 ∧
  SetDebug (Z.land f DbgFlagAll) = SetDebug f ∧
  debugInstr (SetDebug (Z.lor f g)) =
    debugInstr (SetDebug f) || debugInstr (SetDebug g) ∧
  debugGoSSA (SetDebug (Z.lor f g)) =
    debugGoSSA (SetDebug f) || debugGoSSA (SetDebug g) ∧
  SetDebug DbgFlagAll = {| debugInstr := true; debugGoSSA := true |} ∧
  SetDebug 0 = {| debugInstr := false; debugGoSSA := false |}.
Proof.
  rewrite !SetDebug_bits. cbn [debugInstr debugGoSSA].
  rewrite !Z.land_spec, !Z.lor_spec.
  change (Z.testbit DbgFlagAll 0) with true.
  change (Z.testbit DbgFlagAll 1) with true.
  by rewrite !andb_true_r.
Qed.

(** ** What a relation has to allow to hold across lowering *)
Section preservation.
Context (R : relation context) `{!PreOrder R} (b : llssa.Builder).
Hypothesis R_emit : ∀ o p r p', emit b o p = Ok r p' → R p p'.
Hypothesis R_remember : ∀ o a p r p',
  emit b o p = Ok r p' → R p (setBvals (<[a:=r]> (bvals p')) p').

Lemma compileValue_preserves_both :
  (∀ v p r p', compileValue b v p = Ok r p' → R p p') ∧
  (∀ iv p r p', compileInstrAndValue b iv p = Ok r p' → R p p').
Proof.
  apply Value_InstrAndValue_ind;
    try (intros; match goal with
         | H : compileValue _ _ _ = Ok _ _ |- _ =>
             apply compileValue_leaf_Ok in H; [by subst|done]
         end).
  - intros iv IH p r p' H. by eapply IH.
  - intros a callee args IHc IHa p r p' H.
    destruct (bvals p !! a) as [e|] eqn:Hc.
    { rewrite (compileInstrAndValue_cached _ _ _ e) in H by done. by inv_M. }
    rewrite compileInstrAndValue_Call in H by done.
    destruct (_ =? _)%Z; [by inv_M|]. inv_M.
    repeat match goal with
    | H1 : remember _ _ _ = Ok _ _ |- _ => apply remember_Ok in H1 as [-> ->]
    | H1 : emit _ _ _ = Ok _ _ |- _ => apply (R_remember _ a) in H1
    | H1 : compileValue _ _ _ = Ok _ _ |- _ => apply IHc in H1
    | H1 : compileValues _ _ _ _ = Ok _ _ |- _ =>
        apply (compileValuesWith_preserves R) in H1; [|exact IHa]
    end.
    by repeat (etrans; [eassumption|]).
  - intros a op X Y IHX IHY p r p' H.
    destruct (bvals p !! a) as [e|] eqn:Hc.
    { rewrite (compileInstrAndValue_cached _ _ _ e) in H by done. by inv_M. }
    rewrite compileInstrAndValue_BinOp in H by done. inv_M.
    repeat match goal with
    | H1 : remember _ _ _ = Ok _ _ |- _ => apply remember_Ok in H1 as [-> ->]
    | H1 : emit _ _ _ = Ok _ _ |- _ => apply (R_remember _ a) in H1
    | H1 : compileValue _ X _ = Ok _ _ |- _ => apply IHX in H1
    | H1 : compileValue _ Y _ = Ok _ _ |- _ => apply IHY in H1
    end.
    by repeat (etrans; [eassumption|]).
  - intros a op X IHX p r p' H.
    destruct (bvals p !! a) as [e|] eqn:Hc.
    { rewrite (compileInstrAndValue_cached _ _ _ e) in H by done. by inv_M. }
    rewrite compileInstrAndValue_UnOp in H by done. inv_M.
    repeat match goal with
    | H1 : remember _ _ _ = Ok _ _ |- _ => apply remember_Ok in H1 as [-> ->]
    | H1 : emit _ _ _ = Ok _ _ |- _ => apply (R_remember _ a) in H1
    | H1 : compileValue _ X _ = Ok _ _ |- _ => apply IHX in H1
    end.
    by repeat (etrans; [eassumption|]).
  - intros a X Y IHX IHY p r p' H.
    destruct (bvals p !! a) as [e|] eqn:Hc.
    { rewrite (compileInstrAndValue_cached _ _ _ e) in H by done. by inv_M. }
    rewrite compileInstrAndValue_IndexAddr in H by done. inv_M.
    repeat match goal with
    | H1 : remember _ _ _ = Ok _ _ |- _ => apply remember_Ok in H1 as [-> ->]
    | H1 : emit _ _ _ = Ok _ _ |- _ => apply (R_remember _ a) in H1
    | H1 : compileValue _ X _ = Ok _ _ |- _ => apply IHX in H1
    | H1 : compileValue _ Y _ = Ok _ _ |- _ => apply IHY in H1
    end.
    by repeat (etrans; [eassumption|]).
  - intros a t h p r p' H.
    destruct (bvals p !! a) as [e|] eqn:Hc.
    { rewrite (compileInstrAndValue_cached _ _ _ e) in H by done. by inv_M. }
    rewrite compileInstrAndValue_Alloc in H by done. inv_M.
    repeat match goal with
    | H1 : remember _ _ _ = Ok _ _ |- _ => apply remember_Ok in H1 as [-> ->]
    | H1 : emit _ _ _ = Ok _ _ |- _ => apply (R_remember _ a) in H1
    end.
    done.
  - intros a k p r p' H.
    destruct (bvals p !! a) as [e|] eqn:Hc.
    { rewrite (compileInstrAndValue_cached _ _ _ e) in H by done. by inv_M. }
    by rewrite compileInstrAndValue_IVOther in H.
Qed.

Lemma compileInstr_preserves instr p r p' :
  compileInstr b instr p = Ok r p' → R p p'.
Proof.
  destruct compileValue_preserves_both as [HV HI].
  destruct instr as [iv|A V|succs|Results|Cond succs|k]; cbn; intros H.
  - inv_M. by eapply HI.
  - inv_M.
    repeat match goal with
    | H1 : emit _ _ _ = Ok _ _ |- _ => apply R_emit in H1
    | H1 : compileValue _ _ _ = Ok _ _ |- _ => apply HV in H1
    end. by repeat (etrans; [eassumption|]).
  - destruct (succs !! 0%nat); [|done]. inv_M.
    repeat match goal with
    | H1 : emit _ _ _ = Ok _ _ |- _ => apply R_emit in H1
    | H1 : fnBlock _ _ = Ok _ _ |- _ => apply fnBlock_Ok in H1 as (-> & -> & _)
    end. done.
  - inv_M.
    repeat match goal with
    | H1 : emit _ _ _ = Ok _ _ |- _ => apply R_emit in H1
    | H1 : forRange _ _ _ = Ok _ _ |- _ =>
        apply (forRange_preserves R) in H1; [|by intros; eapply HV]
    end. by etrans.
  - inv_M. destruct (succs !! 0%nat); [|done]. inv_M.
    destruct (succs !! 1%nat); [|done]. inv_M.
    repeat match goal with
    | H1 : emit _ _ _ = Ok _ _ |- _ => apply R_emit in H1
    | H1 : fnBlock _ _ = Ok _ _ |- _ => apply fnBlock_Ok in H1 as (-> & -> & _)
    | H1 : compileValue _ _ _ = Ok _ _ |- _ => apply HV in H1
    end. by etrans.
  - done.
Qed.

Lemma compileInstrs_preserves l p r p' :
  compileInstrs b l p = Ok r p' → R p p'.
Proof.
  unfold compileInstrs. intros H. inv_M.
  eapply (forRange_preserves R); [|done].
  intros. by eapply compileInstr_preserves.
Qed.
End preservation.

(** ** Lowering writes to the insertion block only *)

Lemma shape_appendOp h i o P : shape (llssa.appendOp h i o P) = shape P.
Proof.
  unfold shape, llssa.appendOp. cbn. apply list_eq. intros j.
  rewrite !list_lookup_fmap, list_lookup_alter.
  case_decide; [subst j|done].
  destruct (llssa.funcs P !! h); [|done]. cbn. by rewrite length_alter.
Qed.

#[local] Instance appendsAt_preorder b : PreOrder (appendsAt b).
Proof.
  split.
  - intros p. by split_and!.
  - intros p1 p2 p3 (Hc1&?&?&?&?&?&?&?&H12) (Hc2&?&?&?&?&?&?&?&H23).
    split_and!; try congruence.
    intros h i Hhi. rewrite H23, H12; [done..|]. by rewrite Hc1.
Qed.

Lemma emit_appendsAt b o p r p' : emit b o p = Ok r p' → appendsAt b p p'.
Proof.
  intros (i & ops & Hc & _ & _ & ->)%emit_Ok. split_and!; try done.
  - apply decl_alter_blocks.
  - apply shape_appendOp.
  - intros h j Hhj. cbn. rewrite opsOf_appendOp.
    rewrite decide_False; [by destruct (llssa.opsOf h j (pkg p))|].
    intros [-> ->]. by destruct Hhj.
Qed.

Lemma setBvals_appendsAt b m p : appendsAt b p (setBvals m p).
Proof. by split_and!. Qed.

Lemma emit_remember_appendsAt b o a p r p' :
  emit b o p = Ok r p' → appendsAt b p (setBvals (<[a:=r]> (bvals p')) p').
Proof.
  intros H. etrans; [by eapply emit_appendsAt|apply setBvals_appendsAt].
Qed.

(** X2.  Lowering an instruction or a value changes the package only by
    appending operations to the insertion block of the builder: the
    declarations, the number of blocks of every function, the operations
    of every other block, [fn], [inits] and the insertion block are as
    before, and what the insertion block held is still at its start. *)
Theorem lowering_writes_insertion_block_only (b : llssa.Builder) :
  (∀ instr p r p',
     compileInstr b instr p = Ok r p' →
     appendsAt b p p' ∧
     ∀ i ops, cursor p = Some i → llssa.opsOf b i (pkg p) = Some ops →
              ∃ more, llssa.opsOf b i (pkg p') = Some (ops ++ more)) ∧
  (∀ v p r p',
     compileValue b v p = Ok r p' →
     appendsAt b p p' ∧
     ∀ i ops, cursor p = Some i → llssa.opsOf b i (pkg p) = Some ops →
              ∃ more, llssa.opsOf b i (pkg p') = Some (ops ++ more)).
Proof.
  split.
  - intros instr p r p' H. split.
    + eapply (compileInstr_preserves (appendsAt b)); [| |done].
      * intros ?????. by eapply emit_appendsAt.
      * intros ??????. by eapply emit_remember_appendsAt.
    + intros i ops _ Hops.
      apply compileInstr_lowers in H as ((_&_&_&_&Hg)&_). by apply Hg.
  - intros v p r p' H. split.
    + eapply (proj1 (compileValue_preserves_both (appendsAt b) b
                       (λ o a q y q', emit_remember_appendsAt b o a q y q')));
        done.
    + intros i ops _ Hops.
      apply compileValue_lowers in H as ((_&_&_&_&Hg)&_). by apply Hg.
Qed.

(** ** The operation an instruction is lowered to *)

Lemma lowers_cursor p p' : lowers p p' → cursor p' = cursor p.
Proof. by intros (_&_&?&_). Qed.

Lemma emit_remember_Ok b o a p p4 r p5 e p' :
  lowers p p4 → emit b o p4 = Ok r p5 → remember a r p5 = Ok e p' →
  ∃ i ops, cursor p = Some i ∧ e = llssa.Reg b i (length ops) ∧
           llssa.opsOf b i (pkg p') = Some (ops ++ [o]) ∧
           bvals p' !! a = Some e.
Proof.
  intros Hl (i & ops & Hc & Hops & -> & ->)%emit_Ok [-> ->]%remember_Ok.
  exists i, ops. rewrite <-(lowers_cursor _ _ Hl).
  split_and!; [done|done| |apply lookup_insert_eq].
  cbn. by apply opsOf_appendOp_eq.
Qed.

(** X3.  On a cache miss the lowering of a value-producing instruction
    (other than the call of the initializer of package unsafe) ends with
    the operation of its own rule as last operation of the insertion
    block; the expression it returns and stores in the cache is the handle
    of that operation, and the handle keeps pointing at it while the rest
    of the package is built. *)
Theorem lowered_value_names_its_operation (b : llssa.Builder) iv p e p' :
  bvals p !! ssa.addrOf iv = None → isNoOpCall iv = false →
  compileInstrAndValue b iv p = Ok e p' →
  ∃ i ops o,
    cursor p = Some i ∧ e = llssa.Reg b i (length ops) ∧
    llssa.opsOf b i (pkg p') = Some (ops ++ [o]) ∧ lowersTo iv o ∧
    bvals p' !! ssa.addrOf iv = Some e ∧
    ∀ p'', builds p' p'' →
           llssa.opsOf b i (pkg p'') ≫= (λ l, l !! length ops) = Some o.
Proof.
  intros Hmiss Hn H.
  assert (∃ i ops o,
    cursor p = Some i ∧ e = llssa.Reg b i (length ops) ∧
    llssa.opsOf b i (pkg p') = Some (ops ++ [o]) ∧ lowersTo iv o ∧
    bvals p' !! ssa.addrOf iv = Some e) as (i & ops & o & ?&?&Hops&?&?).
  { destruct iv as [a callee args|a op X Y|a op X|a X Y|a t h|a k];
      cbn [ssa.addrOf isNoOpCall] in *.
    - rewrite compileInstrAndValue_Call, Hn in H by done. inv_M.
      repeat match goal with
      | H1 : compileValue _ _ _ = Ok _ _ |- _ =>
          apply compileValue_lowers in H1
      | H1 : compileValues _ _ _ _ = Ok _ _ |- _ =>
          apply (compileValuesWith_preserves lowers) in H1;
          [|by apply Forall_forall; intros ??????; eapply compileValue_lowers]
      end.
      match goal with
      | H1 : emit _ ?o ?q = Ok _ _, H2 : remember _ _ _ = Ok _ _ |- _ =>
          destruct (emit_remember_Ok _ _ _ p _ _ _ _ _
                      ltac:(by repeat (etrans; [eassumption|])) H1 H2)
            as (i & ops & ?&?&?&?); by exists i, ops, o
      end.
    - rewrite compileInstrAndValue_BinOp in H by done. inv_M.
      repeat match goal with
      | H1 : compileValue _ _ _ = Ok _ _ |- _ =>
          apply compileValue_lowers in H1
      end.
      match goal with
      | H1 : emit _ ?o ?q = Ok _ _, H2 : remember _ _ _ = Ok _ _ |- _ =>
          destruct (emit_remember_Ok _ _ _ p _ _ _ _ _
                      ltac:(by repeat (etrans; [eassumption|])) H1 H2)
            as (i & ops & ?&?&?&?); by exists i, ops, o
      end.
    - rewrite compileInstrAndValue_UnOp in H by done. inv_M.
      repeat match goal with
      | H1 : compileValue _ _ _ = Ok _ _ |- _ =>
          apply compileValue_lowers in H1
      end.
      match goal with
      | H1 : emit _ ?o ?q = Ok _ _, H2 : remember _ _ _ = Ok _ _ |- _ =>
          destruct (emit_remember_Ok _ _ _ p _ _ _ _ _
                      ltac:(by repeat (etrans; [eassumption|])) H1 H2)
            as (i & ops & ?&?&?&?); by exists i, ops, o
      end.
    - rewrite compileInstrAndValue_IndexAddr in H by done. inv_M.
      repeat match goal with
      | H1 : compileValue _ _ _ = Ok _ _ |- _ =>
          apply compileValue_lowers in H1
      end.
      match goal with
      | H1 : emit _ ?o ?q = Ok _ _, H2 : remember _ _ _ = Ok _ _ |- _ =>
          destruct (emit_remember_Ok _ _ _ p _ _ _ _ _
                      ltac:(by repeat (etrans; [eassumption|])) H1 H2)
            as (i & ops & ?&?&?&?); by exists i, ops, o
      end.
    - rewrite compileInstrAndValue_Alloc in H by done. inv_M.
      match goal with
      | H1 : emit _ ?o ?q = Ok _ _, H2 : remember _ _ _ = Ok _ _ |- _ =>
          destruct (emit_remember_Ok _ _ _ p _ _ _ _ _
                      ltac:(done) H1 H2)
            as (i & ops & ?&?&?&?); by exists i, ops, o
      end.
    - by rewrite compileInstrAndValue_IVOther in H. }
  exists i, ops, o. split_and!; try done.
  intros p'' [(_&_&_&_&Hg) _]. apply Hg in Hops as (more & ->). cbn.
  rewrite <-app_assoc. change ([o] ++ more) with (o :: more).
  by rewrite list_lookup_middle.
Qed.

Lemma emit_tail b o p q r p' :
  lowers p q → emit b o q = Ok r p' →
  ∃ i ops, cursor p = Some i ∧
           llssa.opsOf b i (pkg p') = Some (ops ++ [o]) ∧ lowers p p'.
Proof.
  intros Hl He. pose proof (emit_lowers _ _ _ _ _ He) as Hl'.
  apply emit_appends in He as (i & ops & Hc & _ & Hops & _).
  exists i, ops. rewrite <-(lowers_cursor _ _ Hl).
  split_and!; [done..|by etrans].
Qed.

Lemma fnBlock_valid idx q r q' :
  fnBlock idx q = Ok r q' →
  r = idx ∧ q' = q ∧
  ∀ p p', lowers p q → lowers q p' →
          ∃ h bops, fn p = Some h ∧ llssa.opsOf h idx (pkg p') = Some bops.
Proof.
  intros (-> & -> & h & bops & Hf & Hb)%fnBlock_Ok.
  split_and!; [done..|]. intros p p' Hpq Hqp.
  destruct Hpq as (_&_&_&Hfn&_). destruct Hqp as ((_&_&_&_&Hg)&_).
  apply Hg in Hb as (more & Hb). exists h, (bops ++ more).
  by rewrite <-Hfn.
Qed.

(** X4.  A store, jump, return or branch that is lowered ends with its
    own operation as last operation of the insertion block: a jump goes to
    the first successor, a branch to the first two, a return carries as
    many results as the source instruction; and every block such an
    operation goes to is a block of the function being built. *)
Theorem instruction_emits_its_operation (b : llssa.Builder) instr p p' :
  (∀ iv, instr ≠ ssa.IValue iv) →
  compileInstr b instr p = Ok tt p' →
  ∃ i ops o,
    cursor p = Some i ∧
    llssa.opsOf b i (pkg p') = Some (ops ++ [o]) ∧ emitsFor instr o ∧
    ∀ blk, blk ∈ branchTargets o →
           ∃ h bops, fn p = Some h ∧
                     llssa.opsOf h blk (pkg p') = Some bops.
Proof.
  intros Hni H.
  destruct instr as [iv|A V|succs|Results|Cond succs|k]; cbn in H.
  - by destruct (Hni iv).
  - inv_M.
    repeat match goal with
    | H1 : compileValue _ _ _ = Ok _ _ |- _ =>
        apply compileValue_lowers in H1
    end.
    match goal with
    | H1 : emit _ ?o _ = Ok _ _ |- _ =>
        eapply (emit_tail _ _ p) in H1 as (i & ops & ?&?&_);
        [exists i, ops, o|by etrans]
    end.
    split_and!; [done..|]. by intros blk ?%elem_of_nil.
  - destruct (succs !! 0%nat) as [s0|] eqn:E0; [|done]. inv_M.
    match goal with
    | H1 : fnBlock _ _ = Ok _ _ |- _ =>
        apply fnBlock_valid in H1 as (-> & -> & Ht)
    end.
    match goal with
    | H2 : emit _ _ _ = Ok _ _ |- _ =>
        specialize (Ht p p' ltac:(done) (emit_lowers _ _ _ _ _ H2));
        eapply (emit_tail _ _ p) in H2 as (i & ops & ?&?&_); [|done]
    end.
    exists i, ops, (llssa.OJump s0). split_and!; [done..|].
    by intros blk ->%list_elem_of_singleton.
  - inv_M.
    match goal with
    | H1 : forRange _ _ _ = Ok _ _ |- _ =>
        pose proof (forRange_length _ _ _ _ _ H1) as Hlen;
        apply (forRange_preserves lowers) in H1;
        [|by intros; eapply compileValue_lowers]
    end.
    match goal with
    | H1 : emit _ ?o _ = Ok _ _ |- _ =>
        eapply (emit_tail _ _ p) in H1 as (i & ops & ?&?&_);
        [exists i, ops, o|done]
    end.
    split_and!; [done..|]. by intros blk ?%elem_of_nil.
  - inv_M. destruct (succs !! 0%nat) as [s0|] eqn:E0; [|done]. inv_M.
    destruct (succs !! 1%nat) as [s1|] eqn:E1; [|done]. inv_M.
    match goal with
    | H1 : compileValue _ _ _ = Ok _ _ |- _ =>
        apply compileValue_lowers in H1; rename H1 into Hc
    end.
    match goal with
    | H1 : fnBlock s0 _ = Ok _ _ |- _ =>
        apply fnBlock_valid in H1 as (-> & -> & Ht0)
    end.
    match goal with
    | H2 : fnBlock s1 _ = Ok _ _ |- _ =>
        apply fnBlock_valid in H2 as (-> & -> & Ht1)
    end.
    match goal with
    | H3 : emit _ _ _ = Ok _ _ |- _ =>
        specialize (Ht0 p p' Hc (emit_lowers _ _ _ _ _ H3));
        specialize (Ht1 p p' Hc (emit_lowers _ _ _ _ _ H3));
        eapply (emit_tail _ _ p) in H3 as (i & ops & ?&?&_); [|exact Hc]
    end.
    match goal with
    | H1 : llssa.opsOf _ _ (pkg p') = Some (_ ++ [?o]) |- _ =>
        exists i, ops, o
    end.
    split_and!; [done..|].
    intros blk [->|[->|?%elem_of_nil]%elem_of_cons]%elem_of_cons; done.
  - done.
Qed.

(** ** Calls of ordinary callees, parameters *)

(** X5.  A call whose callee is classified Normal resolves the callee,
    then lowers every argument, first to last, and emits one call with
    all of them: the emitted call has as many arguments as the source
    call, and its handle is returned and cached.  A panic in the callee or
    in an argument is the panic of the call. *)
Theorem call_normal (b : llssa.Builder) self callee
    (args : list ssa.Value) p :
  funcKind callee = fnNormal →
  bvals p !! self = None →
  (∀ fe p1 es p2 i ops,
     compileValue b callee p = Ok fe p1 →
     forRange (compileValue b) args p1 = Ok es p2 →
     cursor p2 = Some i → llssa.opsOf b i (pkg p2) = Some ops →
     length es = length args ∧
     ∃ p3,
       compileInstrAndValue b (ssa.Call self callee args) p =
         Ok (llssa.Reg b i (length ops)) p3 ∧
       llssa.opsOf b i (pkg p3) = Some (ops ++ [llssa.OCall fe es]) ∧
       bvals p3 !! self = Some (llssa.Reg b i (length ops))) ∧
  (∀ e, compileValue b callee p = Panic e →
        compileInstrAndValue b (ssa.Call self callee args) p = Panic e) ∧
  (∀ fe p1 e,
     compileValue b callee p = Ok fe p1 →
     forRange (compileValue b) args p1 = Panic e →
     compileInstrAndValue b (ssa.Call self callee args) p = Panic e).
Proof.
  intros Hk Hmiss. rewrite compileInstrAndValue_Call by done. rewrite Hk.
  change (fnNormal =? fnUnsafeInit)%Z with false. cbv iota. split_and!.
  - intros fe p1 es p2 i ops Hfe Hes Hc Hops.
    split; [by eapply forRange_length|].
    rewrite (bind_of_Ok _ _ _ _ _ Hfe).
    erewrite bind_of_Ok; [|by rewrite compileValues_normal].
    eexists. unfold bind, emit. rewrite Hc, Hops. cbn.
    split_and!; [done| |apply lookup_insert_eq].
    by apply opsOf_appendOp_eq.
  - intros e He. by apply bind_of_Panic.
  - intros fe p1 e Hfe He. rewrite (bind_of_Ok _ _ _ _ _ Hfe).
    apply bind_of_Panic. by rewrite compileValues_normal.
Qed.

(** X6.  A parameter is resolved by its first position in the parameter
    list of its parent, as that parameter of the function being built; the
    context is left as it is.  A parameter that is not in the list is an
    unknown value, and outside of a function body the resolution is a nil
    dereference. *)
Theorem parameter_resolves_by_position (b : llssa.Builder) self
    (params : list addr) p :
  (self ∉ params →
   compileValue b (ssa.Parameter_ self params) p =
     Panic (UnknownValue None)) ∧
  (∀ k, params !! k = Some self →
        (∀ j, (j < k)%nat → params !! j ≠ Some self) →
        compileValue b (ssa.Parameter_ self params) p =
          match fn p with
          | Some h => Ok (llssa.Param h k) p
          | None => Panic (RuntimeError NilDereference)
          end).
Proof.
  split.
  - intros Hn. cbn.
    destruct (list_find (λ param, param = self) params) as [[i x]|] eqn:E;
      [|done].
    apply list_find_Some in E as (Hi & -> & _).
    destruct Hn. by eapply list_elem_of_lookup_2.
  - intros k Hk Hfirst. cbn.
    assert (list_find (λ param, param = self) params = Some (k, self)) as ->.
    { apply list_find_Some. split_and!; [done..|].
      intros j y Hj Hlt ->. by eapply Hfirst. }
    done.
Qed.

(** ** The cache of a block *)

#[local] Instance keeps_preorder Inv : PreOrder (keeps Inv).
Proof.
  split; unfold keeps; [by intros p|]. intros p1 p2 p3 H12 H23 H. auto.
Qed.

Lemma emit_cacheValid b o p r p' :
  emit b o p = Ok r p' → keeps (cacheValid b) p p'.
Proof.
  intros (i & ops & Hc & Hops & -> & ->)%emit_Ok Hv a e Ha.
  destruct (Hv a e Ha) as (i' & k & ops' & Hc' & -> & Hops' & Hk).
  assert (i' = i) as -> by congruence.
  assert (ops' = ops) as -> by congruence.
  exists i, k, (ops ++ [o]).
  split_and!; [done|done|by apply opsOf_appendOp_eq|].
  rewrite length_app. lia.
Qed.

Lemma emit_remember_cacheValid b o a p r p' :
  emit b o p = Ok r p' →
  keeps (cacheValid b) p (setBvals (<[a:=r]> (bvals p')) p').
Proof.
  intros H Hv a' e Ha. cbn in Ha.
  destruct (decide (a' = a)) as [->|Hne].
  - rewrite lookup_insert_eq in Ha. simplify_eq.
    apply emit_Ok in H as (i & ops & Hc & Hops & -> & ->).
    exists i, (length ops), (ops ++ [o]).
    split_and!; [done|done|by apply opsOf_appendOp_eq|].
    rewrite length_app. cbn. lia.
  - rewrite lookup_insert_ne in Ha by done.
    exact (emit_cacheValid _ _ _ _ _ H Hv a' e Ha).
Qed.

Lemma callMainInit_appendsAt b p r p' :
  callMainInit b p = Ok r p' → appendsAt b p p' ∧ bvals p' = bvals p.
Proof.
  unfold callMainInit. intros H. inv_M.
  destruct (llssa.FuncOf _ _) as [h|]; [|done]. inv_M.
  match goal with
  | H1 : emit _ _ _ = Ok _ _ |- _ =>
      split; [by eapply emit_appendsAt|];
      by apply emit_appends in H1 as (?&?&?&?&?&?&_)
  end.
Qed.

Lemma compileBlock_Ok b block doInit p r p' :
  compileBlock b block doInit p = Ok r p' →
  r = ssa.Index block ∧
  ∃ q0, bvals q0 = ∅ ∧ appendsAt b (atBlock block p) q0 ∧
        compileInstrs b (ssa.Instrs block) q0 = Ok tt p'.
Proof.
  unfold compileBlock. intros H. inv_M.
  match goal with
  | H1 : fnBlock _ _ = Ok _ _ |- _ => apply fnBlock_Ok in H1 as (-> & -> & _)
  end.
  split; [done|].
  match goal with
  | H1 : compileInstrs _ _ ?q = Ok ?u _ |- _ => destruct u; exists q
  end.
  destruct doInit; inv_M.
  - match goal with
    | H1 : callMainInit _ _ = Ok _ _ |- _ =>
        apply callMainInit_appendsAt in H1 as [? Hb]
    end.
    split_and!; [by rewrite Hb|done..].
  - by split_and!.
Qed.

Lemma compileInstrs_within b block p r p' :
  compileInstrs b (ssa.Instrs block) p = Ok r p' →
  within (storedInBlock block) p p'.
Proof.
  unfold compileInstrs. intros H. inv_M.
  eapply (forRange_preserves (within (storedInBlock block))); [|done].
  intros instr q y q' Hin. apply compileInstr_within.
  apply (union_list_elem (storedByInstr instr)).
  by apply list_elem_of_fmap_2.
Qed.

(** X7.  When a block has been built, the block returned is the one with
    the index of the source block and it is still the insertion block.
    The cache, emptied when the block was entered, holds results only of
    instructions that stand in this block or that its instructions come
    to through their operands.  An operand that stands in another block
    is among them: it is lowered again, into this block, and so every
    cached result is the handle of an operation that stands in this
    block.  Apart from the operations appended to this block the package
    is as it was before the block. *)
Theorem block_cache_names_block_operations (b : llssa.Builder) block doInit
    p r p' :
  compileBlock b block doInit p = Ok r p' →
  r = ssa.Index block ∧ cursor p' = Some (ssa.Index block) ∧
  dom (bvals p') ⊆ storedInBlock block ∧ cacheValid b p' ∧
  appendsAt b (atBlock block p) p'.
Proof.
  intros (-> & q0 & Hq0 & Hat & Hsweep)%compileBlock_Ok.
  assert (appendsAt b q0 p') as Hat'.
  { eapply (compileInstrs_preserves (appendsAt b)); [| |done].
    - intros ?????. by eapply emit_appendsAt.
    - intros ??????. by eapply emit_remember_appendsAt. }
  assert (appendsAt b (atBlock block p) p') as Hall by (by etrans).
  split_and!; [done| | | |done].
  - by destruct Hall as (-> & _).
  - apply compileInstrs_within in Hsweep. unfold within in Hsweep.
    rewrite Hq0, dom_empty_L in Hsweep. etrans; [exact Hsweep|].
    by apply union_least.
  - eapply (compileInstrs_preserves (keeps (cacheValid b))); [| |done|].
    + intros ?????. by eapply emit_cacheValid.
    + intros ??????. by eapply emit_remember_cacheValid.
    + intros a e Ha. by rewrite Hq0 in Ha.
Qed.

(** ** Bodies *)

#[local] Instance buildsIn_preorder h : PreOrder (buildsIn h).
Proof.
  split.
  - intros p. by split_and!.
  - intros p1 p2 p3 (?&?&?&?&?&?&?&H12) (?&?&?&?&?&?&?&H23).
    split_and!; try congruence. intros h' i Hh. by rewrite H23, H12.
Qed.

Lemma appendsAt_buildsIn b p p' : appendsAt b p p' → buildsIn b p p'.
Proof.
  intros (?&?&?&?&?&?&?&?&H). split_and!; try done.
  intros h' i Hh. apply H. by left.
Qed.

Lemma compileBlock_buildsIn b block doInit p r p' :
  compileBlock b block doInit p = Ok r p' → buildsIn b p p'.
Proof.
  intros (_ & q0 & _ & Hat & Hsweep)%compileBlock_Ok.
  trans (atBlock block p); [by split_and!|].
  apply appendsAt_buildsIn. etrans; [exact Hat|].
  eapply (compileInstrs_preserves (appendsAt b)); [| |done].
  - intros ?????. by eapply emit_appendsAt.
  - intros ??????. by eapply emit_remember_appendsAt.
Qed.

Lemma compileBlocks_buildsIn b name blocks i p r p' :
  compileBlocks b name i blocks p = Ok r p' → buildsIn b p p'.
Proof.
  revert i p. induction blocks as [|block blocks IH]; intros i p H;
    simpl in H; inv_M; [done|].
  match goal with
  | H1 : compileBlock _ _ _ _ = Ok _ _ |- _ =>
      apply compileBlock_buildsIn in H1
  end.
  apply IH in H. by etrans.
Qed.

Lemma shape_MakeBlocks h n P :
  shape (llssa.withFuncs
           (alter (λ f, llssa.withBlocks (llssa.blocks f ++ replicate n []) f)
                  h (llssa.funcs P)) P) =
  alter (λ k, (k + n)%nat) h (shape P).
Proof.
  unfold shape. cbn. apply list_fmap_alter, Forall_forall. intros f _. cbn.
  by rewrite length_app, length_replicate.
Qed.

Lemma runInit_Ok d p r p' :
  runInit d p = Ok r p' →
  fn p' = None ∧ inits p' = inits p ∧
  llssa.name (pkg p') = llssa.name (pkg p) ∧
  llssa.path (pkg p') = llssa.path (pkg p) ∧
  llssa.vars (pkg p') = llssa.vars (pkg p) ∧
  decl <$> llssa.funcs (pkg p') = decl <$> llssa.funcs (pkg p) ∧
  shape (pkg p') =
    alter (λ k, (k + length (ssa.Blocks (d_f d)))%nat) (d_fn d)
          (shape (pkg p)) ∧
  ∀ h i, h ≠ d_fn d → llssa.opsOf h i (pkg p') = llssa.opsOf h i (pkg p).
Proof.
  unfold runInit. intros H. inv_M.
  destruct (length (ssa.Blocks (d_f d))) as [|n] eqn:E; cbn [Nat.eqb] in H;
    inv_M.
  - split_and!; try done. cbn. symmetry. apply list_alter_id. intros; lia.
  - match goal with
    | H1 : compileBlocks _ _ _ _ _ = Ok _ _ |- _ =>
        apply compileBlocks_buildsIn in H1 as (?&?&?&?&?&Hd&Hs&Ho)
    end.
    split_and!; try done.
    + etrans; [exact Hd|].
      exact (decl_alter_blocks (λ f, llssa.blocks f ++ replicate (S n) [])
               (d_fn d) (llssa.funcs (pkg p))).
    + etrans; [exact Hs|].
      exact (shape_MakeBlocks (d_fn d) (S n) (pkg p)).
    + intros h i Hh. etrans; [by apply Ho|]. unfold llssa.opsOf. cbn.
      by rewrite list_lookup_alter_ne.
Qed.

(** X8.  Building the body of a function writes to that function only: it
    gains one block for every block of the source function, every other
    function keeps its blocks and their operations, the declarations and
    the registered closures stay as they are, and [fn] is nil again when
    the closure returns.  For a function without blocks, an external one,
    the closure returns with the package untouched. *)
Theorem body_writes_its_function_only (d : deferred) p :
  (∀ p', runInit d p = Ok tt p' →
     fn p' = None ∧ inits p' = inits p ∧
     llssa.vars (pkg p') = llssa.vars (pkg p) ∧
     decl <$> llssa.funcs (pkg p') = decl <$> llssa.funcs (pkg p) ∧
     shape (pkg p') =
       alter (λ k, (k + length (ssa.Blocks (d_f d)))%nat) (d_fn d)
             (shape (pkg p)) ∧
     ∀ h i, h ≠ d_fn d →
            llssa.opsOf h i (pkg p') = llssa.opsOf h i (pkg p)) ∧
  (ssa.Blocks (d_f d) = [] → runInit d p = Ok tt (setFn None p)).
Proof.
  split.
  - intros p' (?&?&?&?&?&?&?&?)%runInit_Ok. by split_and!.
  - intros E. unfold runInit. by rewrite E.
Qed.

(** ** The translated package *)

Lemma forRange_runInit_shape (fs : list ssa.Function) :
  ∀ p us p',
    forRange runInit (imap closure fs) p = Ok us p' →
    take (length fs) (shape (pkg p)) = replicate (length fs) 0%nat →
    (length fs ≤ length (shape (pkg p)))%nat →
    shape (pkg p') =
      ((λ f, length (ssa.Blocks f)) <$> fs) ++
      drop (length fs) (shape (pkg p)).
Proof.
  induction fs as [|f fs IH] using rev_ind; intros p us p' H Hz Hlen.
  { cbn in H. inv_M. by rewrite drop_0. }
  rewrite imap_app, forRange_app in H. cbn in H. inv_M.
  rewrite length_app in Hz, Hlen. cbn in Hz, Hlen.
  match goal with
  | H1 : forRange _ (imap _ fs) _ = Ok _ _ |- _ =>
      apply IH in H1 as Hs1; [|
        rewrite <-(Nat.min_l (length fs) (length fs + 1)) at 1 by lia;
        rewrite <-take_take, Hz, take_replicate; f_equal; lia | lia]
  end.
  match goal with
  | H1 : runInit _ _ = Ok _ _ |- _ =>
      apply runInit_Ok in H1 as (_&_&_&_&_&_&Hs&_)
  end.
  cbn in Hs. rewrite Hs, Hs1. clear Hs Hs1.
  assert (shape (pkg p) !! length fs = Some 0%nat) as Hzero.
  { rewrite <-(lookup_take_lt _ (length fs + 1)) by lia. rewrite Hz.
    apply lookup_replicate_2. lia. }
  rewrite (drop_S _ _ _ Hzero).
  rewrite Nat.add_0_r.
  rewrite <-(Nat.add_0_r (length fs)) at 1.
  rewrite <-(length_fmap (λ f0, length (ssa.Blocks f0)) fs) at 1.
  rewrite alter_app_r. cbn.
  rewrite fmap_app, length_app, <-app_assoc. cbn.
  by rewrite Nat.add_1_r.
Qed.

(** X9.  A package that [NewPackage] returns carries the name and the path
    of the source package, was made from a package without type members,
    and mirrors its members in order of position: one function for each
    function member without type parameters, with its name, its signature
    and as many blocks as the source function has, and one global for each
    global member, initialised to the null value of its type. *)
Theorem translated_package_mirrors_members (pkg_ : ssa.Package) P :
  NewPackage pkg_ = inr P →
  let ms := sortSlice (ssa.Members pkg_) in
  llssa.name P = ssa.PkgName pkg_ ∧ llssa.path P = ssa.PkgPkgPath pkg_ ∧
  Forall (λ m, ¬ isType m.2) (ssa.Members pkg_) ∧
  decl <$> llssa.funcs P =
    (λ f, (funcName (ssa.Header f), ssa.Sig (ssa.Header f))) <$> funcsOf ms ∧
  shape P = (λ f, length (ssa.Blocks f)) <$> funcsOf ms ∧
  llssa.vars P = declVar <$> globalsOf ms.
Proof.
  intros HN ms. rewrite NewPackage_phases in HN. fold ms in HN.
  destruct (declareMembers _ _ _) as [[] p|] eqn:Hd; [|done].
  destruct (forRange runInit (inits p) p) as [us p'|] eqn:Hr; [|done].
  simplify_eq.
  apply declareMembers_Ok_inv in Hd as [Hty Hp].
  assert (llssa.funcs (pkg p) = declFunc <$> funcsOf ms ∧
          llssa.vars (pkg p) = declVar <$> globalsOf ms ∧
          inits p = imap closure (funcsOf ms)) as (Hf & Hv & Hi)
    by (rewrite Hp; apply declared_start).
  assert (llssa.name (pkg p) = ssa.PkgName pkg_ ∧
          llssa.path (pkg p) = ssa.PkgPkgPath pkg_) as [Hnm Hpth]
    by (by rewrite Hp).
  clear Hp.
  assert (shape (pkg p) = replicate (length (funcsOf ms)) 0%nat) as Hsh.
  { unfold shape. rewrite Hf, <-list_fmap_compose.
    by apply const_fmap. }
  pose proof (forRange_runInit_builds _ _ _ _ Hr) as [(Hn'&Hp'&Hv'&Hd'&_) _].
  rewrite Hi in Hr. apply forRange_runInit_shape in Hr.
  - split_and!.
    + by rewrite Hn'.
    + by rewrite Hp'.
    + by rewrite <-(sortSlice_perm (ssa.Members pkg_)).
    + rewrite Hd', Hf, <-list_fmap_compose. done.
    + rewrite Hr, Hsh. rewrite drop_ge by (by rewrite length_replicate).
      apply app_nil_r.
    + by rewrite Hv'.
  - rewrite Hsh. apply take_ge. by rewrite length_replicate.
  - by rewrite Hsh, length_replicate.
Qed.

(** ** Members that leave no trace, packages without bodies *)

Lemma NewPackage_inr_vars pkg_ P :
  NewPackage pkg_ = inr P →
  llssa.vars P = declVar <$> globalsOf (sortSlice (ssa.Members pkg_)).
Proof.
  intros HN. rewrite NewPackage_phases in HN.
  destruct (declareMembers _ _ _) as [[] p|] eqn:Hd; [|done].
  destruct (forRange runInit (inits p) p) as [us p'|] eqn:Hr; [|done].
  simplify_eq. apply declareMembers_Ok_inv in Hd as [_ ->].
  apply forRange_runInit_builds in Hr as [(_&_&Hv&_) _].
  by rewrite Hv.
Qed.

(** X10.  The member loop has no case for named constants: it passes over
    such a member with the context as it is, and a translated package has
    as many functions as the source package has function members without
    type parameters and as many globals as it has global members, nothing
    for a named constant.  A package whose compiled functions have
    distinct positions, and whose globals have, translates as the package
    without its named constants. *)
Theorem named_constants_ignored :
  (∀ ret_ c p, compileMember ret_ (ssa.MNamedConst c) p = Ok tt p) ∧
  (∀ pkg_ P,
     NewPackage pkg_ = inr P →
     length (llssa.funcs P) = length (funcsOf (ssa.Members pkg_)) ∧
     length (llssa.vars P) = length (globalsOf (ssa.Members pkg_))) ∧
  (∀ pkg_,
     NoDup (ssa.Pos <$> funcsOf (ssa.Members pkg_)) →
     NoDup (ssa.GPos <$> globalsOf (ssa.Members pkg_)) →
     NewPackage pkg_ = NewPackage (dropConsts pkg_)).
Proof.
  split_and!; [done| |].
  - intros pkg_ P HN. split.
    + apply NewPackage_inr_funcs in HN.
      rewrite <-(length_fmap decl), HN, length_fmap.
      apply Permutation_length. unfold funcsOf. by rewrite sortSlice_perm.
    + apply NewPackage_inr_vars in HN. rewrite HN, length_fmap.
      apply Permutation_length. unfold globalsOf. by rewrite sortSlice_perm.
  - intros pkg_ Hf Hg.
    apply (NewPackage_without (λ m, ¬ isConst m.2)); [|done..].
    intros [nm [f|t|g|c]] Hn; cbn in *;
      try (by destruct Hn; intros []).
    by split_and!; intros [].
Qed.

Lemma forRange_runInit_external l p :
  Forall (λ d, ssa.Blocks (d_f d) = []) l →
  ∃ us p', forRange runInit l p = Ok us p' ∧ pkg p' = pkg p.
Proof.
  intros HF. revert p. induction HF as [|d l Hd _ IH]; intros p.
  - by exists [], p.
  - destruct (IH (setFn None p)) as (us & p' & Hrun & Hpkg).
    exists (tt :: us), p'. split; [|done]. simpl. unfold bind, ret.
    assert (runInit d p = Ok tt (setFn None p)) as ->
      by (unfold runInit; by rewrite Hd).
    by rewrite Hrun.
Qed.

(** X11.  A package without type members in which no compiled function
    has a block, a package of external declarations and globals, always
    translates, and to its declarations alone: the functions in order of
    position, without blocks, and the globals, initialised to null. *)
Theorem declarations_only_package_translates (pkg_ : ssa.Package) :
  Forall (λ m, ¬ isType m.2) (ssa.Members pkg_) →
  Forall (λ f, ssa.Blocks f = []) (funcsOf (ssa.Members pkg_)) →
  let ms := sortSlice (ssa.Members pkg_) in
  NewPackage pkg_ =
    inr {| llssa.name := ssa.PkgName pkg_;
           llssa.path := ssa.PkgPkgPath pkg_;
           llssa.funcs := declFunc <$> funcsOf ms;
           llssa.vars := declVar <$> globalsOf ms |}.
Proof.
  intros Hty Hext ms. rewrite NewPackage_phases. fold ms.
  rewrite declareMembers_Ok
    by (unfold ms; by rewrite sortSlice_perm).
  destruct (forRange_runInit_external
              (inits (declared ms (startContext pkg_)))
              (declared ms (startContext pkg_))) as (us & p' & -> & ->);
    [|done].
  apply Forall_forall. intros d Hd. cbn in Hd.
  apply elem_of_lookup_imap in Hd as (k & f & -> & Hk). cbn.
  assert (f ∈ funcsOf (ssa.Members pkg_)) as Hin.
  { apply list_elem_of_lookup_2 in Hk.
    unfold ms, funcsOf in Hk. by rewrite sortSlice_perm in Hk. }
  rewrite Forall_forall in Hext. by apply Hext.
Qed.

(** X12.  A value that is not an instruction (a parameter, a function, a
    global, a constant) is resolved without any effect: the context after
    it is the context before it, and what it resolves to is never the
    handle of an operation.  A constant always resolves. *)
Theorem non_instruction_value_has_no_effect (b : llssa.Builder) v p :
  (∀ iv, v ≠ ssa.VInstr iv) →
  (∀ r p', compileValue b v p = Ok r p' →
           p' = p ∧ ∀ h i k, r ≠ llssa.Reg h i k) ∧
  (∀ c t, v = ssa.Const c t → ∃ r, compileValue b v p = Ok r p).
Proof.
  intros Hv. split.
  - intros r p' H. split; [by eapply compileValue_leaf_Ok|].
    intros h i k ->.
    destruct v as [iv|a ps|f|g|c t|k']; cbn in H.
    + by destruct (Hv iv).
    + destruct (list_find _ ps) as [[??]|]; [|done].
      unfold fnParam in H. by destruct (fn p).
    + unfold funcOf, bind, ret in H. by destruct (llssa.FuncOf _ _).
    + unfold varOf, bind, ret in H. by destruct (llssa.VarOf _ _).
    + done.
    + done.
  - intros c t ->. by eexists.
Qed.

(** ** When the translation fails *)

(** X13.  The translation fails in two ways only.  Either the package has
    a type member, and the panic value is "todo"; or it has none, every
    function and global is declared, and the body of some function
    panics after the bodies registered before it have been built: the
    panic value is that of the first body that fails. *)
Theorem translation_fails_on_types_and_bodies_only (pkg_ : ssa.Package) e :
  let ms := sortSlice (ssa.Members pkg_) in
  NewPackage pkg_ = inl e ↔
  (Exists (λ m, isType m.2) (ssa.Members pkg_) ∧ e = Todo) ∨
  (Forall (λ m, ¬ isType m.2) (ssa.Members pkg_) ∧
   ∃ l1 d l2 us p1,
     imap closure (funcsOf ms) = l1 ++ d :: l2 ∧
     forRange runInit l1 (declared ms (startContext pkg_)) = Ok us p1 ∧
     runInit d p1 = Panic e).
Proof.
  intros ms. rewrite NewPackage_phases. fold ms.
  destruct (decide (Exists (λ m, isType m.2) (ssa.Members pkg_))) as [Ht|Ht].
  - rewrite declareMembers_type by (unfold ms; by rewrite sortSlice_perm).
    split.
    + intros [= <-]. by left.
    + intros [[_ ->]|[Hf _]]; [done|].
      by apply Forall_Exists_neg in Hf.
  - apply Forall_Exists_neg in Ht as Hf.
    rewrite declareMembers_Ok by (unfold ms; by rewrite sortSlice_perm).
    change (inits (declared ms (startContext pkg_)))
      with (imap closure (funcsOf ms)).
    destruct (forRange runInit (imap closure (funcsOf ms))
                (declared ms (startContext pkg_))) as [us p'|e'] eqn:Hr.
    + split; [done|]. intros [[? _]|[_ Hex]]; [done|].
      apply forRange_Panic in Hex. congruence.
    + split.
      * intros [= ->]. right. split; [done|]. by apply forRange_Panic.
      * intros [[? _]|[_ Hex]]; [done|].
        apply forRange_Panic in Hex. congruence.
Qed.

End cl.

(** * A small package

    The package below has the members of a program with an entry function:
    the synthetic initializer, a global, [main], and a function [g] that
    [main] calls although it stands later in the source.  The theorems are
    applied to it, with a [funcName] that gives the entry function the name
    "main" and every other function its qualified name. *)
Module demo.

Definition NameValist : string := "__llgo_va_list".

Definition fullName (pkgPath name : string) : string :=
  pkgPath +:+ "." +:+ name.

Definition funcName (f : ssa.Func) : string :=
  let nm := fullName (ssa.PkgPath f) (ssa.Name f) in
  if String.eqb nm "main.main" then "main"%string else nm.

(** The procedure that sort.Slice runs on a slice of at most 12 elements,
    as every slice of members below is: insertion sort.  [insertLeft x l]
    moves [x], appended to the sorted prefix whose reversal is [l], left
    while it is less than its neighbour. *)
Fixpoint insertLeft (x : string * ssa.Member)
    (l : list (string * ssa.Member)) : list (string * ssa.Member) :=
  match l with
  | [] => [x]
  | y :: l' => if less x y then y :: insertLeft x l' else x :: l
  end.

Definition sortSlice (members : list (string * ssa.Member))
  : list (string * ssa.Member) :=
  reverse (foldl (λ acc x, insertLeft x acc) [] members).

Definition noParams : ssa.Signature := {| ssa.Recv := None; ssa.Params := [] |}.

Definition func (pkgPath name : string) : ssa.Func :=
  {| ssa.Name := name; ssa.PkgPath := pkgPath; ssa.Sig := noParams |}.

(** [func printf(format *int8, __llgo_va_list ...any)] of package C *)
Definition printf : ssa.Func :=
  {| ssa.Name := "printf"; ssa.PkgPath := "C";
     ssa.Sig := {| ssa.Recv := None;
                   ssa.Params :=
                     [{| ssa.VarName := "format"; ssa.VarType := "*int8" |};
                      {| ssa.VarName := NameValist;
                         ssa.VarType := "[]any" |}] |} |}.

Definition x : ssa.Global :=
  {| ssa.GName := "x"; ssa.GPkgPath := "main"; ssa.GType := "int";
     ssa.GPos := 5 |}.

Definition t0 : ssa.InstrAndValue := ssa.Alloc 1 "int" false.

Definition entry : ssa.BasicBlock :=
  {| ssa.Index := 0;
     ssa.Instrs :=
       [ssa.IValue t0;
        ssa.Store (ssa.VInstr t0) (ssa.Const (Some (ssa.CInt 1)) "int");
        ssa.IValue (ssa.Call 2 (ssa.Function_ (func "main" "g"))
                      [ssa.VInstr t0]);
        ssa.Return []] |}.

Definition main : ssa.Function :=
  {| ssa.Header := func "main" "main"; ssa.TypeParams := []; ssa.Pos := 10;
     ssa.Blocks := [entry] |}.

Definition g : ssa.Function :=
  {| ssa.Header := func "main" "g"; ssa.TypeParams := []; ssa.Pos := 20;
     ssa.Blocks := [] |}.

Definition init : ssa.Function :=
  {| ssa.Header := func "main" "init"; ssa.TypeParams := []; ssa.Pos := 0;
     ssa.Blocks := [] |}.

(** A generic function, [func id[T any](v T) T]. *)
Definition id_ : ssa.Function :=
  {| ssa.Header := func "main" "id"; ssa.TypeParams := ["T"%string];
     ssa.Pos := 30; ssa.Blocks := [] |}.

Definition members : list (string * ssa.Member) :=
  [("g"%string, ssa.MFunction g); ("main"%string, ssa.MFunction main);
   ("init"%string, ssa.MFunction init); ("x"%string, ssa.MGlobal x)].

Definition mainPkg : ssa.Package :=
  {| ssa.PkgName := "main"; ssa.PkgPkgPath := "main";
     ssa.Members := members |}.

(** The same package, its member map ranged over in another order. *)
Definition mainPkg' : ssa.Package :=
  {| ssa.PkgName := "main"; ssa.PkgPkgPath := "main";
     ssa.Members := reverse members |}.

Definition T : ssa.TypeMember := {| ssa.TName := "T"; ssa.TPos := 7 |}.

(** [mainPkg] with a type declaration between the global and [main]. *)
Definition pkgWithType : ssa.Package :=
  {| ssa.PkgName := "main"; ssa.PkgPkgPath := "main";
     ssa.Members := ("T"%string, ssa.MType T) :: members |}.

(** A function whose body starts a goroutine. *)
Definition spawn : ssa.BasicBlock :=
  {| ssa.Index := 0; ssa.Instrs := [ssa.IOther ssa.Go; ssa.Return []] |}.

Definition h : ssa.Function :=
  {| ssa.Header := func "main" "h"; ssa.TypeParams := []; ssa.Pos := 40;
     ssa.Blocks := [spawn] |}.

Definition pkgWithGo : ssa.Package :=
  {| ssa.PkgName := "main"; ssa.PkgPkgPath := "main";
     ssa.Members := ("h"%string, ssa.MFunction h) :: members |}.

(** The context when the declare loop has gone over [mainPkg]. *)
Definition afterDeclare : context := Eval vm_compute in
  declared funcName fullName (sortSlice (ssa.Members mainPkg))
    (startContext mainPkg).

(** A context in which the body of a function with one block is being
    built, with [printf] declared. *)
Definition building : context :=
  {| pkg :=
       {| llssa.name := "main"; llssa.path := "main";
          llssa.funcs :=
            [{| llssa.fname := "main"; llssa.fsig := noParams;
                llssa.blocks := [[]] |};
             {| llssa.fname := "C.printf"; llssa.fsig := ssa.Sig printf;
                llssa.blocks := [] |}];
          llssa.vars := [] |};
     fn := Some 0%nat; bvals := ∅; inits := []; cursor := Some 0%nat |}.

(** A block that allocates, stores and returns. *)
Definition body : ssa.BasicBlock :=
  {| ssa.Index := 0;
     ssa.Instrs :=
       [ssa.IValue t0;
        ssa.Store (ssa.VInstr t0) (ssa.Const (Some (ssa.CInt 1)) "int");
        ssa.Return []] |}.

(** A package of declarations: two external functions, a generic one, a
    global and a named constant. *)
Definition externals : ssa.Package :=
  {| ssa.PkgName := "main"; ssa.PkgPkgPath := "main";
     ssa.Members :=
       [("x"%string, ssa.MGlobal x); ("g"%string, ssa.MFunction g);
        ("id"%string, ssa.MFunction id_);
        ("c"%string, ssa.MNamedConst {| ssa.CName := "c"; ssa.CPos := 3 |});
        ("init"%string, ssa.MFunction init)] |}.

(** A function that calls a builtin: the callee is a value without
    lowering rule. *)
Definition callsBuiltin : ssa.Instruction :=
  ssa.IValue (ssa.Call 3 (ssa.VOther ssa.Builtin)
                [ssa.Const (Some (ssa.CInt 1)) "int"]).

Definition printing : ssa.BasicBlock :=
  {| ssa.Index := 0; ssa.Instrs := [callsBuiltin; ssa.Return []] |}.

Definition k : ssa.Function :=
  {| ssa.Header := func "main" "k"; ssa.TypeParams := []; ssa.Pos := 50;
     ssa.Blocks := [printing] |}.

Definition pkgWithBuiltin : ssa.Package :=
  {| ssa.PkgName := "main"; ssa.PkgPkgPath := "main";
     ssa.Members := ("k"%string, ssa.MFunction k) :: members |}.

End demo.

(** ** The sort of the small package meets the contract of sort.Slice *)

#[local] Existing Instance posLe_trans.

Lemma insertLeft_perm x l : demo.insertLeft x l ≡ₚ x :: l.
Proof.
  induction l as [|y l IH]; [done|]. simpl. destruct (less x y); [|done].
  rewrite IH. apply Permutation_swap.
Qed.

Lemma insertLeft_sorted x l :
  StronglySorted (flip posLe) l →
  StronglySorted (flip posLe) (demo.insertLeft x l).
Proof.
  induction 1 as [|y l Hl IH Hy]; simpl.
  { repeat constructor. }
  destruct (less x y) eqn:E.
  - constructor; [done|]. rewrite insertLeft_perm. constructor; [|done].
    apply less_spec in E. unfold flip, posLe in *. lia.
  - apply less_false in E.
    constructor; [by constructor|]. constructor; [done|].
    eapply Forall_impl; [exact Hy|]. intros z Hz. unfold flip in *.
    by etrans.
Qed.

Lemma sortAcc_perm ms acc :
  foldl (λ acc x, demo.insertLeft x acc) acc ms ≡ₚ ms ++ acc.
Proof.
  revert acc. induction ms as [|x ms IH]; intros acc; [done|]. simpl.
  rewrite IH, insertLeft_perm. by rewrite Permutation_middle.
Qed.

Lemma sortAcc_sorted ms acc :
  StronglySorted (flip posLe) acc →
  StronglySorted (flip posLe) (foldl (λ acc x, demo.insertLeft x acc) acc ms).
Proof.
  revert acc. induction ms as [|x ms IH]; intros acc H; [done|]. simpl.
  by apply IH, insertLeft_sorted.
Qed.

Lemma insertion_perm ms : demo.sortSlice ms ≡ₚ ms.
Proof.
  unfold demo.sortSlice. rewrite reverse_Permutation, sortAcc_perm.
  by rewrite app_nil_r.
Qed.

Lemma insertion_less ms :
  StronglySorted (λ x y, less y x = false) (demo.sortSlice ms).
Proof.
  apply StronglySorted_less.
  apply Sorted_StronglySorted; [apply _|].
  apply (Sorted_reverse (flip posLe)), Sorted.StronglySorted_Sorted.
  apply sortAcc_sorted. constructor.
Qed.

(** * The theorems at work on the small package *)

(** The translation of [mainPkg].  The members are declared in the order
    of their positions; [main] starts with the call of main.init, stores
    to the allocation it has lowered once, and calls [g], declared after
    it. *)
Example mainPkg_translated :
  NewPackage demo.NameValist demo.funcName demo.fullName demo.sortSlice demo.mainPkg =
  inr {| llssa.name := "main"; llssa.path := "main";
         llssa.funcs :=
           [{| llssa.fname := "main.init"; llssa.fsig := demo.noParams;
               llssa.blocks := [] |};
            {| llssa.fname := "main"; llssa.fsig := demo.noParams;
               llssa.blocks :=
                 [[llssa.OCall (llssa.FuncExpr 0) [];
                   llssa.OAlloc (llssa.TypeOf "int") false;
                   llssa.OStore (llssa.Reg 1 0 1)
                     (llssa.ConstExpr (Some (ssa.CInt 1))
                        (llssa.TypeOf "int"));
                   llssa.OCall (llssa.FuncExpr 2) [llssa.Reg 1 0 1];
                   llssa.OReturn []]] |};
            {| llssa.fname := "main.g"; llssa.fsig := demo.noParams;
               llssa.blocks := [] |}];
         llssa.vars :=
           [{| llssa.gname := "main.x"; llssa.gtyp := llssa.TypeOf "int";
               llssa.ginit := Some (llssa.Null (llssa.TypeOf "int")) |}] |}.
Proof. vm_compute. reflexivity. Qed.

(** [mainPkg] with a type declaration is not translated. *)
Lemma type_member_aborts_witness :
  ("T"%string, ssa.MType demo.T) ∈ ssa.Members demo.pkgWithType ∧
  NewPackage demo.NameValist demo.funcName demo.fullName demo.sortSlice demo.pkgWithType =
    inl Todo.
Proof.
  assert (("T"%string, ssa.MType demo.T) ∈ ssa.Members demo.pkgWithType)
    as H by apply list_elem_of_here.
  split; [exact H|].
  exact (type_member_aborts demo.NameValist demo.funcName demo.fullName demo.sortSlice insertion_perm
           demo.pkgWithType "T" demo.T H).
Defined.

(** The claim that a type member is declared and that translation goes on
    past it fails on [pkgWithType]: the package has a type member and
    [NewPackage] returns no package for it. *)
Lemma type_member_not_declared :
  ("T"%string, ssa.MType demo.T) ∈ ssa.Members demo.pkgWithType ∧
  ¬ ∃ P, NewPackage demo.NameValist demo.funcName demo.fullName
           demo.sortSlice demo.pkgWithType = inr P.
Proof.
  split; [apply list_elem_of_here|]. intros [P H]. vm_compute in H.
  discriminate H.
Qed.



(** [printf("hi")]: the call is emitted with the format argument alone. *)
Lemma call_trailing_variadic_witness :
  funcKind demo.NameValist (ssa.Function_ demo.printf) = fnHasVArg ∧
  bvals demo.building !! 7%nat = None ∧
  ∃ p3,
    compileInstrAndValue demo.NameValist demo.funcName demo.fullName 0
      (ssa.Call 7 (ssa.Function_ demo.printf)
         ([ssa.Const (Some (ssa.CString "hi")) "*int8"] ++
          [ssa.Const None "[]any"])) demo.building =
      Ok (llssa.Reg 0 0 0) p3 ∧
    llssa.opsOf 0 0 (pkg p3) =
      Some ([] ++ [llssa.OCall (llssa.FuncExpr 1)
                     [llssa.ConstExpr (Some (ssa.CString "hi"))
                        (llssa.TypeOf "*int8")]]).
Proof.
  assert (funcKind demo.NameValist (ssa.Function_ demo.printf) = fnHasVArg)
    as Hk by reflexivity.
  assert (bvals demo.building !! 7%nat = None) as Hc by reflexivity.
  split_and!; [exact Hk | exact Hc |].
  destruct (call_trailing_variadic demo.NameValist demo.funcName
              demo.fullName 0%nat 7%nat (ssa.Function_ demo.printf)
              [ssa.Const (Some (ssa.CString "hi")) "*int8"]
              (ssa.Const None "[]any") demo.building Hk Hc) as [H _].
  exact (proj2 (H "[]any"%string (llssa.FuncExpr 1) demo.building
                  [llssa.ConstExpr (Some (ssa.CString "hi"))
                     (llssa.TypeOf "*int8")]
                  demo.building 0%nat []
                  eq_refl eq_refl eq_refl eq_refl eq_refl)).
Defined.

(** The initializer of package unsafe is classified UnsafeNoOpInit. *)
Lemma funcKind_classifies_witness :
  funcKind demo.NameValist (ssa.Function_ (demo.func "unsafe" "init")) =
  fnUnsafeInit.
Proof.
  apply (proj2 (proj1 (proj2
           (funcKind_classifies demo.NameValist
              (ssa.Function_ (demo.func "unsafe" "init")))))).
  exists (demo.func "unsafe" "init"). by split_and!.
Defined.

(** The allocation [t0] of [main] is stored under its address when it is
    lowered, and resolved from there after the instructions that follow
    it. *)
Lemma block_value_lowered_once_witness :
  ∃ e p1 p2,
    compileInstrAndValue demo.NameValist demo.funcName demo.fullName 0
      demo.t0 demo.building = Ok e p1 ∧
    compileInstrs demo.NameValist demo.funcName demo.fullName 0
      [ssa.Store (ssa.VInstr demo.t0) (ssa.Const (Some (ssa.CInt 1)) "int")]
      p1 = Ok tt p2 ∧
    bvals p1 !! 1%nat = Some e ∧
    compileValue demo.NameValist demo.funcName demo.fullName 0
      (ssa.VInstr demo.t0) p2 = Ok e p2.
Proof.
  eassert (compileInstrAndValue demo.NameValist demo.funcName demo.fullName
             0 demo.t0 demo.building = Ok _ _) as H1
    by (vm_compute; reflexivity).
  match type of H1 with
  | _ = Ok _ ?p1 =>
      eassert (compileInstrs demo.NameValist demo.funcName demo.fullName 0
                 [ssa.Store (ssa.VInstr demo.t0)
                    (ssa.Const (Some (ssa.CInt 1)) "int")] p1 = Ok tt _)
        as H2 by (vm_compute; reflexivity)
  end.
  destruct (proj1 (proj2 (block_value_lowered_once demo.NameValist
                            demo.funcName demo.fullName 0%nat))
              demo.t0 demo.building _ _ eq_refl H1) as [Hc Hrest].
  destruct (Hrest _ _ H2) as [Hv _].
  eexists _, _, _. split_and!; [exact H1 | exact H2 | exact Hc | exact Hv].
Defined.

(** The body of [main]: its entry block starts with the call of
    main.init (handle 0). *)
Lemma main_init_called_first_witness :
  ∃ p' tail,
    runInit demo.NameValist demo.funcName demo.fullName
      (closure demo.funcName 1 demo.main) demo.afterDeclare = Ok tt p' ∧
    llssa.FuncOf "main.init" (pkg demo.afterDeclare) = Some 0%nat ∧
    llssa.opsOf 1 0 (pkg p') =
      Some (llssa.OCall (llssa.FuncExpr 0) [] :: tail).
Proof.
  eassert (runInit demo.NameValist demo.funcName demo.fullName
             (closure demo.funcName 1 demo.main) demo.afterDeclare =
           Ok tt _) as H by (vm_compute; reflexivity).
  destruct (proj1 (proj2 (main_init_called_first demo.NameValist
                            demo.funcName demo.fullName 0%nat))
              (closure demo.funcName 1 demo.main) demo.afterDeclare _
              demo.entry []
              {| llssa.fname := "main"; llssa.fsig := demo.noParams;
                 llssa.blocks := [] |}
              H eq_refl eq_refl eq_refl eq_refl) as (h & tail & Hh & Ht).
  assert (h = 0%nat) as -> by (vm_compute in Hh; congruence).
  eexists _, tail. split_and!; [exact H | exact Hh | exact Ht].
Defined.


(** A call of the initializer of package unsafe changes nothing, and
    [externals] translates as it does without its generic function. *)
Lemma noop_init_and_generics_skipped_witness :
  (funcKind demo.NameValist (ssa.Function_ (demo.func "unsafe" "init")) =
     fnUnsafeInit ∧
   compileInstr demo.NameValist demo.funcName demo.fullName 0
     (ssa.IValue (ssa.Call 9 (ssa.Function_ (demo.func "unsafe" "init")) []))
     demo.building = Ok tt demo.building) ∧
  (NoDup (ssa.Pos <$> funcsOf (ssa.Members demo.externals)) ∧
   NoDup (ssa.GPos <$> globalsOf (ssa.Members demo.externals)) ∧
   NewPackage demo.NameValist demo.funcName demo.fullName demo.sortSlice
     demo.externals =
   NewPackage demo.NameValist demo.funcName demo.fullName demo.sortSlice
     (dropGenerics demo.externals)).
Proof.
  pose proof (noop_init_and_generics_skipped demo.NameValist demo.funcName
                demo.fullName demo.sortSlice insertion_perm insertion_less)
    as (Hcall & _ & _ & Hdrop & _).
  assert (NoDup (ssa.Pos <$> funcsOf (ssa.Members demo.externals))) as Hf
    by (vm_compute; apply (bool_decide_unpack _); vm_compute; exact I).
  assert (NoDup (ssa.GPos <$> globalsOf (ssa.Members demo.externals))) as Hg
    by (vm_compute; apply (bool_decide_unpack _); vm_compute; exact I).
  split_and!; [reflexivity | | exact Hf | exact Hg |].
  - exact (proj1 (Hcall 0%nat 9%nat
                    (ssa.Function_ (demo.func "unsafe" "init")) []
                    demo.building eq_refl)).
  - exact (Hdrop demo.externals Hf Hg).
Defined.

(** ** Further properties, on the same package *)

(** The store of [main] appends to block 0 of function 0 and leaves the
    rest of the package alone. *)
Lemma lowering_writes_insertion_block_only_witness :
  ∃ p',
    compileInstr demo.NameValist demo.funcName demo.fullName 0
      (ssa.Store (ssa.VInstr demo.t0) (ssa.Const (Some (ssa.CInt 1)) "int"))
      demo.building = Ok tt p' ∧
    appendsAt 0 demo.building p'.
Proof.
  eassert (compileInstr demo.NameValist demo.funcName demo.fullName 0
             (ssa.Store (ssa.VInstr demo.t0)
                (ssa.Const (Some (ssa.CInt 1)) "int"))
             demo.building = Ok tt _) as H by (vm_compute; reflexivity).
  destruct (proj1 (lowering_writes_insertion_block_only demo.NameValist
                     demo.funcName demo.fullName 0%nat) _ _ _ _ H)
    as [Ha _].
  eexists. split; [exact H | exact Ha].
Defined.

(** The allocation [t0] is lowered to an allocation, the first operation
    of the block. *)
Lemma lowered_value_names_its_operation_witness :
  ∃ e p' i ops o,
    compileInstrAndValue demo.NameValist demo.funcName demo.fullName 0
      demo.t0 demo.building = Ok e p' ∧
    cursor demo.building = Some i ∧ e = llssa.Reg 0 i (length ops) ∧
    llssa.opsOf 0 i (pkg p') = Some (ops ++ [o]) ∧ lowersTo demo.t0 o.
Proof.
  eassert (compileInstrAndValue demo.NameValist demo.funcName demo.fullName
             0 demo.t0 demo.building = Ok _ _) as H
    by (vm_compute; reflexivity).
  destruct (lowered_value_names_its_operation demo.NameValist demo.funcName
              demo.fullName 0%nat demo.t0 demo.building _ _
              eq_refl eq_refl H) as (i & ops & o & Hc & He & Ho & Hl & _).
  eexists _, _, i, ops, o.
  split_and!; [exact H | exact Hc | exact He | exact Ho | exact Hl].
Defined.

(** A jump to block 0 of the function being built. *)
Lemma instruction_emits_its_operation_witness :
  ∃ p' i ops o,
    compileInstr demo.NameValist demo.funcName demo.fullName 0
      (ssa.Jump [0%nat]) demo.building = Ok tt p' ∧
    cursor demo.building = Some i ∧
    llssa.opsOf 0 i (pkg p') = Some (ops ++ [o]) ∧
    emitsFor (ssa.Jump [0%nat]) o.
Proof.
  eassert (compileInstr demo.NameValist demo.funcName demo.fullName 0
             (ssa.Jump [0%nat]) demo.building = Ok tt _) as H
    by (vm_compute; reflexivity).
  destruct (instruction_emits_its_operation demo.NameValist demo.funcName
              demo.fullName 0%nat (ssa.Jump [0%nat]) demo.building _
              ltac:(discriminate) H) as (i & ops & o & Hc & Ho & He & _).
  eexists _, i, ops, o. split_and!; [exact H | exact Hc | exact Ho | exact He].
Defined.

(** [main] calling itself with one argument: an ordinary call. *)
Lemma call_normal_witness :
  funcKind demo.NameValist (ssa.Function_ (demo.func "main" "main")) =
    fnNormal ∧
  bvals demo.building !! 7%nat = None ∧
  ∃ p3,
    compileInstrAndValue demo.NameValist demo.funcName demo.fullName 0
      (ssa.Call 7 (ssa.Function_ (demo.func "main" "main"))
         [ssa.Const (Some (ssa.CInt 1)) "int"]) demo.building =
      Ok (llssa.Reg 0 0 0) p3 ∧
    llssa.opsOf 0 0 (pkg p3) =
      Some ([] ++ [llssa.OCall (llssa.FuncExpr 0)
                     [llssa.ConstExpr (Some (ssa.CInt 1))
                        (llssa.TypeOf "int")]]) ∧
    bvals p3 !! 7%nat = Some (llssa.Reg 0 0 0).
Proof.
  assert (funcKind demo.NameValist
            (ssa.Function_ (demo.func "main" "main")) = fnNormal)
    as Hk by reflexivity.
  assert (bvals demo.building !! 7%nat = None) as Hc by reflexivity.
  split_and!; [exact Hk | exact Hc |].
  destruct (call_normal demo.NameValist demo.funcName demo.fullName 0%nat
              7%nat (ssa.Function_ (demo.func "main" "main"))
              [ssa.Const (Some (ssa.CInt 1)) "int"] demo.building Hk Hc)
    as [H _].
  exact (proj2 (H (llssa.FuncExpr 0) demo.building
                  [llssa.ConstExpr (Some (ssa.CInt 1)) (llssa.TypeOf "int")]
                  demo.building 0%nat []
                  eq_refl eq_refl eq_refl eq_refl)).
Defined.

(** The second of two parameters. *)
Lemma parameter_resolves_by_position_witness :
  compileValue demo.NameValist demo.funcName demo.fullName 0
    (ssa.Parameter_ 4 [3; 4]%nat) demo.building =
  Ok (llssa.Param 0 1) demo.building.
Proof.
  exact (proj2 (parameter_resolves_by_position demo.NameValist demo.funcName
                  demo.fullName 0%nat 4%nat [3; 4]%nat demo.building)
           1%nat eq_refl
           ltac:(intros [|j] Hj; [discriminate | lia])).
Defined.

(** When [body] has been built its cache holds the allocation alone. *)
Lemma block_cache_names_block_operations_witness :
  ∃ p',
    compileBlock demo.NameValist demo.funcName demo.fullName 0 demo.body
      false demo.building = Ok 0%nat p' ∧
    cursor p' = Some 0%nat ∧
    dom (bvals p') ⊆ storedInBlock demo.body ∧ cacheValid 0 p'.
Proof.
  eassert (compileBlock demo.NameValist demo.funcName demo.fullName 0
             demo.body false demo.building = Ok 0%nat _) as H
    by (vm_compute; reflexivity).
  destruct (block_cache_names_block_operations demo.NameValist demo.funcName
              demo.fullName 0%nat demo.body false demo.building _ _ H)
    as (_ & Hc & Hd & Hv & _).
  eexists. split_and!; [exact H | exact Hc | exact Hd | exact Hv].
Defined.

(** Building the body of [main] gives function 1 its one block. *)
Lemma body_writes_its_function_only_witness :
  ∃ p',
    runInit demo.NameValist demo.funcName demo.fullName
      (closure demo.funcName 1 demo.main) demo.afterDeclare = Ok tt p' ∧
    fn p' = None ∧ shape (pkg p') = [0; 1; 0]%nat.
Proof.
  eassert (runInit demo.NameValist demo.funcName demo.fullName
             (closure demo.funcName 1 demo.main) demo.afterDeclare =
           Ok tt _) as H by (vm_compute; reflexivity).
  destruct (proj1 (body_writes_its_function_only demo.NameValist
                     demo.funcName demo.fullName
                     (closure demo.funcName 1 demo.main) demo.afterDeclare)
              _ H) as (Hf & _ & _ & _ & Hs & _).
  eexists. split_and!; [exact H | exact Hf | exact Hs].
Defined.

(** The translation of [mainPkg] has the blocks of its functions. *)
Lemma translated_package_mirrors_members_witness :
  ∃ P,
    NewPackage demo.NameValist demo.funcName demo.fullName demo.sortSlice demo.mainPkg =
      inr P ∧
    llssa.name P = "main"%string ∧ shape P = [0; 1; 0]%nat.
Proof.
  eassert (NewPackage demo.NameValist demo.funcName demo.fullName
             demo.sortSlice demo.mainPkg = inr _) as H by (vm_compute; reflexivity).
  pose proof (translated_package_mirrors_members demo.NameValist
                demo.funcName demo.fullName demo.sortSlice insertion_perm demo.mainPkg _ H) as Hall.
  cbv zeta in Hall. destruct Hall as (Hn & _ & _ & _ & Hs & _).
  eexists. split_and!; [exact H | exact Hn | exact Hs].
Defined.

(** [externals] translates to its declarations. *)
Lemma declarations_only_package_translates_witness :
  Forall (λ m, ¬ isType m.2) (ssa.Members demo.externals) ∧
  Forall (λ f, ssa.Blocks f = []) (funcsOf (ssa.Members demo.externals)) ∧
  NewPackage demo.NameValist demo.funcName demo.fullName demo.sortSlice demo.externals =
    inr {| llssa.name := "main"; llssa.path := "main";
           llssa.funcs :=
             declFunc demo.funcName
               <$> funcsOf (demo.sortSlice (ssa.Members demo.externals));
           llssa.vars :=
             declVar demo.fullName
               <$> globalsOf (demo.sortSlice (ssa.Members demo.externals)) |}.
Proof.
  assert (Forall (λ m, ¬ isType m.2) (ssa.Members demo.externals)) as Ht
    by (repeat (apply List.Forall_cons; [exact (λ x : False, x)|]);
        apply List.Forall_nil).
  assert (Forall (λ f, ssa.Blocks f = [])
            (funcsOf (ssa.Members demo.externals))) as Hb
    by (vm_compute; repeat (apply List.Forall_cons; [reflexivity|]);
        apply List.Forall_nil).
  split_and!; [exact Ht | exact Hb |].
  exact (declarations_only_package_translates demo.NameValist demo.funcName
           demo.fullName demo.sortSlice insertion_perm demo.externals Ht Hb).
Defined.

(** A reference to a declared function resolves without effect. *)
Lemma non_instruction_value_has_no_effect_witness :
  ∃ r p',
    compileValue demo.NameValist demo.funcName demo.fullName 0
      (ssa.Function_ (demo.func "main" "main")) demo.building = Ok r p' ∧
    p' = demo.building ∧ ∀ h i k, r ≠ llssa.Reg h i k.
Proof.
  eassert (compileValue demo.NameValist demo.funcName demo.fullName 0
             (ssa.Function_ (demo.func "main" "main")) demo.building =
           Ok _ _) as H by (vm_compute; reflexivity).
  destruct (proj1 (non_instruction_value_has_no_effect demo.NameValist
                     demo.funcName demo.fullName 0%nat
                     (ssa.Function_ (demo.func "main" "main")) demo.building
                     ltac:(discriminate)) _ _ H) as [Hp Hr].
  eexists _, _. split_and!; [exact H | exact Hp | exact Hr].
Defined.

(** [pkgWithGo] has no type member: it is the body of [h] that fails. *)
Lemma translation_fails_on_types_and_bodies_only_witness :
  ∃ l1 d l2 us p1,
    imap (closure demo.funcName)
         (funcsOf (demo.sortSlice (ssa.Members demo.pkgWithGo))) =
      l1 ++ d :: l2 ∧
    forRange (runInit demo.NameValist demo.funcName demo.fullName) l1
      (declared demo.funcName demo.fullName
         (demo.sortSlice (ssa.Members demo.pkgWithGo))
         (startContext demo.pkgWithGo)) = Ok us p1 ∧
    runInit demo.NameValist demo.funcName demo.fullName d p1 =
      Panic (UnknownInstr ssa.Go).
Proof.
  assert (NewPackage demo.NameValist demo.funcName demo.fullName
            demo.sortSlice demo.pkgWithGo = inl (UnknownInstr ssa.Go)) as H
    by (vm_compute; reflexivity).
  destruct (proj1 (translation_fails_on_types_and_bodies_only
                     demo.NameValist demo.funcName demo.fullName demo.sortSlice insertion_perm
                     demo.pkgWithGo (UnknownInstr ssa.Go)) H)
    as [[_ Habs]|[_ Hex]]; [discriminate Habs | exact Hex].
Defined.

(** [externals] translates as it does without its named constant. *)
Lemma named_constants_ignored_witness :
  NoDup (ssa.Pos <$> funcsOf (ssa.Members demo.externals)) ∧
  NoDup (ssa.GPos <$> globalsOf (ssa.Members demo.externals)) ∧
  NewPackage demo.NameValist demo.funcName demo.fullName demo.sortSlice
    demo.externals =
  NewPackage demo.NameValist demo.funcName demo.fullName demo.sortSlice
    (dropConsts demo.externals).
Proof.
  assert (NoDup (ssa.Pos <$> funcsOf (ssa.Members demo.externals))) as Hf
    by (vm_compute; apply (bool_decide_unpack _); vm_compute; exact I).
  assert (NoDup (ssa.GPos <$> globalsOf (ssa.Members demo.externals))) as Hg
    by (vm_compute; apply (bool_decide_unpack _); vm_compute; exact I).
  split_and!; [exact Hf | exact Hg |].
  exact (proj2 (proj2 (named_constants_ignored demo.NameValist demo.funcName
                         demo.fullName demo.sortSlice insertion_perm
                         insertion_less))
           demo.externals Hf Hg).
Defined.
